(** * Cursor-trajectory planner: dynamics kernels, reference path, corridor
    optimiser, MPCC planner, motion-noise model, constraints and simulator.

    Shallow embedding of [hcs_package]: model.py (the dynamics kernels,
    generate_mpcc and model), reference_path.py (ReferencePath and
    generate_optimal_reference_path), noise.py
    (single_step_motor_and_device_noise), constraints.py and
    constraint_utils.py (parse_constraints_from_json and
    convert_constraints_to_corridor_bounds) and cursor_simulator.py
    (CursorSimulator), followed by the facts proved about them.

    Numbers.  Python floats are modelled by real numbers with exact
    arithmetic; every real is finite, so [np.isfinite] is constantly true on
    computed values.  Raw waypoint coordinates, which the code filters with
    [np.isfinite], carry the non-finite values explicitly ([pyfloat]).
    Decimal literals of the source are written as fractions (0.5 as 1 / 2,
    1e-10 as 1 / 10 ^ 10).

    Data.  Arrays are lists, two-dimensional arrays lists of rows, in-place
    index assignment is stdpp's list insert, dictionaries are
    [gmap string R].

    Libraries.  SciPy's spline fitter [splprep] and its optimiser
    [minimize] are parameters of the embedding; the optimiser is used
    through the one property of L-BFGS-B the code relies on, that the
    answer lies within the bounds.  The global NumPy random generator is
    threaded explicitly.

    Derivative orders.  [splev] is total in [RefPath]; SciPy's splev raises
    for a derivative order above the degree of the spline.  [Fitpack] adds
    the degree of a spline as a parameter and the queries with that
    exception; the steering model and the simulator are built on those.

    Sample fitters.  Concrete paths are built with [Samples.fit] (degree 1:
    the polyline through the points) and with [Cubic.fit_cubic] (degree 3
    through four points: the one cubic polynomial through them, which is
    what splprep returns when there is no room for an interior knot). *)

From Stdlib Require Import Reals Lra Lia.
From stdpp Require Import base list gmap strings.

Open Scope R_scope.

(** ** NumPy helpers *)

Module Np.

Abbreviation vector := (list R).
Abbreviation matrix := (list (list R)).

Definition Rltb (x y : R) : bool := if Rlt_dec x y then true else false.
Definition Rleb (x y : R) : bool := if Rle_dec x y then true else false.
Definition Reqb (x y : R) : bool := if Req_dec_T x y then true else false.

(** np.zeros((n, m)), np.ones((n, m)) *)
Definition zeros2 (n m : nat) : matrix := replicate n (replicate m 0).
Definition ones2 (n m : nat) : matrix := replicate n (replicate m 1).
Definition zeros (n : nat) : vector := replicate n 0.
Definition full (n : nat) (x : R) : vector := replicate n x.

(** np.tril: entries above the main diagonal become 0 *)
Definition tril (A : matrix) : matrix :=
  imap (fun k row =>
          imap (fun i x => if decide (i <= k)%nat then x else 0) row) A.

(** A * c, elementwise *)
Definition mscale (A : matrix) (c : R) : matrix :=
  (fun row : vector => (fun x => x * c) <$> row) <$> A.

(** A[k, i] = v; out of range the list is left as it is (the loops of the
    source never index out of range) *)
Definition mset (A : matrix) (k i : nat) (v : R) : matrix :=
  alter (fun row => <[i := v]> row) k A.

(** A[k, i] *)
Definition mget (A : matrix) (k i : nat) : option R :=
  A !! k ≫= fun row => row !! i.

(** row @ x for equal lengths *)
Fixpoint dot (row x : vector) : R :=
  match row, x with
  | a :: row', b :: x' => a * b + dot row' x'
  | _, _ => 0
  end.

(** A @ x *)
Definition matvec (A : matrix) (x : vector) : vector :=
  (fun row : vector => dot row x) <$> A.

(** a + b, a * b elementwise on vectors of equal length; c + v, c * v *)
Definition vadd (a b : vector) : vector := zip_with Rplus a b.
Definition sadd (c : R) (v : vector) : vector := (fun x => c + x) <$> v.
Definition smul (c : R) (v : vector) : vector := (fun x => c * x) <$> v.

(** np.arange(a, b) * dt for naturals a <= b *)
Definition arange_scaled (a b : nat) (dt : R) : vector :=
  (fun i => INR i * dt) <$> seq a (b - a).

(** np.cumsum *)
Fixpoint cumsum_from (acc : R) (v : vector) : vector :=
  match v with
  | [] => []
  | x :: v' => (acc + x) :: cumsum_from (acc + x) v'
  end.
Definition cumsum (v : vector) : vector := cumsum_from 0 v.

(** np.sum *)
Definition sum (v : vector) : R := foldr Rplus 0 v.

(** np.clip(x, lo, hi) = minimum(maximum(x, lo), hi) *)
Definition clip (x lo hi : R) : R := Rmin (Rmax x lo) hi.

(** np.linspace(a, b, n) *)
Definition linspace (a b : R) (n : nat) : vector :=
  (fun i => a + INR i * ((b - a) / INR (n - 1))) <$> seq 0 n.

(** Finite sums of reals, [sumR f n] = f 0 + ... + f (n-1) *)
Fixpoint sumR (f : nat -> R) (n : nat) : R :=
  match n with
  | O => 0
  | S n' => sumR f n' + f n'
  end.

(** The n x n matrix with entry (k, i) equal to [f k i] *)
Definition tabulate (n : nat) (f : nat -> nat -> R) : matrix :=
  (fun k => f k <$> seq 0 n) <$> seq 0 n.

(** Order of a table *)
Definition nondecreasing (l : list R) : Prop :=
  forall i a b, l !! i = Some a -> l !! S i = Some b -> a <= b.

Definition increasing (l : list R) : Prop :=
  forall i j a b, l !! i = Some a -> l !! j = Some b -> (i < j)%nat -> a < b.

End Np.

(** ** model.py: discrete dynamics kernels *)

Module Dynamics.
Import Np.

(** [_build_A_acc]: np.tril(np.ones((num_steps, num_steps))) * dt *)
Definition _build_A_acc (num_steps : nat) (dt : R) : matrix :=
  mscale (tril (ones2 num_steps num_steps)) dt.

(** [_build_A_vel_from_jerk]: the double loop filling
    A_v[k, i] = (k - i + 0.5) * dt ** 2 for i in range(k + 1) *)
Definition A_vel_row_loop (dt : R) (A : matrix) (k : nat) : matrix :=
  foldl (fun A i => mset A k i ((INR k - INR i + 1 / 2) * dt ^ 2))
        A (seq 0 (k + 1)).

Definition _build_A_vel_from_jerk (num_steps : nat) (dt : R) : matrix :=
  foldl (A_vel_row_loop dt) (zeros2 num_steps num_steps) (seq 0 num_steps).

(** [_build_A_pos_from_jerk]: one pass of the inner loop body, for the
    impulse at input index [i] and step [k]; the state carries the matrix
    and (dp, dv, da) *)
Definition impulse_body (dt : R) (i : nat)
    (st : matrix * (R * R * R)) (k : nat) : matrix * (R * R * R) :=
  let '(A, (dp, dv, da)) := st in
  let j_val := if decide (k = i) then 1 else 0 in
  let term_p := dp + dv * dt + (1 / 2) * da * dt ^ 2 + (1 / 6) * j_val * dt ^ 3 in
  let term_v := dv + da * dt + (1 / 2) * j_val * dt ^ 2 in
  let term_a := da + j_val * dt in
  (mset A k i term_p, (term_p, term_v, term_a)).

Definition A_pos_col_loop (num_steps : nat) (dt : R) (A : matrix) (i : nat)
    : matrix :=
  fst (foldl (impulse_body dt i) (A, (0, 0, 0)) (seq 0 num_steps)).

Definition _build_A_pos_from_jerk (num_steps : nat) (dt : R) : matrix :=
  foldl (A_pos_col_loop num_steps dt) (zeros2 num_steps num_steps)
        (seq 0 num_steps).

(** The vectors of [generate_mpcc] built from these kernels *)
Definition t_vec (num_steps : nat) (dt : R) : vector :=
  arange_scaled 1 (num_steps + 1) dt.
Definition t2_vec (num_steps : nat) (dt : R) : vector :=
  (fun t => (1 / 2) * t ^ 2) <$> t_vec num_steps dt.

(** p_free = p0 + v0 * t_vec + a0 * t2_vec *)
Definition p_free (num_steps : nat) (dt p0 v0 a0 : R) : vector :=
  zip_with (fun t t2 => p0 + v0 * t + a0 * t2)
           (t_vec num_steps dt) (t2_vec num_steps dt).
(** v_free = v0 + a0 * t_vec *)
Definition v_free (num_steps : nat) (dt v0 a0 : R) : vector :=
  (fun t => v0 + a0 * t) <$> t_vec num_steps dt.
(** a_free = np.full(num_steps, a0) *)
Definition a_free (num_steps : nat) (a0 : R) : vector := full num_steps a0.

(** S_mat = np.tril(np.ones((num_steps, num_steps))) * dt and
    s_traj = s0 + S_mat @ vs *)
Definition S_mat (num_steps : nat) (dt : R) : matrix :=
  mscale (tril (ones2 num_steps num_steps)) dt.
Definition s_traj (num_steps : nat) (dt s0 : R) (vs : vector) : vector :=
  sadd s0 (matvec (S_mat num_steps dt) vs).

(** The discrete update the kernels are meant to integrate, as the comments
    of the source state it:
      p_{k+1} = p_k + v_k dt + 0.5 a_k dt^2 + (1/6) j_k dt^3
      v_{k+1} = v_k + a_k dt + 0.5 j_k dt^2
      a_{k+1} = a_k + j_k dt *)
Definition discrete_update (dt : R) (st : R * R * R) (j : R) : R * R * R :=
  let '(p, v, a) := st in
  (p + v * dt + (1 / 2) * a * dt ^ 2 + (1 / 6) * j * dt ^ 3,
   v + a * dt + (1 / 2) * j * dt ^ 2,
   a + j * dt).

Definition rollout (dt : R) (st : R * R * R) (js : vector) : R * R * R :=
  foldl (discrete_update dt) st js.

(** The unit impulse at input index [i] *)
Definition impulse (i : nat) (l : nat) : R := if decide (l = i) then 1 else 0.

(** Position response, [m] steps after a unit jerk impulse (as a real) *)
Definition pos_kernel (dt x : R) : R := dt ^ 3 * (1 / 6 + x * (x + 1) / 2).

End Dynamics.

(** ** reference_path.py: ReferencePath *)

Module RefPath.
Import Np.

(** A raw float of the input: [np.isfinite] tells the cases apart *)
Inductive pyfloat : Type :=
  | Finite (r : R)
  | PosInf
  | NegInf
  | NaN.

Definition isfinite (x : pyfloat) : bool :=
  match x with Finite _ => true | _ => false end.

Abbreviation point := (R * R)%type.
Abbreviation raw_point := (pyfloat * pyfloat)%type.

(** Constants of the source *)
Definition tol_dup : R := 1 / 10 ^ 10.      (* 1e-10 *)
Definition eps_offset : R := 1 / 10 ^ 6.    (* 1e-6 *)
Definition tol_tangent : R := 1 / 10 ^ 9.   (* 1e-9 *)
Definition tol_den : R := 1 / 10 ^ 12.      (* 1e-12 *)
Definition newton_tol : R := 1 / 10 ^ 6.    (* tol = 1e-6 *)
Definition newton_max_iter : nat := 5.
Definition num_dense : nat := 1000.

(** The exceptions of construction; all of them are [ValueError]s
    ([numpy.exceptions.AxisError] is a subclass) *)
Inductive error : Type :=
  | AxisError         (* .all(axis=1) on the 1-D array of an empty list *)
  | AllInvalid        (* "All waypoints are invalid (NaN or inf)" *)
  | TooFew (n : nat)  (* "Need at least 2 distinct waypoints, got n" *)
  | SplprepFailed.    (* "splprep failed with waypoints shape ..." *)

Definition padd (a b : point) : point := (a.1 + b.1, a.2 + b.2).
Definition psub (a b : point) : point := (a.1 - b.1, a.2 - b.2).
Definition pscale (a : point) (c : R) : point := (a.1 * c, a.2 * c).
Definition pdiv (a : point) (c : R) : point := (a.1 / c, a.2 / c).

(** np.linalg.norm of a 2-vector *)
Definition norm (v : point) : R := sqrt (v.1 ^ 2 + v.2 ^ 2).

(** np.diff(points, axis=0) *)
Fixpoint diff_points (l : list point) : list point :=
  match l with
  | a :: (b :: _) as t => psub b a :: diff_points t
  | _ => []
  end.

(** l[mask] *)
Fixpoint mask_select {A : Type} (l : list A) (mask : list bool) : list A :=
  match l, mask with
  | x :: l', b :: mask' =>
      if b then x :: mask_select l' mask' else mask_select l' mask'
  | _, _ => []
  end.

Definition finite_point (p : raw_point) : bool := isfinite p.1 && isfinite p.2.

Definition to_point (p : raw_point) : option point :=
  match p with
  | (Finite x, Finite y) => Some (x, y)
  | _ => None
  end.

(** waypoints[valid_mask]: the rows whose two entries are finite *)
Definition keep_finite (wps : list raw_point) : list point := omap to_point wps.

(** keep_mask = np.concatenate([[True], dists > 1e-10]) *)
Definition keep_mask (l : list point) : list bool :=
  true :: ((fun d => Rltb tol_dup (norm d)) <$> diff_points l).

(** The duplicate-removal step *)
Definition remove_consecutive_duplicates (l : list point) : list point :=
  if (1 <? length l)%nat then mask_select l (keep_mask l) else l.

Definition at_ (l : list point) (i : nat) : point := nth i l (0, 0).

(** perp / (np.linalg.norm(perp) + 1e-10) for perp = [-dir[1], dir[0]] *)
Definition unit_perp (dir_vec : point) : point :=
  let perp := (- dir_vec.2, dir_vec.1) in
  pdiv perp (norm perp + tol_dup).

Definition add_midpoint (l : list point) : list point :=
  if (length l =? 2)%nat then
    let mid_point := pdiv (padd (at_ l 0) (at_ l 1)) 2 in
    [at_ l 0; mid_point; at_ l 1]
  else l.

Definition add_offset_point (l : list point) : list point :=
  if (length l =? 3)%nat then
    let mid_point := at_ l 1 in
    let dir_vec := psub (at_ l 2) (at_ l 0) in
    let offset_point := padd mid_point (pscale (unit_perp dir_vec) eps_offset) in
    [at_ l 0; at_ l 1; offset_point; at_ l 2]
  else l.

Definition break_collinearity (l : list point) : list point :=
  if (3 <=? length l)%nat then
    let last_ := at_ l (length l - 1) in
    let vec1 := psub (at_ l 1) (at_ l 0) in
    let vec2 := psub last_ (at_ l 0) in
    let cross := vec1.1 * vec2.2 - vec1.2 * vec2.1 in
    if Rltb (Rabs cross) tol_dup then
      let mid_idx := (length l / 2)%nat in
      let dir_vec := psub last_ (at_ l 0) in
      <[mid_idx := padd (at_ l mid_idx) (pscale (unit_perp dir_vec) eps_offset)]> l
    else l
  else l.

(** [ReferencePath._validate_and_prepare_waypoints] *)
Definition _validate_and_prepare_waypoints (wps : list raw_point)
    : error + list point :=
  match wps with
  | [] => inl AxisError
  | _ =>
    let valid_mask : list bool := finite_point <$> wps in
    let waypoints := keep_finite wps in
    if negb (forallb (fun b : bool => b) valid_mask)
       && (length waypoints =? 0)%nat
    then inl AllInvalid
    else
      let waypoints := remove_consecutive_duplicates waypoints in
      if (length waypoints <? 2)%nat then inl (TooFew (length waypoints))
      else inr (break_collinearity (add_offset_point (add_midpoint waypoints)))
  end.

(** The fitted spline [tck], by what [splev(u, tck, der)] returns for
    der = 0, 1, 2 *)
Record Spline : Type := {
  sp_c : R -> point;
  sp_c1 : R -> point;
  sp_c2 : R -> point
}.

Definition splev (u : R) (tck : Spline) (der : nat) : point :=
  match der with
  | O => sp_c tck u
  | S O => sp_c1 tck u
  | _ => sp_c2 tck u
  end.

Record ReferencePath : Type := {
  waypoints : list point;
  tck : Spline;
  u : list R;
  arclengths : list R;
  u_dense : list R;
  total_length : R
}.

(** np.interp(x, xp, fp) on a non-decreasing table [xp]: the bisection of
    NumPy returns the last index j with xp[j] <= x *)
Fixpoint last_le_from (x : R) (xp : list R) (i best : nat) : nat :=
  match xp with
  | [] => best
  | y :: xp' => last_le_from x xp' (S i) (if Rleb y x then i else best)
  end.
Definition last_le (x : R) (xp : list R) : nat := last_le_from x xp 0 0.

Definition interp (x : R) (xp fp : list R) : R :=
  let n := length xp in
  if Rltb (nth (n - 1) xp 0) x then nth (n - 1) fp 0
  else if Rltb x (nth 0 xp 0) then nth 0 fp 0
  else
    let j := last_le x xp in
    if (j =? n - 1)%nat then nth j fp 0
    else if Reqb (nth j xp 0) x then nth j fp 0
    else
      let slope := (nth (j + 1) fp 0 - nth j fp 0)
                   / (nth (j + 1) xp 0 - nth j xp 0) in
      slope * (x - nth j xp 0) + nth j fp 0.

(** np.argmin: the first index of the minimum *)
Fixpoint argmin_from (l : list R) (i best : nat) (bestv : R) : nat :=
  match l with
  | [] => best
  | x :: l' =>
      if Rltb x bestv then argmin_from l' (S i) i x
      else argmin_from l' (S i) best bestv
  end.
Definition argmin (l : list R) : nat :=
  match l with
  | [] => O
  | x :: l' => argmin_from l' 1 0 x
  end.

Section Construction.

(** scipy's [splprep(points, s, k)]: the fitted curve and the parameter
    values, or [None] when it raises [ValueError] *)
Variable splprep : list point -> R -> nat -> option (Spline * list R).

(** [ReferencePath.__init__] *)
Definition init (wps : list raw_point) (s : R) (k : nat)
    : error + ReferencePath :=
  match _validate_and_prepare_waypoints wps with
  | inl e => inl e
  | inr waypoints =>
    let max_k := Nat.min k (length waypoints - 1) in
    let max_k := if (max_k <? 1)%nat then 1%nat else max_k in
    let fit :=
      match splprep waypoints s max_k with
      | Some r => Some r
      | None => if (1 <? max_k)%nat then splprep waypoints s 1 else None
      end in
    match fit with
    | None => inl SplprepFailed
    | Some (tck, u) =>
      let u_dense := linspace 0 1 num_dense in
      let xy_dense := (fun u => splev u tck 0) <$> u_dense in
      let diffs := diff_points xy_dense in
      let ds := (fun d : point => sqrt (d.1 ^ 2 + d.2 ^ 2)) <$> diffs in
      let arclengths := 0 :: cumsum ds in
      inr {| waypoints := waypoints; tck := tck; u := u;
             arclengths := arclengths; u_dense := u_dense;
             total_length := nth (length arclengths - 1) arclengths 0 |}
    end
  end.

End Construction.

(** [ReferencePath._theta_to_u] *)
Definition _theta_to_u (p : ReferencePath) (theta : R) : R :=
  let theta := clip theta 0 (total_length p) in
  interp theta (arclengths p) (u_dense p).

(** [ReferencePath.__call__] *)
Definition call (p : ReferencePath) (theta : R) : point :=
  let u := _theta_to_u p theta in
  splev u (tck p) 0.

(** [ReferencePath.tangent] *)
Definition tangent (p : ReferencePath) (theta : R) : point :=
  let u := _theta_to_u p theta in
  let t := splev u (tck p) 1 in
  let nrm := norm t in
  if Rltb nrm tol_tangent then (1, 0) else pdiv t nrm.

(** [ReferencePath.normal] *)
Definition normal (p : ReferencePath) (theta : R) : point :=
  let t := tangent p theta in
  (t.2, - t.1).

(** [ReferencePath.curvature]; x ** 1.5 is x * sqrt x on x >= 0 *)
Definition curvature (p : ReferencePath) (theta : R) : R :=
  let u := _theta_to_u p theta in
  let dxy := splev u (tck p) 1 in
  let ddxy := splev u (tck p) 2 in
  let '(dx, dy) := dxy in
  let '(ddx, ddy) := ddxy in
  let num := dx * ddy - dy * ddx in
  let den := (dx ^ 2 + dy ^ 2) * sqrt (dx ^ 2 + dy ^ 2) in
  if Rltb den tol_den then 0 else num / den.

(** The Newton refinement loop of [find_closest_theta]: [iters] passes
    left, with the three [break]s *)
Fixpoint newton (tck : Spline) (px py min_u : R) (iters : nat) (u0 : R) : R :=
  match iters with
  | O => u0
  | S iters' =>
    let c := splev u0 tck 0 in
    let c1 := splev u0 tck 1 in
    let c2 := splev u0 tck 2 in
    let rx := c.1 - px in
    let ry := c.2 - py in
    let '(c1x, c1y) := c1 in
    let '(c2x, c2y) := c2 in
    let f_prime := 2 * (rx * c1x + ry * c1y) in
    let f_second := 2 * ((c1x * c1x + c1y * c1y) + (rx * c2x + ry * c2y)) in
    if Rltb (Rabs f_second) tol_den then u0
    else
      let du := - f_prime / f_second in
      if Rltb (Rabs du) newton_tol then u0
      else
        let u_new := clip (u0 + du) min_u 1 in
        if Rltb (Rabs (u_new - u0)) newton_tol then u_new
        else newton tck px py min_u iters' u_new
  end.

(** [ReferencePath.find_closest_theta] *)
Definition find_closest_theta (p : ReferencePath) (pos : point)
    (initial_guess min_theta : option R) : R :=
  let '(px, py) := pos in
  let u0 :=
    match initial_guess with
    | Some g =>
        let theta0 := clip g 0 (total_length p) in
        interp theta0 (arclengths p) (u_dense p)
    | None =>
        let xy := (fun u => splev u (tck p) 0) <$> u_dense p in
        let dist2 := (fun q : point =>
                        (q.1 - px) * (q.1 - px) + (q.2 - py) * (q.2 - py))
                     <$> xy in
        let idx := argmin dist2 in
        nth idx (u_dense p) 0
    end in
  let min_u :=
    match min_theta with
    | Some m => interp m (arclengths p) (u_dense p)
    | None => 0
    end in
  let u0 :=
    match min_theta with
    | Some _ => Rmax u0 min_u
    | None => u0
    end in
  let u0 := newton (tck p) px py min_u newton_max_iter u0 in
  interp u0 (u_dense p) (arclengths p).

(** The public operations of a path.  None of the methods assigns an
    attribute of [self]: each returns its answer and the object as it was. *)
Inductive query : Type :=
  | QCall (theta : R)
  | QTangent (theta : R)
  | QNormal (theta : R)
  | QCurvature (theta : R)
  | QThetaToU (theta : R)
  | QFindClosest (pos : point) (initial_guess min_theta : option R).

Inductive answer : Type :=
  | APoint (q : point)
  | AScalar (x : R).

Definition run (q : query) (p : ReferencePath) : answer * ReferencePath :=
  match q with
  | QCall theta => (APoint (call p theta), p)
  | QTangent theta => (APoint (tangent p theta), p)
  | QNormal theta => (APoint (normal p theta), p)
  | QCurvature theta => (AScalar (curvature p theta), p)
  | QThetaToU theta => (AScalar (_theta_to_u p theta), p)
  | QFindClosest pos g m => (AScalar (find_closest_theta p pos g m), p)
  end.

(** The dense samples of the curve: [xy_dense] of [__init__], which
    [find_closest_theta] evaluates again for its coarse scan *)
Definition xy_dense (p : ReferencePath) : list point :=
  (fun u => splev u (tck p) 0) <$> u_dense p.

(** The errors raised by waypoint validation, as opposed to a failed fit *)
Definition validation_error (e : error) : Prop :=
  match e with
  | SplprepFailed => False
  | _ => True
  end.

(** The cleaning as the specification words it: after the non-finite
    waypoints are removed, every point at distance <= 1e-10 from the point
    before it is removed *)
Fixpoint drop_near (prev : point) (l : list point) : list point :=
  match l with
  | [] => []
  | q :: t =>
      if Rleb (norm (psub q prev)) tol_dup then drop_near q t
      else q :: drop_near q t
  end.

Definition distinct_consecutive (l : list point) : list point :=
  match l with
  | [] => []
  | a :: t => a :: drop_near a t
  end.

Definition cleaned (wps : list raw_point) : list point :=
  distinct_consecutive (keep_finite wps).

End RefPath.

(** ** scipy.optimize.minimize(method='L-BFGS-B') *)

Module Scipy.
Import Np.

(** The fields of [OptimizeResult] the code reads *)
Record OptimizeResult : Type := {
  res_x : list R;
  res_success : bool;
  res_fun : R;
  res_nit : nat
}.

(** One entry of [bounds]: (lower, upper), [None] for no bound *)
Abbreviation bound := (option R * option R)%type.

Definition within (b : bound) (x : R) : Prop :=
  match b.1 with Some lo => lo <= x | None => True end
  /\ match b.2 with Some hi => x <= hi | None => True end.

Definition consistent (b : bound) : Prop :=
  match b.1, b.2 with
  | Some lo, Some hi => lo <= hi
  | _, _ => True
  end.

(** The solver: objective, start, optional gradient, bounds *)
Definition solver : Type :=
  (list R -> R) -> list R -> option (list R -> list R) -> list bound
  -> OptimizeResult.

(** L-BFGS-B is a bound-constrained method: it projects the start onto the
    box and every iterate stays inside it, so the returned point has one
    entry per variable, each within its bounds. *)
Definition respects_bounds (minimize : solver) : Prop :=
  forall f x0 jac (bounds : list bound),
    length bounds = length x0 -> Forall consistent bounds ->
    Forall2 within bounds (res_x (minimize f x0 jac bounds)).

(** Projection of a start value onto its bounds *)
Definition project (b : bound) (x : R) : R :=
  let x := match b.1 with Some lo => Rmax lo x | None => x end in
  match b.2 with Some hi => Rmin hi x | None => x end.

(** What L-BFGS-B returns when the projected gradient vanishes at the
    projected start (as for an objective that is constant): that point,
    after no iteration, with success reported *)
Definition lbfgsb_stationary : solver :=
  fun f x0 jac bounds =>
    let x := zip_with project bounds x0 in
    {| res_x := x; res_success := true; res_fun := f x; res_nit := 0 |}.

(** A run that ends without convergence: the start is returned and
    [success] is false *)
Definition lbfgsb_failed : solver :=
  fun f x0 jac bounds =>
    let x := zip_with project bounds x0 in
    {| res_x := x; res_success := false; res_fun := f x; res_nit := 0 |}.

End Scipy.

(** ** reference_path.py: generate_optimal_reference_path *)

Module Corridor.
Import Np RefPath Scipy.

Inductive error : Type :=
  | PathError (e : RefPath.error)   (* construction of the centerline raised *)
  | BadShape.                       (* an array of negative or empty shape *)

(** A^T for a matrix with [ncols] columns *)
Definition mtranspose (ncols : nat) (A : matrix) : matrix :=
  (fun i => (fun row : vector => nth i row 0) <$> A) <$> seq 0 ncols.

(** A @ B for B with [ncols] columns *)
Definition matmul (ncols : nat) (A B : matrix) : matrix :=
  (fun row : vector => (fun col : vector => dot row col) <$> mtranspose ncols B)
  <$> A.

Definition madd (A B : matrix) : matrix := zip_with vadd A B.
Definition mscale_l (c : R) (A : matrix) : matrix :=
  (fun row : vector => smul c row) <$> A.
Definition eye (n : nat) : matrix :=
  (fun k => (fun i => if decide (i = k) then 1 else 0) <$> seq 0 n) <$> seq 0 n.

(** D1[k, k] = -1; D1[k, k+1] = 1 for k in range(N-1) *)
Definition D1 (N : nat) : matrix :=
  foldl (fun D k => mset (mset D k k (-1)) k (k + 1) 1)
        (zeros2 (N - 1) N) (seq 0 (N - 1)).

(** D2[k, k] = 1; D2[k, k+1] = -2; D2[k, k+2] = 1 for k in range(N-2) *)
Definition D2 (N : nat) : matrix :=
  foldl (fun D k => mset (mset (mset D k k 1) k (k + 1) (-2)) k (k + 2) 1)
        (zeros2 (N - 2) N) (seq 0 (N - 2)).

(** np.diff(s, prepend=s[0]) followed by ds[0] = ds[1] if len(ds) > 1
    else 0.0 *)
Fixpoint diff_vec (l : vector) : vector :=
  match l with
  | a :: (b :: _) as t => (b - a) :: diff_vec t
  | _ => []
  end.
Definition knot_spacing (s_knots : vector) : vector :=
  let ds := (nth 0 s_knots 0 - nth 0 s_knots 0) :: diff_vec s_knots in
  <[O := if (1 <? length ds)%nat then nth 1 ds 0 else 0]> ds.

(** half_w = np.maximum(np.full(N, 0.5 * tunnel_width - margin), 1e-6) *)
Definition half_width (tunnel_width margin : R) : R :=
  Rmax ((1 / 2) * tunnel_width - margin) (1 / 10 ^ 6).

(** lb, ub with the end points pinned to 0, zipped into [bounds] *)
Definition offset_bounds (N : nat) (half_w : R) : list bound :=
  let lb := full N (- half_w) in
  let ub := full N half_w in
  let lb := <[(N - 1)%nat := 0]> (<[O := 0]> lb) in
  let ub := <[(N - 1)%nat := 0]> (<[O := 0]> ub) in
  zip_with (fun l u => (Some l, Some u)) lb ub.

(** The segment-intersection test shared by [_has_loop] and
    [_remove_loops_from_path]: segments p0 p1 and p2 p3 cross at interior
    points *)
Definition segments_cross (tol : R) (p0 p1 p2 p3 : point) : bool :=
  let denom :=
    (p1.1 - p0.1) * (p3.2 - p2.2) - (p1.2 - p0.2) * (p3.1 - p2.1) in
  if Rltb tol (Rabs denom) then
    let t := ((p2.1 - p0.1) * (p3.2 - p2.2) - (p2.2 - p0.2) * (p3.1 - p2.1))
             / denom in
    let u := ((p2.1 - p0.1) * (p1.2 - p0.2) - (p2.2 - p0.2) * (p1.1 - p0.1))
             / denom in
    Rltb tol t && Rltb t (1 - tol) && Rltb tol u && Rltb u (1 - tol)
  else false.

(** [_has_loop] *)
Definition _has_loop (path_points : list point) (tol : R) : bool :=
  let n := length path_points in
  if (n <? 4)%nat then false
  else
    existsb (fun i =>
      existsb (fun j =>
                 segments_cross tol (at_ path_points i) (at_ path_points (i + 1))
                                (at_ path_points j) (at_ path_points (j + 1)))
              (seq (i + 2) (n - 1 - (i + 2))))
      (seq 0 (n - 1)).

(** One pass of the while loop of [_remove_loops_from_path] *)
Definition try_append (pts : list point) (tol : R)
    (cleaned_indices : list nat) (i : nat) : list nat :=
  let test_indices := cleaned_indices ++ [i] in
  let m := length test_indices in
  let has_intersection :=
    if (4 <=? m)%nat then
      let p2 := at_ pts (nth (m - 2) test_indices O) in
      let p3 := at_ pts (nth (m - 1) test_indices O) in
      existsb (fun j =>
                 segments_cross tol (at_ pts (nth j test_indices O))
                                (at_ pts (nth (j + 1) test_indices O)) p2 p3)
              (seq 0 (m - 3))
    else false in
  if has_intersection then cleaned_indices else cleaned_indices ++ [i].

(** path_points[::step] *)
Definition stride (step : nat) (pts : list point) : list point :=
  (fun i => at_ pts (i * step)) <$> seq 0 ((length pts + step - 1) / step).

(** np.array_equal on two points *)
Definition point_eqb (a b : point) : bool := Reqb a.1 b.1 && Reqb a.2 b.2.

(** [_remove_loops_from_path] *)
Definition _remove_loops_from_path (pts : list point) (tol : R) : list point :=
  let n := length pts in
  if (n <? 4)%nat then pts
  else if negb (_has_loop pts tol) then pts
  else
    let cleaned_indices := foldl (try_append pts tol) [O] (seq 1 (n - 1)) in
    let cleaned_indices :=
      if (nth (length cleaned_indices - 1) cleaned_indices O =? n - 1)%nat
      then cleaned_indices else cleaned_indices ++ [(n - 1)%nat] in
    let cleaned_path := at_ pts <$> cleaned_indices in
    if _has_loop cleaned_path tol then
      let step := Nat.max 2 (n / 20) in
      let cleaned_path := stride step pts in
      if (0 <? length cleaned_path)%nat
         && negb (point_eqb (at_ cleaned_path (length cleaned_path - 1))
                            (at_ pts (n - 1)))
      then cleaned_path ++ [at_ pts (n - 1)] else cleaned_path
    else cleaned_path.

Section Optimizer.

Variable splprep : list point -> R -> nat -> option (Spline * list R).
Variable minimize : solver.

(** num_knots, given or max(40, min(300, 2 * len(waypoints))) *)
Definition knot_count (tunnel_path : list raw_point) (num_knots : option nat)
    : nat :=
  match num_knots with
  | Some n => n
  | None => Nat.max 40 (Nat.min 300 (2 * length tunnel_path))
  end.

(** The offsets [d_opt] of [generate_optimal_reference_path] on a
    constructed centerline, for N >= 2 knots *)
Definition offsets_on (centerline : ReferencePath) (N : nat)
    (tunnel_width margin alpha beta lambda_length gamma_center : R)
    : vector :=
  let L := total_length centerline in
  let s_knots := linspace 0 L N in
  let kappa := (fun theta => curvature centerline theta) <$> s_knots in
  let ds := knot_spacing s_knots in
  let half_w := half_width tunnel_width margin in
  let H :=
    madd (madd (mscale_l alpha (matmul N (mtranspose N (D1 N)) (D1 N)))
               (mscale_l beta (matmul N (mtranspose N (D2 N)) (D2 N))))
         (mscale_l gamma_center (eye N)) in
  let f := smul lambda_length (zip_with Rmult kappa ds) in
  let bounds := offset_bounds N half_w in
  let objective := fun d : vector =>
    (1 / 2) * dot (matvec (mtranspose N H) d) d + dot f d in
  let gradient := fun d : vector => vadd (matvec H d) f in
  let res := minimize objective (zeros N) (Some gradient) bounds in
  if res_success res then res_x res else zeros N.

(** [generate_optimal_reference_path] up to the offsets [d_opt]; fewer
    than 2 knots make NumPy raise on an empty stack or a negative shape *)
Definition optimal_offsets (tunnel_path : list raw_point)
    (tunnel_width margin : R) (num_knots : option nat)
    (alpha beta lambda_length gamma_center : R) : error + vector :=
  match init splprep tunnel_path 0 3 with
  | inl e => inl (PathError e)
  | inr centerline =>
    let N := knot_count tunnel_path num_knots in
    if (N <? 2)%nat then inl BadShape
    else inr (offsets_on centerline N tunnel_width margin
                         alpha beta lambda_length gamma_center)
  end.

(** [generate_optimal_reference_path]: the path through
    P = C + d_opt * N_right, with its loops removed *)
Definition generate_optimal_reference_path (tunnel_path : list raw_point)
    (tunnel_width margin : R) (num_knots : option nat)
    (alpha beta lambda_length gamma_center : R) : error + ReferencePath :=
  match init splprep tunnel_path 0 3 with
  | inl e => inl (PathError e)
  | inr centerline =>
    let N := knot_count tunnel_path num_knots in
    if (N <? 2)%nat then inl BadShape
    else
      let d_opt := offsets_on centerline N tunnel_width margin
                              alpha beta lambda_length gamma_center in
      let s_knots := linspace 0 (total_length centerline) N in
      let C := call centerline <$> s_knots in
      let T := tangent centerline <$> s_knots in
      let N_right := (fun t : point => (t.2, - t.1)) <$> T in
      let P := zip_with padd C (zip_with (fun d n => pscale n d) d_opt N_right) in
      let P := _remove_loops_from_path P (1 / 10 ^ 6) in
      match init splprep ((fun q : point => (Finite q.1, Finite q.2)) <$> P)
                 0 3 with
      | inl e => inl (PathError e)
      | inr path => inr path
      end
  end.

End Optimizer.

End Corridor.

(** ** model.py: generate_mpcc *)

Module Mpcc.
Import Np RefPath Scipy Dynamics.

(** A corridor bound: a float or a callable of the progress *)
Inductive bound_input : Type :=
  | Static (w : R)
  | Dynamic (f : R -> R).

Definition resolve (b : bound_input) (s : R) : R :=
  match b with
  | Static w => w
  | Dynamic f => f s
  end.

(** weights.get(key, default) *)
Definition get (d : gmap string R) (key : string) (dflt : R) : R :=
  default dflt (d !! key).

Abbreviation state := (R * R * R * R * R * R * R)%type.

Definition SCALE_JERK : R := 1000.

Section Planner.

Variable minimize : solver.

Variable ref_path : ReferencePath.
Variable state_0 : state.
Variable num_steps : nat.
Variable dt : R.
Variable weights : option (gmap string R).
Variable limits : gmap string R.
Variable desired_speed_arg : R.
Variable corridor_bounds : option (bound_input * bound_input).

Definition weights_dict : gmap string R := default ∅ weights.

Definition w_jerk : R := get weights_dict "jerk" (15 / 10 ^ 7).
Definition w_progress : R := get weights_dict "progress" (1 / 10 ^ 5).
Definition w_corridor : R := get weights_dict "wall" 1000.
Definition w_contour : R := get weights_dict "contour" 1.
Definition w_lag : R := get weights_dict "lag" (1 / 10).
Definition desired_speed : R := get weights_dict "desired_speed" desired_speed_arg.
Definition curvature_scale : R := get weights_dict "curvature_scale" 10.

(** SCALE_VS = max(0.1, desired_speed) *)
Definition SCALE_VS : R := Rmax (1 / 10) desired_speed.

Definition acc_max : R := get limits "acc_max" 100.

Definition px0 : R := let '(px, _, _, _, _, _, _) := state_0 in px.
Definition py0 : R := let '(_, py, _, _, _, _, _) := state_0 in py.
Definition vx0 : R := let '(_, _, vx, _, _, _, _) := state_0 in vx.
Definition vy0 : R := let '(_, _, _, vy, _, _, _) := state_0 in vy.
Definition ax0 : R := let '(_, _, _, _, ax, _, _) := state_0 in ax.
Definition ay0 : R := let '(_, _, _, _, _, ay, _) := state_0 in ay.
Definition s0 : R := let '(_, _, _, _, _, _, s) := state_0 in s.

Definition A_acc_mat : matrix := _build_A_acc num_steps dt.
Definition A_vel_mat : matrix := _build_A_vel_from_jerk num_steps dt.
Definition A_pos_mat : matrix := _build_A_pos_from_jerk num_steps dt.

Definition px_free : vector := p_free num_steps dt px0 vx0 ax0.
Definition py_free : vector := p_free num_steps dt py0 vy0 ay0.
Definition vx_free : vector := v_free num_steps dt vx0 ax0.
Definition vy_free : vector := v_free num_steps dt vy0 ay0.
Definition ax_free : vector := a_free num_steps ax0.
Definition ay_free : vector := a_free num_steps ay0.

(** x[idx_jx], x[idx_jy], x[idx_vs] *)
Definition idx_jx (x : vector) : vector := take num_steps x.
Definition idx_jy (x : vector) : vector := take num_steps (drop num_steps x).
Definition idx_vs (x : vector) : vector :=
  take num_steps (drop (2 * num_steps) x).

Definition unpack_x (x : vector) : vector * vector * vector :=
  (smul SCALE_JERK (idx_jx x), smul SCALE_JERK (idx_jy x),
   smul SCALE_VS (idx_vs x)).

(** The body of the tracking loop at one horizon step *)
Definition tracking_term (pos_k ref_k : point) (s_k : R) : R :=
  let pos_error := psub pos_k ref_k in
  let tg := tangent ref_path s_k in
  let cos_phi := tg.1 in
  let sin_phi := tg.2 in
  let e_contour := sin_phi * pos_error.1 + - cos_phi * pos_error.2 in
  let e_lag := - cos_phi * pos_error.1 + - sin_phi * pos_error.2 in
  let cost := w_contour * e_contour ^ 2 + w_lag * e_lag ^ 2 in
  match corridor_bounds with
  | None => cost
  | Some (b_left_in, b_right_in) =>
      let w_left := resolve b_left_in s_k in
      let w_right := resolve b_right_in s_k in
      let violation_left := Rmax 0 (e_contour - w_left) in
      let violation_right := Rmax 0 (- e_contour - w_right) in
      cost + w_corridor * (violation_left ^ 2 + violation_right ^ 2)
  end.

Definition objective (x : vector) : R :=
  let '(jx, jy, vs) := unpack_x x in
  let j_cost :=
    sum (zip_with (fun a b => a ^ 2 + b ^ 2) jx jy) * w_jerk in
  let s_traj := Dynamics.s_traj num_steps dt s0 vs in
  let vx := vadd vx_free (matvec A_vel_mat jx) in
  let vy := vadd vy_free (matvec A_vel_mat jy) in
  let physical_speed := zip_with (fun a b => sqrt (a ^ 2 + b ^ 2)) vx vy in
  let curv := (fun s => Rabs (curvature ref_path s)) <$> s_traj in
  let dynamic_desired_speed :=
    (fun c => desired_speed / (1 + curvature_scale * c)) <$> curv in
  let prog_cost :=
    sum (zip_with (fun a b => (a - b) ^ 2) physical_speed dynamic_desired_speed)
    * w_progress in
  let px := vadd px_free (matvec A_pos_mat jx) in
  let py := vadd py_free (matvec A_pos_mat jy) in
  let ref_pts := (fun s => call ref_path s) <$> s_traj in
  let tracking_cost :=
    foldl (fun acc t => acc + t) 0
      (zip_with (fun pr s_k => tracking_term pr.1 pr.2 s_k)
                (zip (zip px py) ref_pts) s_traj) in
  j_cost + prog_cost + tracking_cost.

(** The four acceleration constraint functions; the list [constraints]
    they are collected in is never handed to [minimize] *)
Definition constraint_acc_x_max (x : vector) : vector :=
  (fun a => acc_max - a) <$> vadd ax_free (matvec A_acc_mat (idx_jx x)).
Definition constraint_acc_x_min (x : vector) : vector :=
  (fun a => a + acc_max) <$> vadd ax_free (matvec A_acc_mat (idx_jx x)).
Definition constraint_acc_y_max (x : vector) : vector :=
  (fun a => acc_max - a) <$> vadd ay_free (matvec A_acc_mat (idx_jy x)).
Definition constraint_acc_y_min (x : vector) : vector :=
  (fun a => a + acc_max) <$> vadd ay_free (matvec A_acc_mat (idx_jy x)).

Definition constraints : list (vector -> vector) :=
  [constraint_acc_x_max; constraint_acc_x_min;
   constraint_acc_y_max; constraint_acc_y_min].

(** bounds: none for the jerks, (0.0, None) for the virtual speeds *)
Definition bounds : list bound :=
  replicate num_steps (None, None) ++ replicate num_steps (None, None)
  ++ replicate num_steps (Some 0, None).

(** x0_guess = zeros, with x0_guess[idx_vs] = desired_speed / SCALE_VS *)
Definition x0_guess : vector :=
  zeros num_steps ++ zeros num_steps
  ++ full num_steps (desired_speed / SCALE_VS).

Record opt_info : Type := {
  success : bool;
  cost : R;
  nit : nat
}.

(** [generate_mpcc]: controls are the rows (jx, jy, vs).  The call of
    [minimize] passes the objective, the start and [bounds]; the local
    [constraints] is built and not used. *)
Definition generate_mpcc : list (R * R * R) * opt_info :=
  let constraints := constraints in
  let result := minimize objective x0_guess None bounds in
  let '(jx_opt, jy_opt, vs_opt) := unpack_x (res_x result) in
  let controls := zip (zip jx_opt jy_opt) vs_opt in
  (controls,
   {| success := res_success result; cost := res_fun result;
      nit := res_nit result |}).

(** The acceleration profile reconstructed from controls:
    a_free + A_acc @ j *)
Definition reconstructed_ax (controls : list (R * R * R)) : vector :=
  vadd ax_free (matvec A_acc_mat ((fun c : R * R * R => c.1.1) <$> controls)).
Definition reconstructed_ay (controls : list (R * R * R)) : vector :=
  vadd ay_free (matvec A_acc_mat ((fun c : R * R * R => c.1.2) <$> controls)).

End Planner.

End Mpcc.

(** ** noise.py: single_step_motor_and_device_noise *)

Module Noise.
Import Np RefPath.

(** The two helper modules of [point_and_click_modules] are not part of
    the sources; the functions the noise model calls are taken as
    parameters, each a function of its arguments. *)
Record MouseModule : Type := {
  gain_func_can : R -> R;
  get_hand_orientation : point -> R -> R;
  rot_mat : R -> R -> R -> R * R;
  get_cursor_displacement : point -> point -> R -> R -> R * R
}.

Record UpperLimbModule : Type := {
  mouse_noise :
    vector -> vector -> R -> R -> R -> vector -> R
    -> vector * vector * R * R
}.

(** The global NumPy generator: the seed it was seeded with and the number
    of normal samples drawn since *)
Record rng : Type := {
  seed : Z;
  position : nat
}.

(** np.random.seed(s) *)
Definition np_random_seed (s : Z) : rng := {| seed := s; position := 0 |}.

(** np.finfo(float).tiny = 2 ** -1022 *)
Definition tiny : R := / 2 ^ 1022.

(** np.isfinite on a computed value: every real is finite *)
Definition np_isfinite (x : R) : bool := true.

Record step_result : Type := {
  c_pos_dx : R;
  c_pos_dy : R;
  c_vel_x_out : R;
  c_vel_y_out : R;
  h_pos_x_out : R;
  h_pos_y_out : R;
  h_pos_delta_x : R;
  h_pos_delta_y : R
}.

Section NoiseModel.

Variable mouse : MouseModule.
Variable limb : UpperLimbModule.

(** The sample the generator seeded with [s] returns at its [n]-th draw of
    np.random.normal(0, 1) *)
Variable standard_normal : Z -> nat -> R.

(** np.random.normal(0, 1): the sample and the advanced generator *)
Definition np_random_normal (g : rng) : R * rng :=
  (standard_normal (seed g) (position g),
   {| seed := seed g; position := S (position g) |}).

(** mouse_gain_val after the edge-case guard *)
Definition guarded_gain (speed : R) : R :=
  let mouse_gain_val := gain_func_can mouse speed in
  if negb (np_isfinite mouse_gain_val) || Rltb mouse_gain_val tiny
  then tiny else mouse_gain_val.

(** v = [vx_dev[1], vy_dev[1]], the device-frame velocity *)
Definition device_velocity (c_vel_x c_vel_y : R) : point :=
  let vx := [c_vel_x; c_vel_x] in
  let vy := [c_vel_y; c_vel_y] in
  let speed := sqrt (c_vel_x ^ 2 + c_vel_y ^ 2) in
  let inv_gain := 1 / guarded_gain speed in
  let vx_dev := (fun x => x * inv_gain) <$> vx in
  let vy_dev := (fun x => x * inv_gain) <$> vy in
  (nth 1 vx_dev 0, nth 1 vy_dev 0).

(** vel_dir: the zero vector for zero speed, else v / v_norm *)
Definition velocity_direction (v : point) : point :=
  let v_norm := norm v in
  if Reqb v_norm 0 then (0, 0) else pdiv v v_norm.

(** [single_step_motor_and_device_noise]; [nc] is the pair
    (nc[0], nc[1]); the generator is threaded through the two draws *)
Definition single_step_motor_and_device_noise (g : rng)
    (c_vel_x c_vel_y h_pos_x h_pos_y : R) (nc : R * R)
    (interval forearm : R) : step_result * rng :=
  let vx := [c_vel_x; c_vel_x] in
  let vy := [c_vel_y; c_vel_y] in
  let speed := sqrt (c_vel_x ^ 2 + c_vel_y ^ 2) in
  let mouse_gain_val := guarded_gain speed in
  let inv_gain := 1 / mouse_gain_val in
  let vx_dev := (fun x => x * inv_gain) <$> vx in
  let vy_dev := (fun x => x * inv_gain) <$> vy in
  let mouse_gain_arr := [mouse_gain_val; mouse_gain_val] in
  let '(_, _, h_pos_x_ideal, h_pos_y_ideal) :=
    mouse_noise limb vx_dev vy_dev h_pos_x h_pos_y forearm mouse_gain_arr
                interval in
  let v := device_velocity c_vel_x c_vel_y in
  let v_norm := norm v in
  let vel_dir := velocity_direction v in
  let vel_per := (- vel_dir.2, vel_dir.1) in
  let vel_mag := Rabs v_norm in
  let '(z1, g1) := np_random_normal g in
  let noise_dir := nc.1 * vel_mag * z1 in
  let '(z2, g2) := np_random_normal g1 in
  let noise_per := nc.2 * vel_mag * z2 in
  let vel_noisy_dev :=
    padd (padd v (pscale vel_dir noise_dir)) (pscale vel_per noise_per) in
  let vx_noisy := vel_noisy_dev.1 * mouse_gain_val in
  let vy_noisy := vel_noisy_dev.2 * mouse_gain_val in
  let dx := (c_vel_x + vx_noisy) / 2 * interval in
  let dy := (c_vel_y + vy_noisy) / 2 * interval in
  let hand_ori_prev := get_hand_orientation mouse (h_pos_x, h_pos_y) forearm in
  let '(dx, dy, hx_out, hy_out) :=
    if Rltb (1 / 10 ^ 10) (Rabs dx) || Rltb (1 / 10 ^ 10) (Rabs dy) then
      let hand_pos_prev := (h_pos_x, h_pos_y) in
      let '(hand_dx, hand_dy) := rot_mat mouse dx dy (- hand_ori_prev) in
      let hx_out := h_pos_x + hand_dx in
      let hy_out := h_pos_y + hand_dy in
      let '(mouse_dx, mouse_dy) :=
        get_cursor_displacement mouse hand_pos_prev (hx_out, hy_out) forearm
                                mouse_gain_val in
      (mouse_dx, mouse_dy, hx_out, hy_out)
    else (dx, dy, h_pos_x, h_pos_y) in
  let guard0 := fun x : R => if negb (np_isfinite x) then 0 else x in
  let hx_out := if negb (np_isfinite hx_out) then h_pos_x_ideal else hx_out in
  let hy_out := if negb (np_isfinite hy_out) then h_pos_y_ideal else hy_out in
  ({| c_pos_dx := guard0 dx; c_pos_dy := guard0 dy;
      c_vel_x_out := guard0 vx_noisy; c_vel_y_out := guard0 vy_noisy;
      h_pos_x_out := hx_out; h_pos_y_out := hy_out;
      h_pos_delta_x := hx_out - h_pos_x; h_pos_delta_y := hy_out - h_pos_y |},
   g2).



End NoiseModel.

End Noise.

(** ** A concrete fitter, concrete helpers and concrete inputs *)

Module Samples.
Import Np RefPath Mpcc Noise.

(** The parameter values splprep assigns: cumulative chord length over
    total chord length *)
Definition params (pts : list point) : list R :=
  let cum := 0 :: cumsum (norm <$> diff_points pts) in
  let total := nth (length cum - 1) cum 0 in
  (fun c => c / total) <$> cum.

(** The segment of the polyline that holds parameter [u] *)
Definition segment (us : list R) (u : R) : nat :=
  Nat.min (last_le u us) (length us - 2).

(** The interpolating spline of degree 1 through [pts], which is what
    [splprep(pts, s=0, k=1)] fits: the polyline through the points,
    parameterised by normalised chord length.  Evaluation is by linear
    interpolation, for parameters in [0, 1]. *)
Definition polyline (pts : list point) : Spline :=
  let us := params pts in
  let xs := fst <$> pts in
  let ys := snd <$> pts in
  {| sp_c := fun u => (interp u us xs, interp u us ys);
     sp_c1 := fun u =>
       let j := segment us u in
       let du := nth (j + 1) us 0 - nth j us 0 in
       ((nth (j + 1) xs 0 - nth j xs 0) / du,
        (nth (j + 1) ys 0 - nth j ys 0) / du);
     sp_c2 := fun _ => (0, 0) |}.

(** A fitter that fits degree 1 only and raises for every other degree;
    a construction that asks for a higher degree then takes the degree-1
    fallback of [__init__] *)
Definition fit (pts : list point) (s : R) (k : nat)
    : option (Spline * list R) :=
  if (k =? 1)%nat then Some (polyline pts, params pts) else None.

(** The closed unit square, entered and left at the origin *)
Definition square : list raw_point :=
  [(Finite 0, Finite 0); (Finite 1, Finite 0); (Finite 1, Finite 1);
   (Finite 0, Finite 1); (Finite 0, Finite 0)].

(** The corners the validation of [square] returns *)
Definition square_points : list point :=
  [(0, 0); (1, 0); (1, 1); (0, 1); (0, 0)].

(** Two distinct finite waypoints closer than the duplicate tolerance *)
Definition near_pair : list raw_point :=
  [(Finite 0, Finite 0); (Finite (5 / 10 ^ 11), Finite 0)].

(** A planner input whose acceleration leaves the limit: every cost
    weight 0, initial acceleration 200 along x, acceleration limit 100 *)
Definition zero_weights : gmap string R :=
  <["jerk" := 0]> (<["progress" := 0]> (<["contour" := 0]>
    (<["lag" := 0]> (<["wall" := 0]> ∅)))).
Definition fast_state : state := (0, 0, 0, 0, 200, 0, 0).
Definition limit_100 : gmap string R := <["acc_max" := 100]> ∅.

(** Sample helper modules and a sample stream *)
Definition unit_mouse : MouseModule :=
  {| gain_func_can := fun _ => 1;
     get_hand_orientation := fun _ _ => 0;
     rot_mat := fun dx dy _ => (dx, dy);
     get_cursor_displacement := fun a b _ gain =>
       (gain * (b.1 - a.1), gain * (b.2 - a.2)) |}.

Definition still_limb : UpperLimbModule :=
  {| mouse_noise := fun vx vy hx hy _ _ _ => (vx, vy, hx, hy) |}.

Definition alternating_stream (s : Z) (n : nat) : R :=
  if Nat.even n then 1 else -1.

End Samples.

(** ** scipy.interpolate.splev: the derivative order and the degree *)

Module Fitpack.
Import Np RefPath.

Section Degree.

(** The degree k of a fitted tck = (t, c, k) *)
Variable degree_of : Spline -> nat.

(** splev(u, tck, der) raises ValueError("0<=der=%d<=k=%d must hold") for
    a derivative order above the degree of the spline: [None] *)
Definition splev_checked (u : R) (tck : Spline) (der : nat) : option point :=
  if (der <=? degree_of tck)%nat then Some (splev u tck der) else None.

(** splprep(points, s, k) returns a spline of the degree it is asked for *)
Definition fits_degree
    (splprep : list point -> R -> nat -> option (Spline * list R)) : Prop :=
  forall pts s k tck u, splprep pts s k = Some (tck, u) -> degree_of tck = k.

(** [ReferencePath.tangent], with the exception of splev *)
Definition tangent_checked (p : ReferencePath) (theta : R) : option point :=
  let u := _theta_to_u p theta in
  t ← splev_checked u (tck p) 1;
  let nrm := norm t in
  Some (if Rltb nrm tol_tangent then (1, 0) else pdiv t nrm).

(** [ReferencePath.curvature], with the exceptions of splev *)
Definition curvature_checked (p : ReferencePath) (theta : R) : option R :=
  let u := _theta_to_u p theta in
  dxy ← splev_checked u (tck p) 1;
  ddxy ← splev_checked u (tck p) 2;
  let '(dx, dy) := dxy in
  let '(ddx, ddy) := ddxy in
  let num := dx * ddy - dy * ddx in
  let den := (dx ^ 2 + dy ^ 2) * sqrt (dx ^ 2 + dy ^ 2) in
  Some (if Rltb den tol_den then 0 else num / den).

(** The Newton loop of [find_closest_theta], with the exceptions of the
    three splev calls that open every pass *)
Fixpoint newton_checked (tck : Spline) (px py min_u : R) (iters : nat)
    (u0 : R) : option R :=
  match iters with
  | O => Some u0
  | S iters' =>
    c ← splev_checked u0 tck 0;
    c1 ← splev_checked u0 tck 1;
    c2 ← splev_checked u0 tck 2;
    let rx := c.1 - px in
    let ry := c.2 - py in
    let '(c1x, c1y) := c1 in
    let '(c2x, c2y) := c2 in
    let f_prime := 2 * (rx * c1x + ry * c1y) in
    let f_second := 2 * ((c1x * c1x + c1y * c1y) + (rx * c2x + ry * c2y)) in
    if Rltb (Rabs f_second) tol_den then Some u0
    else
      let du := - f_prime / f_second in
      if Rltb (Rabs du) newton_tol then Some u0
      else
        let u_new := clip (u0 + du) min_u 1 in
        if Rltb (Rabs (u_new - u0)) newton_tol then Some u_new
        else newton_checked tck px py min_u iters' u_new
  end.

(** [ReferencePath.find_closest_theta], with the exceptions of splev; the
    coarse scan evaluates the curve itself (order 0), which every degree
    accepts *)
Definition find_closest_theta_checked (p : ReferencePath) (pos : point)
    (initial_guess min_theta : option R) : option R :=
  let '(px, py) := pos in
  let u0 :=
    match initial_guess with
    | Some g =>
        let theta0 := clip g 0 (total_length p) in
        interp theta0 (arclengths p) (u_dense p)
    | None =>
        let xy := (fun u => splev u (tck p) 0) <$> u_dense p in
        let dist2 := (fun q : point =>
                        (q.1 - px) * (q.1 - px) + (q.2 - py) * (q.2 - py))
                     <$> xy in
        let idx := argmin dist2 in
        nth idx (u_dense p) 0
    end in
  let min_u :=
    match min_theta with
    | Some m => interp m (arclengths p) (u_dense p)
    | None => 0
    end in
  let u0 :=
    match min_theta with
    | Some _ => Rmax u0 min_u
    | None => u0
    end in
  u0 ← newton_checked (tck p) px py min_u newton_max_iter u0;
  Some (interp u0 (u_dense p) (arclengths p)).

End Degree.

End Fitpack.

(** ** model.py: model *)

Module Model.
Import Np RefPath Scipy Dynamics Corridor Mpcc Fitpack.

(** The fields of [SteeringModelInput] (and of the structures nested in
    it) that [model] reads *)
Record SteeringModelInput : Type := {
  state_cog : R * R * R * R;
  pred_horizon : nat;                           (* bump.pred_horizon *)
  interval : R;                                 (* env.interval *)
  tunnel_path : list raw_point;                 (* tunnel.tunnel_path *)
  tunnel_width : option R;                      (* tunnel.tunnel_width *)
  planner_weights : option (gmap string R);
  reference_path : option ReferencePath;
  current_acc : option (R * R);
  corridor_bounds : option (bound_input * bound_input)
}.

Inductive error : Type :=
  | PathError (e : RefPath.error)  (* ReferencePath(tunnel_path) raised *)
  | DerivativeOrder.               (* ValueError of splev: der above degree *)

(** cursor_info = c_pos_dx, c_pos_dy, c_vel_x, c_vel_y *)
Record cursor_info : Type := {
  c_pos_dx : vector;
  c_pos_dy : vector;
  c_vel_x : vector;
  c_vel_y : vector
}.

Record plan_debug : Type := {
  ideal_segment : vector * vector;
  target_waypoint : point;
  theta : R;
  opt_info : Mpcc.opt_info
}.

Section Steering.

Variable degree_of : Spline -> nat.
Variable splprep : list point -> R -> nat -> option (Spline * list R).
Variable minimize : solver.

(** [model].  The projection of the cursor onto the path comes first and
    raises on a path of degree below 2; past it the curvature calls of the
    planner's objective are defined. *)
Definition model (model_input : SteeringModelInput)
    : error + (cursor_info * plan_debug) :=
  let pred_horizon := pred_horizon model_input in
  let interval := interval model_input in
  let '(cursor_pos_x, cursor_pos_y, cursor_vel_x, cursor_vel_y) :=
    state_cog model_input in
  let constructed :=
    match reference_path model_input with
    | Some ref_path => inr ref_path
    | None => init splprep (tunnel_path model_input) 0 3
    end in
  match constructed with
  | inl e => inl (PathError e)
  | inr ref_path =>
    match find_closest_theta_checked degree_of ref_path
            (cursor_pos_x, cursor_pos_y) None None with
    | None => inl DerivativeOrder
    | Some theta_0 =>
      let '(ax0, ay0) := default (0, 0) (current_acc model_input) in
      let state_0 : state :=
        (cursor_pos_x, cursor_pos_y, cursor_vel_x, cursor_vel_y,
         ax0, ay0, theta_0) in
      let limits : gmap string R := <["acc_max" := 100]> ∅ in
      let corridor_bounds :=
        match corridor_bounds model_input with
        | Some b => Some b
        | None =>
          match tunnel_width model_input with
          | Some tunnel_width =>
              let half_width := tunnel_width / 2 in
              let bound_value := half_width * (8 / 10) in
              Some (Static bound_value, Static bound_value)
          | None => None
          end
        end in
      (* an empty dict is falsy, and holds no key either *)
      let desired_speed :=
        default (12 / 100)
                (planner_weights model_input ≫= fun w => w !! "desired_speed") in
      let '(controls, info) :=
        generate_mpcc minimize ref_path state_0 pred_horizon interval
                      (planner_weights model_input) limits desired_speed
                      corridor_bounds in
      let jx := (fun c : R * R * R => c.1.1) <$> controls in
      let jy := (fun c : R * R * R => c.1.2) <$> controls in
      let A_vel := _build_A_vel_from_jerk pred_horizon interval in
      let A_pos := _build_A_pos_from_jerk pred_horizon interval in
      let t_vec := arange_scaled 1 (pred_horizon + 1) interval in
      let vx_free := (fun t => cursor_vel_x + ax0 * t) <$> t_vec in
      let vy_free := (fun t => cursor_vel_y + ay0 * t) <$> t_vec in
      let px_free :=
        (fun t => cursor_pos_x + cursor_vel_x * t + (1 / 2) * ax0 * t ^ 2)
        <$> t_vec in
      let py_free :=
        (fun t => cursor_pos_y + cursor_vel_y * t + (1 / 2) * ay0 * t ^ 2)
        <$> t_vec in
      let pos_x := vadd px_free (matvec A_pos jx) in
      let pos_y := vadd py_free (matvec A_pos jy) in
      let vel_x := vadd vx_free (matvec A_vel jx) in
      let vel_y := vadd vy_free (matvec A_vel jy) in
      let c_vel_x := cursor_vel_x :: vel_x in
      let c_vel_y := cursor_vel_y :: vel_y in
      let all_pos_x := cursor_pos_x :: pos_x in
      let all_pos_y := cursor_pos_y :: pos_y in
      let c_pos_dx := diff_vec all_pos_x in
      let c_pos_dy := diff_vec all_pos_y in
      let ref_target := call ref_path theta_0 in
      inr ({| c_pos_dx := c_pos_dx; c_pos_dy := c_pos_dy;
              c_vel_x := c_vel_x; c_vel_y := c_vel_y |},
           {| ideal_segment := (pos_x, pos_y);
              target_waypoint := ref_target;
              theta := theta_0;
              opt_info := info |})
    end
  end.

End Steering.

End Model.

(** ** constraints.py and constraint_utils.py *)

Module Constraints.
Import Np RefPath.

Inductive ConstraintType : Type :=
  | KEEP_OUT
  | KEEP_IN.

(** The four geometries of constraints.py *)
Inductive Geometry : Type :=
  | PathConstraint (path : list point) (width : option R)
  | PolygonConstraint (vertices : list point)
  | CircleConstraint (center : point) (radius : R)
  | RectangleConstraint (x y width height : R).

Record ConstraintRegion : Type := {
  constraint_type : ConstraintType;
  geometry : Geometry;
  margin : option R                (* Optional[float] = None *)
}.

(** [regions], and the attribute [default_margin] that
    [parse_constraints_from_json] attaches ([None]: a configuration built
    without it) *)
Record ConstraintConfig : Type := {
  regions : list ConstraintRegion;
  default_margin : option R
}.

(** The constraint dictionary of a task file, for values of the documented
    shapes; [None] is an absent key *)
Inductive geometry_json : Type :=
  | JCircle (center : point) (radius : R)
  | JRectangle (x y width height : R)
  | JPolygon (vertices : list point)
  | JLine (path : option (list point)) (start_ end_ : option point)
          (width : option R)                  (* "line" or "path" *)
  | JOther.                                   (* another "type", or none *)

Record region_json : Type := {
  enabled : option bool;
  constraint_type_str : option string;
  geometry_dict : geometry_json;
  margin_json : option R
}.

Record constraints_json : Type := {
  left_boundary : option (list point);
  right_boundary : option (list point);
  regions_json : option (list region_json);
  default_margin_json : option R
}.

(** The region of one boundary polyline *)
Definition boundary_region (boundary : list point) : list ConstraintRegion :=
  match boundary with
  | [] => []
  | _ => [{| constraint_type := KEEP_IN;
             geometry := PathConstraint boundary None;
             margin := None |}]
  end.

(** One pass of the loop over "regions" *)
Definition parse_region (region_dict : region_json) : list ConstraintRegion :=
  if negb (default true (enabled region_dict)) then []
  else
    let constraint_type_str :=
      default "keep_out"%string (constraint_type_str region_dict) in
    let constraint_type :=
      if decide (constraint_type_str = "keep_out"%string)
      then KEEP_OUT else KEEP_IN in
    let geometry :=
      match geometry_dict region_dict with
      | JCircle center radius => Some (CircleConstraint center radius)
      | JRectangle x y width height =>
          Some (RectangleConstraint x y width height)
      | JPolygon vertices => Some (PolygonConstraint vertices)
      | JLine path start_ end_ width =>
          let path_points := default [] path in
          let path_points :=
            match path_points, start_, end_ with
            | [], Some a, Some b => [a; b]
            | _, _, _ => path_points
            end in
          Some (PathConstraint path_points width)
      | JOther => None
      end in
    match geometry with
    | Some geometry =>
        [{| constraint_type := constraint_type; geometry := geometry;
            margin := margin_json region_dict |}]
    | None => []
    end.

(** [parse_constraints_from_json]; an empty dictionary has no regions and
    returns [None] as well *)
Definition parse_constraints_from_json (constraints_dict : constraints_json)
    : option ConstraintConfig :=
  let regions :=
    match left_boundary constraints_dict, right_boundary constraints_dict with
    | Some left_boundary, Some right_boundary =>
        boundary_region left_boundary ++ boundary_region right_boundary
    | _, _ => []
    end in
  let regions :=
    regions ++ match regions_json constraints_dict with
               | Some rs => rs ≫= parse_region
               | None => []
               end in
  match regions with
  | [] => None
  | _ => Some {| regions := regions;
                 default_margin :=
                   Some (default 0 (default_margin_json constraints_dict)) |}
  end.

Inductive error : Type :=
  | TypeError       (* float - None: a region without a margin *)
  | IntOfNonFinite  (* int() of inf or nan: division by a zero length *)
  | IndexError.

(** x - region_margin *)
Definition minus_margin (x : R) (region_margin : option R) : error + R :=
  match region_margin with
  | Some m => inr (x - m)
  | None => inl TypeError
  end.

(** min(bound, max(0.0, safe_dist)) on the left, on the right, on both *)
Definition tighten_left (lr : R * R) (d : R) : R * R :=
  (Rmin lr.1 (Rmax 0 d), lr.2).
Definition tighten_right (lr : R * R) (d : R) : R * R :=
  (lr.1, Rmin lr.2 (Rmax 0 d)).
Definition tighten_both (lr : R * R) (d : R) : R * R :=
  (Rmin lr.1 (Rmax 0 d), Rmin lr.2 (Rmax 0 d)).

(** The body of the loop over the regions, at one sample of the path.
    getattr(region, 'margin', margin) finds the dataclass field also when
    it holds None, so the fallback [margin] is never used. *)
Definition region_bounds (path_point normal : point) (margin : R)
    (lr : R * R) (region : ConstraintRegion) : error + (R * R) :=
  let region_margin := Constraints.margin region in
  match geometry region with
  | CircleConstraint center radius =>
      let vec_to_center := psub center path_point in
      let dist_to_center := norm vec_to_center in
      match constraint_type region with
      | KEEP_OUT =>
          if Rltb dist_to_center radius then
            let dist_to_edge := radius - dist_to_center in
            let proj :=
              vec_to_center.1 * normal.1 + vec_to_center.2 * normal.2 in
            if Rltb proj 0 then
              match minus_margin dist_to_edge region_margin with
              | inl e => inl e
              | inr d => inr (tighten_left lr d)
              end
            else
              match minus_margin dist_to_edge region_margin with
              | inl e => inl e
              | inr d => inr (tighten_right lr d)
              end
          else inr lr
      | KEEP_IN =>
          if Rltb dist_to_center radius then
            let dist_to_edge := radius - dist_to_center in
            match minus_margin dist_to_edge region_margin with
            | inl e => inl e
            | inr safe_dist => inr (tighten_both lr safe_dist)
            end
          else inr lr
      end
  | RectangleConstraint x y width height =>
      let x_min := x in
      let x_max := x + width in
      let y_min := y in
      let y_max := y + height in
      let inside :=
        Rleb x_min path_point.1 && Rleb path_point.1 x_max
        && Rleb y_min path_point.2 && Rleb path_point.2 y_max in
      if inside then
        let dist_left := path_point.1 - x_min in
        let dist_right := x_max - path_point.1 in
        let dist_bottom := path_point.2 - y_min in
        let dist_top := y_max - path_point.2 in
        let min_dist :=
          Rmin (Rmin (Rmin dist_left dist_right) dist_bottom) dist_top in
        match constraint_type region with
        | KEEP_IN =>
            match minus_margin min_dist region_margin with
            | inl e => inl e
            | inr safe_dist => inr (tighten_both lr safe_dist)
            end
        | KEEP_OUT =>
            match minus_margin min_dist region_margin with
            | inl e => inl e
            | inr safe_dist =>
                if Rltb path_point.1 ((x_min + x_max) / 2)
                then inr (tighten_left lr safe_dist)
                else inr (tighten_right lr safe_dist)
            end
        end
      else inr lr
  | PathConstraint _ (Some width) =>
      let half_width := width / 2 in
      match minus_margin half_width region_margin with
      | inl e => inl e
      | inr safe_dist => inr (tighten_both lr safe_dist)
      end
  | _ => inr lr
  end.

(** The bounds at one sample: the loop over the regions, from (1e6, 1e6) *)
Definition sample_bounds (regions : list ConstraintRegion)
    (reference_path : ReferencePath) (margin : R) (s : R) : error + (R * R) :=
  let path_point := call reference_path s in
  let normal := normal reference_path s in
  foldl (fun acc region =>
           match acc with
           | inl e => inl e
           | inr lr => region_bounds path_point normal margin lr region
           end)
        (inr (10 ^ 6, 10 ^ 6)) regions.

(** The loop over the samples *)
Fixpoint all_bounds (regions : list ConstraintRegion)
    (reference_path : ReferencePath) (margin : R) (s_samples : list R)
    : error + list (R * R) :=
  match s_samples with
  | [] => inr []
  | s :: rest =>
      match sample_bounds regions reference_path margin s with
      | inl e => inl e
      | inr lr =>
          match all_bounds regions reference_path margin rest with
          | inl e => inl e
          | inr lrs => inr (lr :: lrs)
          end
      end
  end.

(** int(x): truncation towards zero *)
Definition py_int (x : R) : Z :=
  if Rle_dec 0 x then Int_part x else (- Int_part (- x))%Z.

(** num_samples = max(50, int(total_length / 0.01)) *)
Definition num_samples (reference_path : ReferencePath) : nat :=
  Nat.max 50 (Z.to_nat (py_int (total_length reference_path / (1 / 100)))).

(** bounds[idx] for an integer index: a negative index counts from the
    end, an index out of range raises IndexError *)
Definition py_index (bounds : vector) (idx : Z) : option R :=
  if (idx <? 0)%Z then
    if (- idx <=? Z.of_nat (length bounds))%Z
    then bounds !! Z.to_nat (Z.of_nat (length bounds) + idx)
    else None
  else bounds !! Z.to_nat idx.

(** [left_bound_func] and [right_bound_func], on the clipped table [bounds]
    of either side.  The quotient s / total_length of two NumPy floats is
    inf or nan for a zero length, and int() raises on it. *)
Definition bound_func (bounds : vector) (reference_path : ReferencePath)
    (num_samples : nat) (s : R) : error + R :=
  if Reqb (total_length reference_path) 0 then inl IntOfNonFinite
  else
    let i := py_int (s / total_length reference_path
                     * IZR (Z.of_nat num_samples - 1)) in
    let idx := Z.min (Z.max i 0) (Z.of_nat num_samples - 1) in
    match py_index bounds idx with
    | Some b => inr b
    | None => inl IndexError
    end.

(** [convert_constraints_to_corridor_bounds]: the two clipped tables and
    the number of samples, from which the two functions it returns read *)
Definition corridor_tables (constraints : ConstraintConfig)
    (reference_path : ReferencePath) (default_margin_arg : R)
    : error + (vector * vector * nat) :=
  let num_samples := num_samples reference_path in
  let s_samples := linspace 0 (total_length reference_path) num_samples in
  let margin := default default_margin_arg (default_margin constraints) in
  match all_bounds (regions constraints) reference_path margin s_samples with
  | inl e => inl e
  | inr lrs =>
      let max_bound := 1 / 10 in
      let left_bounds := (fun lr : R * R => clip lr.1 0 max_bound) <$> lrs in
      let right_bounds := (fun lr : R * R => clip lr.2 0 max_bound) <$> lrs in
      inr (left_bounds, right_bounds, num_samples)
  end.

Definition convert_constraints_to_corridor_bounds
    (constraints : option ConstraintConfig) (reference_path : ReferencePath)
    (default_margin_arg : R)
    : error + option ((R -> error + R) * (R -> error + R)) :=
  match constraints with
  | None => inr None
  | Some constraints =>
      match corridor_tables constraints reference_path default_margin_arg with
      | inl e => inl e
      | inr (left_bounds, right_bounds, num_samples) =>
          inr (Some (bound_func left_bounds reference_path num_samples,
                     bound_func right_bounds reference_path num_samples))
      end
  end.

End Constraints.

(** ** The regions the conversion looks at *)

Module Regions.
Import Np RefPath Constraints.

(** The geometries the conversion passes over: a polygon, and a path
    without a width (what "left_boundary" and "right_boundary" parse to) *)
Definition passed_over (region : ConstraintRegion) : Prop :=
  match geometry region with
  | PolygonConstraint _ => True
  | PathConstraint _ None => True
  | _ => False
  end.

(** The condition under which the conversion subtracts the margin of a
    region at a point of the path: the point lies inside the circle or the
    rectangle; always for a path with a width *)
Definition reached (path_point : point) (region : ConstraintRegion) : bool :=
  match geometry region with
  | CircleConstraint center radius =>
      Rltb (norm (psub center path_point)) radius
  | RectangleConstraint x y width height =>
      Rleb x path_point.1 && Rleb path_point.1 (x + width)
      && Rleb y path_point.2 && Rleb path_point.2 (y + height)
  | PathConstraint _ (Some _) => true
  | _ => false
  end.

End Regions.

(** ** cursor_simulator.py: CursorSimulator *)

Module Simulator.
Import Np RefPath Scipy Mpcc Noise Fitpack Constraints.

(** The attributes [__init__] sets *)
Record CursorSimulator : Type := {
  interval : R;
  forearm : R;
  pred_horizon : nat;
  nc : R * R;
  planner_weights : gmap string R;
  planner_margin : R;
  add_noise : bool
}.

(** config["planner_weights"] *)
Definition config_planner_weights : gmap string R :=
  <["jerk" := 12270221915240491 / 10 ^ 22]>
  (<["progress" := 105984082449737 / 10 ^ 21]>
  (<["wall" := 20036747657311221 / 10 ^ 14]>
  (<["contour" := 208691506348653517 / 10 ^ 16]>
  (<["lag" := 580890071498787 / 10 ^ 16]>
  (<["desired_speed" := 20841771264538897 / 10 ^ 17]> ∅))))).

(** [CursorSimulator.__init__]: the attributes read from the built-in
    configuration, and the global generator after np.random.seed(1000).
    "Th" is the float 0.3: not above 1.0 and not an int, so the horizon
    is 10. *)
Definition init : CursorSimulator * rng :=
  let interval := 5 / 100 in
  let th := 3 / 10 in
  let pred_horizon :=
    if Rltb 1 th then Z.to_nat (py_int (th / interval)) else 10%nat in
  ({| interval := interval;
      forearm := 357 / 1000;
      pred_horizon := pred_horizon;
      nc := (2 / 10, 2 / 100);
      planner_weights := config_planner_weights;
      planner_margin := 5 / 1000;
      add_noise := true |},
   np_random_seed 1000).

Inductive error : Type :=
  | TooFewWaypoints   (* ValueError("At least 2 waypoints are required ...") *)
  | ZeroDivision      (* ZeroDivisionError: a screen dimension of 0 *)
  | PathError (e : Corridor.error)
  | ConstraintError (e : Constraints.error)
  | CurvatureError    (* ValueError of splev: curvature of a centerline
                         of degree below 2 *)
  | ModelError (e : Model.error)
  | EmptyPlan.        (* IndexError: c_pos_dx[0] of an empty plan *)

(** The variables of the simulation loop *)
Record sim_state : Type := {
  cursor_pos : point;
  cursor_vel : point;
  hand_pos : point;
  target_waypoint_idx : nat;
  current_time : R;
  trajectory : list (R * R * R);
  gen : rng
}.

(** What one pass of the loop ends in *)
Inductive outcome : Type :=
  | Continue (st : sim_state)
  | Break (st : sim_state)
  | Raise (e : error).

Definition screen_width_m : R := 46 / 100.

(** tunnel_width = min(0.1, max(0.02, avg_distance * 0.3)) *)
Definition estimate_tunnel_width (waypoints_norm : list point) : R :=
  let distances := norm <$> diff_points waypoints_norm in
  let avg_distance :=
    match distances with
    | [] => 1 / 10
    | _ => Np.sum distances / INR (length distances)
    end in
  Rmin (1 / 10) (Rmax (2 / 100) (avg_distance * (3 / 10))).

(** A bound function as the planner receives it *)
Definition planner_bound (f : R -> Constraints.error + R) : bound_input :=
  Dynamic (fun s => match f s with inr w => w | inl _ => 0 end).

Section Trajectory.

Variable degree_of : Spline -> nat.
Variable splprep : list point -> R -> nat -> option (Spline * list R).
Variable minimize : solver.
Variable mouse : MouseModule.
Variable limb : UpperLimbModule.
Variable standard_normal : Z -> nat -> R.

Variable self : CursorSimulator.

(** The reference path, and the tunnel width where one is estimated.
    [generate_optimal_reference_path] evaluates the curvature of its
    centerline at every knot (at least 40 here), which raises on a
    centerline of degree below 2. *)
Definition make_reference_path (use_optimal_path : bool)
    (waypoints_norm : list point) : error + (ReferencePath * option R) :=
  let tunnel_path :=
    (fun q : point => (Finite q.1, Finite q.2)) <$> waypoints_norm in
  if use_optimal_path && (2 <=? length waypoints_norm)%nat then
    let tunnel_width := estimate_tunnel_width waypoints_norm in
    let low_degree :=
      match RefPath.init splprep tunnel_path 0 3 with
      | inr centerline => (degree_of (tck centerline) <? 2)%nat
      | inl _ => false
      end in
    if low_degree then inl CurvatureError
    else
      match Corridor.generate_optimal_reference_path splprep minimize
              tunnel_path tunnel_width (planner_margin self) None
              5 5 (1 / 100) (1 / 100) with
      | inl e => inl (PathError e)
      | inr reference_path => inr (reference_path, Some tunnel_width)
      end
  else
    match RefPath.init splprep tunnel_path 0 1 with
    | inl e => inl (PathError (Corridor.PathError e))
    | inr reference_path => inr (reference_path, None)
    end.

(** One pass of the loop over [range(max_steps)].  The bound functions
    raise on a path of length zero; the planner calls them on every
    horizon step of every evaluation of its objective, and L-BFGS-B
    evaluates the objective at its start, so with a horizon of at least
    one step the exception leaves [model]. *)
Definition loop_body (waypoints_norm : list point)
    (reference_path : ReferencePath) (tunnel_width : option R)
    (corridor_bounds :
       option ((R -> Constraints.error + R) * (R -> Constraints.error + R)))
    (screen_width screen_height target_radius : R) (return_timestamps : bool)
    (st : sim_state) : outcome :=
  let screen_height_m := screen_height / screen_width * screen_width_m in
  let n := length waypoints_norm in
  let reached :=
    if (target_waypoint_idx st <? n)%nat then
      let target_pos := at_ waypoints_norm (target_waypoint_idx st) in
      let dist_to_target := norm (psub (cursor_pos st) target_pos) in
      Rltb dist_to_target target_radius
    else false in
  let target_waypoint_idx :=
    if reached then S (target_waypoint_idx st) else target_waypoint_idx st in
  let st :=
    {| cursor_pos := cursor_pos st; cursor_vel := cursor_vel st;
       hand_pos := hand_pos st; target_waypoint_idx := target_waypoint_idx;
       current_time := current_time st; trajectory := trajectory st;
       gen := gen st |} in
  if reached && (n <=? target_waypoint_idx)%nat then Break st
  else
    let model_input :=
      {| Model.state_cog :=
           ((cursor_pos st).1, (cursor_pos st).2,
            (cursor_vel st).1, (cursor_vel st).2);
         Model.pred_horizon := pred_horizon self;
         Model.interval := interval self;
         Model.tunnel_path :=
           (fun q : point => (Finite q.1, Finite q.2)) <$> waypoints_norm;
         Model.tunnel_width :=
           Some (match tunnel_width with
                 | Some w => if Reqb w 0 then 1 / 10 else w
                 | None => 1 / 10
                 end);
         Model.planner_weights := Some (planner_weights self);
         Model.reference_path := Some reference_path;
         Model.current_acc := Some (0, 0);
         Model.corridor_bounds :=
           match corridor_bounds with
           | Some (l, r) => Some (planner_bound l, planner_bound r)
           | None => None
           end |} in
    match Model.model degree_of splprep minimize model_input with
    | inl e => Raise (ModelError e)
    | inr (cursor_info, plan_debug) =>
      let raised :=
        match corridor_bounds with
        | Some _ =>
            if Reqb (total_length reference_path) 0
               && (1 <=? pred_horizon self)%nat
            then Some IntOfNonFinite else None
        | None => None
        end in
      match raised with
      | Some e => Raise (ConstraintError e)
      | None =>
        let c_vel_x := Model.c_vel_x cursor_info in
        let c_vel_y := Model.c_vel_y cursor_info in
        let planned_vel_idx := Nat.min 1 (length c_vel_x - 1) in
        let stepped :=
          if add_noise self then
            let '(r, g) :=
              single_step_motor_and_device_noise mouse limb standard_normal
                (gen st) (nth planned_vel_idx c_vel_x 0)
                (nth planned_vel_idx c_vel_y 0)
                (hand_pos st).1 (hand_pos st).2 (nc self) (interval self)
                (forearm self) in
            Some (Noise.c_pos_dx r, Noise.c_pos_dy r,
                  c_vel_x_out r, c_vel_y_out r,
                  (h_pos_x_out r, h_pos_y_out r), g)
          else
            match Model.c_pos_dx cursor_info, Model.c_pos_dy cursor_info with
            | dx :: _, dy :: _ =>
                Some (dx, dy, nth planned_vel_idx c_vel_x 0,
                      nth planned_vel_idx c_vel_y 0, hand_pos st, gen st)
            | _, _ => None
            end in
        match stepped with
        | None => Raise EmptyPlan
        | Some (c_pos_dx_step, c_pos_dy_step, c_vel_x_step, c_vel_y_step,
                hand, g) =>
          let cursor_pos :=
            ((cursor_pos st).1 + c_pos_dx_step,
             (cursor_pos st).2 + c_pos_dy_step) in
          let screen_x := cursor_pos.1 / screen_width_m * screen_width in
          let screen_y := cursor_pos.2 / screen_height_m * screen_height in
          let entry :=
            if return_timestamps then (screen_x, screen_y, current_time st)
            else (screen_x, screen_y, interval self) in
          Continue
            {| cursor_pos := cursor_pos;
               cursor_vel := (c_vel_x_step, c_vel_y_step);
               hand_pos := hand;
               target_waypoint_idx := target_waypoint_idx;
               current_time := current_time st + interval self;
               trajectory := trajectory st ++ [entry];
               gen := g |}
        end
      end
    end.

(** for step in range(max_steps) *)
Fixpoint run_loop (waypoints_norm : list point)
    (reference_path : ReferencePath) (tunnel_width : option R)
    (corridor_bounds :
       option ((R -> Constraints.error + R) * (R -> Constraints.error + R)))
    (screen_width screen_height target_radius : R) (return_timestamps : bool)
    (max_steps : nat) (st : sim_state) : error + sim_state :=
  match max_steps with
  | O => inr st
  | S steps =>
      match loop_body waypoints_norm reference_path tunnel_width
              corridor_bounds screen_width screen_height target_radius
              return_timestamps st with
      | Raise e => inl e
      | Break st' => inr st'
      | Continue st' =>
          run_loop waypoints_norm reference_path tunnel_width corridor_bounds
                   screen_width screen_height target_radius return_timestamps
                   steps st'
      end
  end.

(** [generate_trajectory_with_waypoints] for waypoints and constraints
    passed as arguments ([task_file] is None and the constraints are a
    dictionary); [g] is the global generator at the call.  Returns the
    trajectory and the generator as the call leaves it. *)
Definition generate_trajectory_with_waypoints (g : rng)
    (waypoints : option (list point)) (constraints : option constraints_json)
    (screen_width screen_height : R) (max_steps : nat) (target_radius : R)
    (use_optimal_path return_timestamps : bool)
    : error + (list (R * R * R) * rng) :=
  match waypoints with
  | None => inl TooFewWaypoints
  | Some waypoints =>
    if (length waypoints <? 2)%nat then inl TooFewWaypoints
    else if Reqb screen_width 0 then inl ZeroDivision
    else
      let screen_height_m := screen_height / screen_width * screen_width_m in
      if Reqb screen_height 0 then inl ZeroDivision
      else
        let waypoints_norm :=
          (fun q : point => (q.1 / screen_width * screen_width_m,
                             q.2 / screen_height * screen_height_m))
          <$> waypoints in
        let constraint_config :=
          constraints ≫= parse_constraints_from_json in
        match make_reference_path use_optimal_path waypoints_norm with
        | inl e => inl e
        | inr (reference_path, tunnel_width) =>
          match convert_constraints_to_corridor_bounds constraint_config
                  reference_path (planner_margin self) with
          | inl e => inl (ConstraintError e)
          | inr corridor_bounds =>
            let st :=
              {| cursor_pos := at_ waypoints_norm 0;
                 cursor_vel := (0, 0);
                 hand_pos := (0, 0);
                 target_waypoint_idx := 1;
                 current_time := 0;
                 trajectory := [];
                 gen := g |} in
            match run_loop waypoints_norm reference_path tunnel_width
                    corridor_bounds screen_width screen_height target_radius
                    return_timestamps max_steps st with
            | inl e => inl e
            | inr st' => inr (trajectory st', gen st')
            end
          end
        end
  end.

End Trajectory.

End Simulator.

(** ** reference_path.py: the offset problem of
    generate_optimal_reference_path *)

Module OffsetProblem.
Import Np RefPath Scipy Corridor.

(** H = alpha * (D1.T @ D1) + beta * (D2.T @ D2) + gamma_center * np.eye(N) *)
Definition smoothing_matrix (N : nat) (alpha beta gamma_center : R) : matrix :=
  madd (madd (mscale_l alpha (matmul N (mtranspose N (D1 N)) (D1 N)))
             (mscale_l beta (matmul N (mtranspose N (D2 N)) (D2 N))))
       (mscale_l gamma_center (eye N)).

(** The nested function [objective] of [generate_optimal_reference_path]:
    0.5 * d @ H @ d + f @ d *)
Definition objective (N : nat) (H : matrix) (f : vector) (d : vector) : R :=
  (1 / 2) * dot (matvec (mtranspose N H) d) d + dot f d.

End OffsetProblem.

(** ** reference_path.py: the points of the optimised path *)

Module Waypoints.
Import Np RefPath Scipy Corridor.

Section Points.

Variable minimize : solver.

(** The point list of [generate_optimal_reference_path] on a constructed
    centerline with N knots: P = C + d_opt * N_right after loop removal,
    the waypoints of the path it returns *)
Definition optimal_points (centerline : ReferencePath) (N : nat)
    (tunnel_width margin alpha beta lambda_length gamma_center : R)
    : list point :=
  let d_opt := offsets_on minimize centerline N tunnel_width margin
                          alpha beta lambda_length gamma_center in
  let s_knots := linspace 0 (total_length centerline) N in
  let C := call centerline <$> s_knots in
  let T := tangent centerline <$> s_knots in
  let N_right := (fun t : point => (t.2, - t.1)) <$> T in
  let P := zip_with padd C (zip_with (fun d n => pscale n d) d_opt N_right) in
  _remove_loops_from_path P (1 / 10 ^ 6).

End Points.

End Waypoints.

(** ** Index lists *)

Module Indices.

(** The indices of [l] lie in [lo, hi) and increase strictly: the shape of
    an index list that selects a subsequence *)
Fixpoint ascending (lo : nat) (l : list nat) (hi : nat) : Prop :=
  match l with
  | [] => True
  | i :: l' => (lo <= i < hi)%nat /\ ascending (S i) l' hi
  end.

End Indices.

(** ** Further sample fitters and inputs *)

Module Scenarios.
Import Np RefPath Fitpack Samples.

(** The degree of the splines of [Samples.fit] *)
Definition degree_one (tck : Spline) : nat := 1.

(** A fitter of degree 3: it returns the polyline through the points as a
    spline of degree 3 (a cubic B-spline with triple interior knots
    represents a polyline exactly), on which splev accepts the derivative
    orders up to 3; other degrees raise *)
Definition fit_degree_three (pts : list point) (s : R) (k : nat)
    : option (Spline * list R) :=
  if (k =? 3)%nat then Some (polyline pts, params pts) else None.

Definition degree_three (tck : Spline) : nat := 3.

(** A steering input at rest at the first corner of the square, with no
    path of its own: [model] builds one from the tunnel path *)
Definition steering_input : Model.SteeringModelInput :=
  {| Model.state_cog := (0, 0, 0, 0);
     Model.pred_horizon := 2;
     Model.interval := 1 / 20;
     Model.tunnel_path := square;
     Model.tunnel_width := Some (1 / 10);
     Model.planner_weights := None;
     Model.reference_path := None;
     Model.current_acc := None;
     Model.corridor_bounds := None |}.

(** A configuration with one obstacle: a disc of radius 1 cm at the
    origin, with a margin of 1 mm *)
Definition disc_config : Constraints.ConstraintConfig :=
  {| Constraints.regions :=
       [{| Constraints.constraint_type := Constraints.KEEP_OUT;
           Constraints.geometry := Constraints.CircleConstraint (0, 0) (1 / 100);
           Constraints.margin := Some (1 / 1000) |}];
     Constraints.default_margin := None |}.

(** A dictionary with the two boundary polylines only *)
Definition boundary_dict : Constraints.constraints_json :=
  {| Constraints.left_boundary := Some [(0, 1); (1, 1)];
     Constraints.right_boundary := Some [(0, -1); (1, -1)];
     Constraints.regions_json := None;
     Constraints.default_margin_json := None |}.

(** A dictionary with one region, a line with a width and no "margin" *)
Definition line_region_dict : Constraints.region_json :=
  {| Constraints.enabled := None;
     Constraints.constraint_type_str := Some "keep_in"%string;
     Constraints.geometry_dict :=
       Constraints.JLine (Some [(0, 0); (1, 0)]) None None (Some (1 / 20));
     Constraints.margin_json := None |}.

Definition line_dict : Constraints.constraints_json :=
  {| Constraints.left_boundary := None;
     Constraints.right_boundary := None;
     Constraints.regions_json := Some [line_region_dict];
     Constraints.default_margin_json := None |}.

(** A corridor of width 5 cm along the first side of the square, with a
    margin of 1 mm *)
Definition strip_region : Constraints.ConstraintRegion :=
  {| Constraints.constraint_type := Constraints.KEEP_IN;
     Constraints.geometry :=
       Constraints.PathConstraint [(0, 0); (1, 0)] (Some (1 / 20));
     Constraints.margin := Some (1 / 1000) |}.

End Scenarios.

(** ** scipy.interpolate.splprep on four points *)

Module Cubic.
Import Np RefPath Samples.

(** Divided differences of the values [f] at the nodes [t], four of each *)
Definition divided_differences (t f : list R) : R * R * R * R :=
  let t0 := nth 0 t 0 in
  let t1 := nth 1 t 0 in
  let t2 := nth 2 t 0 in
  let t3 := nth 3 t 0 in
  let f0 := nth 0 f 0 in
  let f1 := nth 1 f 0 in
  let f2 := nth 2 f 0 in
  let f3 := nth 3 f 0 in
  let a01 := (f1 - f0) / (t1 - t0) in
  let a12 := (f2 - f1) / (t2 - t1) in
  let a23 := (f3 - f2) / (t3 - t2) in
  let a012 := (a12 - a01) / (t2 - t0) in
  let a123 := (a23 - a12) / (t3 - t1) in
  let a0123 := (a123 - a012) / (t3 - t0) in
  (f0, a01, a012, a0123).

(** The cubic polynomial through the values [f] at the nodes [t], in
    Newton's form, and its first and second derivative *)
Definition cubic_value (t f : list R) (u : R) : R :=
  let '(a0, a1, a2, a3) := divided_differences t f in
  let d0 := u - nth 0 t 0 in
  let d1 := u - nth 1 t 0 in
  let d2 := u - nth 2 t 0 in
  a0 + a1 * d0 + a2 * (d0 * d1) + a3 * (d0 * d1 * d2).

Definition cubic_der1 (t f : list R) (u : R) : R :=
  let '(_, a1, a2, a3) := divided_differences t f in
  let d0 := u - nth 0 t 0 in
  let d1 := u - nth 1 t 0 in
  let d2 := u - nth 2 t 0 in
  a1 + a2 * (d0 + d1) + a3 * (d0 * d1 + d0 * d2 + d1 * d2).

Definition cubic_der2 (t f : list R) (u : R) : R :=
  let '(_, _, a2, a3) := divided_differences t f in
  let d0 := u - nth 0 t 0 in
  let d1 := u - nth 1 t 0 in
  let d2 := u - nth 2 t 0 in
  2 * a2 + 2 * a3 * (d0 + d1 + d2).

(** What [splprep(pts, s=0, k=3)] fits through four points: with m = 4
    points FITPACK places m + k + 1 = 8 knots, four at each end and none
    inside, so the spline is one cubic polynomial per coordinate, the one
    through the points at their normalised chord-length parameters *)
Definition interpolating_cubic (pts : list point) : Spline :=
  let us := params pts in
  let xs := fst <$> pts in
  let ys := snd <$> pts in
  {| sp_c := fun u => (cubic_value us xs u, cubic_value us ys u);
     sp_c1 := fun u => (cubic_der1 us xs u, cubic_der1 us ys u);
     sp_c2 := fun u => (cubic_der2 us xs u, cubic_der2 us ys u) |}.

(** A fitter for that case alone: four points, s = 0, k = 3.  Every other
    call is outside it and answered with [None] *)
Definition fit_cubic (pts : list point) (s : R) (k : nat)
    : option (Spline * list R) :=
  if (k =? 3)%nat && (length pts =? 4)%nat && Reqb s 0
  then Some (interpolating_cubic pts, params pts)
  else None.




(** A path with two corners that never comes back to a point *)
Definition staircase : list raw_point :=
  [(Finite 0, Finite 0); (Finite 1, Finite 0); (Finite 1, Finite 1);
   (Finite 2, Finite 1)].

Definition staircase_points : list point :=
  [(0, 0); (1, 0); (1, 1); (2, 1)].

(** A steering input at rest at the start of the staircase, with no path of
    its own *)
Definition staircase_input : Model.SteeringModelInput :=
  {| Model.state_cog := (0, 0, 0, 0);
     Model.pred_horizon := 2;
     Model.interval := 1 / 20;
     Model.tunnel_path := staircase;
     Model.tunnel_width := Some (1 / 10);
     Model.planner_weights := None;
     Model.reference_path := None;
     Model.current_acc := None;
     Model.corridor_bounds := None |}.


End Cubic.

(** ** reference_path.py: the pieces of find_closest_theta *)

Module Projection.
Import Np RefPath.


(** [f_prime] and [f_second] of one pass of the loop at parameter [u0] *)
Definition f_prime (tck : Spline) (px py u0 : R) : R :=
  let c := splev u0 tck 0 in
  let c1 := splev u0 tck 1 in
  let rx := c.1 - px in
  let ry := c.2 - py in
  let '(c1x, c1y) := c1 in
  2 * (rx * c1x + ry * c1y).

Definition f_second (tck : Spline) (px py u0 : R) : R :=
  let c := splev u0 tck 0 in
  let c1 := splev u0 tck 1 in
  let c2 := splev u0 tck 2 in
  let rx := c.1 - px in
  let ry := c.2 - py in
  let '(c1x, c1y) := c1 in
  let '(c2x, c2y) := c2 in
  2 * ((c1x * c1x + c1y * c1y) + (rx * c2x + ry * c2y)).


End Projection.

(** ** Facts about the NumPy helpers *)

Module NpFacts.
Import Np.

Lemma sumR_ext f g n :
  (forall i, (i < n)%nat -> f i = g i) -> sumR f n = sumR g n.
Proof.
  induction n as [|n IH]; intros H; simpl; [reflexivity|].
  rewrite IH, H by (intros; try apply H; lia). reflexivity.
Qed.

Lemma sumR_plus f g n : sumR (fun i => f i + g i) n = sumR f n + sumR g n.
Proof. induction n as [|n IH]; simpl; [lra | rewrite IH; lra]. Qed.

Lemma sumR_scal c f n : sumR (fun i => c * f i) n = c * sumR f n.
Proof. induction n as [|n IH]; simpl; [lra | rewrite IH; lra]. Qed.

Lemma sumR_front f n : sumR f (S n) = f O + sumR (fun i => f (S i)) n.
Proof.
  induction n as [|n IH]; [simpl; lra|].
  change (sumR f (S (S n))) with (sumR f (S n) + f (S n)).
  rewrite IH. simpl. lra.
Qed.

(** A sum against the unit impulse at [i] picks the [i]-th term *)
Lemma sumR_impulse (g : nat -> R) (i m : nat) :
  sumR (fun l => g l * (if decide (l = i) then 1 else 0)) m
  = if decide (i < m)%nat then g i else 0.
Proof.
  induction m as [|m IH]; simpl.
  - destruct (decide (i < 0)%nat); [lia | reflexivity].
  - rewrite IH.
    destruct (decide (m = i)) as [->|Hne].
    + destruct (decide (i < i)%nat); [lia|].
      destruct (decide (i < S i)%nat); [lra | lia].
    + destruct (decide (i < m)%nat), (decide (i < S m)%nat); try lia; lra.
Qed.

(** A sum whose terms vanish from index [m] on stops at [m] *)
Lemma sumR_truncate (g : nat -> R) (m n : nat) :
  (m <= n)%nat ->
  sumR (fun i => if decide (i < m)%nat then g i else 0) n = sumR g m.
Proof.
  intros Hmn. induction n as [|n IH].
  - assert (m = O) as -> by lia. reflexivity.
  - destruct (decide (m = S n)) as [->|Hne].
    + apply sumR_ext. intros i Hi. destruct (decide (i < S n)%nat); [reflexivity | lia].
    + simpl. rewrite IH by lia.
      destruct (decide (n < m)%nat); [lia | lra].
Qed.

Lemma dot_tabulated (g jf : nat -> R) (s n : nat) :
  dot (g <$> seq s n) (jf <$> seq s n)
  = sumR (fun i => g (s + i)%nat * jf (s + i)%nat) n.
Proof.
  revert s. induction n as [|n IH]; intros s; [reflexivity|].
  rewrite sumR_front. cbn [seq fmap list_fmap dot]. 
  change (dot (list_fmap _ _ g (seq (S s) n)) (list_fmap _ _ jf (seq (S s) n)))
    with (dot (g <$> seq (S s) n) (jf <$> seq (S s) n)).
  rewrite IH.
  rewrite Nat.add_0_r. f_equal. apply sumR_ext. intros i _.
  replace (S s + i)%nat with (s + S i)%nat by lia. reflexivity.
Qed.

(** Every vector is the table of its own entries *)
Lemma vector_as_table (v : vector) :
  v = (fun i => nth i v 0) <$> seq 0 (length v).
Proof.
  induction v as [|x v IH]; [reflexivity|].
  cbn [length seq]. rewrite fmap_cons. cbn [nth]. f_equal.
  rewrite <- fmap_S_seq, <- list_fmap_compose. exact IH.
Qed.

Lemma tabulate_lookup n f k :
  (k < n)%nat -> tabulate n f !! k = Some (f k <$> seq 0 n).
Proof.
  intros Hk. unfold tabulate.
  rewrite list_lookup_fmap, lookup_seq_lt by exact Hk. reflexivity.
Qed.

Lemma tabulate_mget n f k i :
  (k < n)%nat -> (i < n)%nat -> mget (tabulate n f) k i = Some (f k i).
Proof.
  intros Hk Hi. unfold mget. rewrite tabulate_lookup by exact Hk. simpl.
  rewrite list_lookup_fmap, lookup_seq_lt by exact Hi. reflexivity.
Qed.

Lemma tabulate_ext n f g :
  (forall k i, (k < n)%nat -> (i < n)%nat -> f k i = g k i) ->
  tabulate n f = tabulate n g.
Proof.
  intros H. unfold tabulate. apply list_eq. intros k.
  rewrite !list_lookup_fmap.
  destruct (seq 0 n !! k) as [k'|] eqn:Hk; [|reflexivity].
  apply lookup_seq in Hk as [-> Hk]. simpl. f_equal.
  apply list_eq. intros i. rewrite !list_lookup_fmap.
  destruct (seq 0 n !! i) as [i'|] eqn:Hi; [|reflexivity].
  apply lookup_seq in Hi as [-> Hi]. simpl. f_equal. apply H; lia.
Qed.

Lemma zeros2_tabulate n : zeros2 n n = tabulate n (fun _ _ => 0).
Proof.
  unfold zeros2, tabulate. apply list_eq. intros k.
  destruct (decide (k < n)%nat) as [Hk|Hk].
  - rewrite lookup_replicate_2, list_lookup_fmap, lookup_seq_lt by exact Hk.
    simpl. f_equal. apply list_eq. intros i.
    destruct (decide (i < n)%nat) as [Hi|Hi].
    + rewrite lookup_replicate_2, list_lookup_fmap, lookup_seq_lt by exact Hi.
      reflexivity.
    + rewrite list_lookup_fmap, lookup_seq_ge by lia.
      apply lookup_replicate_None. lia.
  - rewrite list_lookup_fmap, lookup_seq_ge by lia.
    apply lookup_replicate_None. lia.
Qed.

(** Index assignment into a tabulated matrix updates the entry function *)
Lemma mset_tabulate n f k i v :
  mset (tabulate n f) k i v
  = tabulate n (fun k' i' => if decide (k' = k /\ i' = i) then v else f k' i').
Proof.
  unfold mset. apply list_eq. intros k'.
  rewrite list_lookup_alter.
  destruct (decide (k' < n)%nat) as [Hk'|Hk'].
  - destruct (decide (k = k')) as [->|Hne]; rewrite !tabulate_lookup by exact Hk'.
    + simpl. f_equal.
      apply list_eq. intros i'.
      destruct (decide (i = i')) as [->|Hni].
      * destruct (decide (i' < n)%nat) as [Hi'|Hi'].
        -- rewrite list_lookup_insert_eq by (rewrite length_fmap, length_seq; exact Hi').
           rewrite list_lookup_fmap, lookup_seq_lt by exact Hi'. simpl.
           destruct (decide (k' = k' /\ i' = i')) as [_|Hn]; [reflexivity|].
           exfalso; apply Hn; split; reflexivity.
        -- rewrite list_insert_ge by (rewrite length_fmap, length_seq; lia).
           rewrite !list_lookup_fmap, lookup_seq_ge by lia. reflexivity.
      * rewrite list_lookup_insert_ne by exact Hni.
        rewrite !list_lookup_fmap. destruct (seq 0 n !! i') as [j|] eqn:Hj; [|reflexivity].
        apply lookup_seq in Hj as [-> _]. simpl.
        destruct (decide (k' = k' /\ i' = i)) as [[_ Heq]|_]; [congruence | reflexivity].
    + f_equal. apply list_fmap_ext. intros _ i' _.
      destruct (decide (k' = k /\ i' = i)) as [[Heq _]|_]; [congruence | reflexivity].
  - unfold tabulate. destruct (decide (k = k')) as [->|_];
      rewrite !list_lookup_fmap, !lookup_seq_ge by lia; reflexivity.
Qed.

(** np.tril(np.ones((n, n))) * c *)
Lemma tril_ones_scaled n c :
  mscale (tril (ones2 n n)) c
  = tabulate n (fun k i => (if decide (i <= k)%nat then 1 else 0) * c).
Proof.
  unfold mscale, tril, ones2, tabulate. apply list_eq. intros k.
  rewrite !list_lookup_fmap, list_lookup_imap.
  destruct (decide (k < n)%nat) as [Hk|Hk].
  - rewrite lookup_replicate_2, lookup_seq_lt by exact Hk. simpl. f_equal.
    apply list_eq. intros i.
    rewrite !list_lookup_fmap, list_lookup_imap.
    destruct (decide (i < n)%nat) as [Hi|Hi].
    + rewrite lookup_replicate_2, lookup_seq_lt by exact Hi. reflexivity.
    + rewrite lookup_seq_ge by lia.
      rewrite (proj1 (lookup_replicate_None n 1 i)) by lia. reflexivity.
  - rewrite lookup_seq_ge by lia.
    rewrite (proj1 (lookup_replicate_None n _ k)) by lia. reflexivity.
Qed.

Lemma cumsum_from_lookup (v : vector) (acc : R) (k : nat) :
  (k < length v)%nat ->
  cumsum_from acc v !! k = Some (acc + sumR (fun i => nth i v 0) (S k)).
Proof.
  revert acc k. induction v as [|x v IH]; intros acc k Hk; [simpl in Hk; lia|].
  destruct k as [|k].
  - simpl. f_equal. lra.
  - cbn [cumsum_from]. rewrite lookup_cons_ne_0 by lia. simpl Nat.pred.
    rewrite IH by (simpl in Hk; lia).
    rewrite (sumR_front _ (S k)). cbn [nth]. f_equal. lra.
Qed.

End NpFacts.

(** ** Closed forms of the dynamics kernels *)

Module DynamicsFacts.
Import Np NpFacts Dynamics.

Ltac tab_cases :=
  apply tabulate_ext; intros ? ? ? ?; cbv beta;
  repeat case_decide; destruct_and?; subst;
  try reflexivity; try (exfalso; lia).

Lemma A_acc_tabulate n dt :
  _build_A_acc n dt
  = tabulate n (fun k i => if decide (i <= k)%nat then dt else 0).
Proof.
  unfold _build_A_acc. rewrite tril_ones_scaled.
  apply tabulate_ext. intros k i _ _. case_decide; lra.
Qed.

Lemma A_vel_row_loop_tabulate n dt f k m :
  foldl (fun A i => mset A k i ((INR k - INR i + 1 / 2) * dt ^ 2))
        (tabulate n f) (seq 0 m)
  = tabulate n (fun k' i' =>
      if decide (k' = k /\ (i' < m)%nat)
      then (INR k' - INR i' + 1 / 2) * dt ^ 2 else f k' i').
Proof.
  induction m as [|m IH].
  - simpl. tab_cases.
  - rewrite seq_S, foldl_snoc, IH, mset_tabulate. simpl. tab_cases.
Qed.

Lemma A_vel_tabulate n dt :
  _build_A_vel_from_jerk n dt
  = tabulate n (fun k i =>
      if decide (i <= k)%nat then (INR k - INR i + 1 / 2) * dt ^ 2 else 0).
Proof.
  unfold _build_A_vel_from_jerk. rewrite zeros2_tabulate.
  assert (forall m, (m <= n)%nat ->
    foldl (A_vel_row_loop dt) (tabulate n (fun _ _ => 0)) (seq 0 m)
    = tabulate n (fun k i =>
        if decide ((k < m)%nat /\ (i <= k)%nat)
        then (INR k - INR i + 1 / 2) * dt ^ 2 else 0)) as H.
  { induction m as [|m IH]; intros Hm.
    - simpl. tab_cases.
    - rewrite seq_S, foldl_snoc, IH by lia. unfold A_vel_row_loop.
      rewrite A_vel_row_loop_tabulate. simpl. tab_cases. }
  rewrite H by lia. tab_cases.
Qed.

Lemma rollout_snoc dt st (jf : nat -> R) m :
  rollout dt st (jf <$> seq 0 (S m))
  = discrete_update dt (rollout dt st (jf <$> seq 0 m)) (jf m).
Proof.
  unfold rollout. rewrite seq_S, fmap_app, foldl_app. reflexivity.
Qed.

(** The discrete update in closed form, for any jerk sequence and any
    initial state *)
Lemma rollout_closed dt p0 v0 a0 (jf : nat -> R) m :
  rollout dt (p0, v0, a0) (jf <$> seq 0 m)
  = (p0 + v0 * (INR m * dt) + a0 * ((1 / 2) * (INR m * dt) ^ 2)
       + sumR (fun i => pos_kernel dt (INR m - 1 - INR i) * jf i) m,
     v0 + a0 * (INR m * dt)
       + sumR (fun i => (INR m - 1 - INR i + 1 / 2) * dt ^ 2 * jf i) m,
     a0 + sumR (fun i => dt * jf i) m).
Proof.
  induction m as [|m IH].
  - simpl. f_equal; [f_equal|]; lra.
  - rewrite rollout_snoc, IH. clear IH. unfold discrete_update.
    set (A := sumR (fun i => pos_kernel dt (INR m - 1 - INR i) * jf i) m).
    set (B := sumR (fun i => (INR m - 1 - INR i + 1 / 2) * dt ^ 2 * jf i) m).
    set (C := sumR (fun i => dt * jf i) m).
    assert (sumR (fun i => pos_kernel dt (INR (S m) - 1 - INR i) * jf i) m
            = A + dt * B + (1 / 2) * dt ^ 2 * C) as HA.
    { unfold A, B, C. rewrite <- !sumR_scal, <- !sumR_plus.
      apply sumR_ext. intros i _. rewrite S_INR. unfold pos_kernel. field. }
    assert (sumR (fun i => (INR (S m) - 1 - INR i + 1 / 2) * dt ^ 2 * jf i) m
            = B + dt * C) as HB.
    { unfold B, C. rewrite <- !sumR_scal, <- !sumR_plus.
      apply sumR_ext. intros i _. rewrite S_INR. ring. }
    cbn [sumR]. rewrite HA, HB. fold C. rewrite S_INR. unfold pos_kernel.
    f_equal; [f_equal|]; field.
Qed.

Lemma A_pos_col_loop_state n dt f i m :
  foldl (impulse_body dt i) (tabulate n f, (0, 0, 0)) (seq 0 m)
  = (tabulate n (fun k' i' =>
       if decide (i' = i /\ (k' < m)%nat)
       then fst (fst (rollout dt (0, 0, 0) (impulse i' <$> seq 0 (S k'))))
       else f k' i'),
     rollout dt (0, 0, 0) (impulse i <$> seq 0 m)).
Proof.
  induction m as [|m IH].
  - simpl. f_equal. tab_cases.
  - rewrite (rollout_snoc _ _ _ m), seq_S, foldl_snoc, IH. clear IH.
    rewrite Nat.add_0_l.
    destruct (rollout dt (0, 0, 0) (impulse i <$> seq 0 m))
      as [[dp dv] da] eqn:E.
    unfold impulse_body, discrete_update, impulse at 1. f_equal.
    rewrite mset_tabulate. apply tabulate_ext. intros k' i' _ _. cbv beta.
    repeat case_decide; destruct_and?; subst; try reflexivity; try (exfalso; lia).
    all: rewrite rollout_snoc, E; unfold discrete_update, impulse; cbn [fst];
      case_decide; first [reflexivity | congruence | lia].
Qed.

Lemma A_pos_tabulate n dt :
  _build_A_pos_from_jerk n dt
  = tabulate n (fun k i =>
      fst (fst (rollout dt (0, 0, 0) (impulse i <$> seq 0 (S k))))).
Proof.
  unfold _build_A_pos_from_jerk. rewrite zeros2_tabulate.
  assert (forall m, (m <= n)%nat ->
    foldl (A_pos_col_loop n dt) (tabulate n (fun _ _ => 0)) (seq 0 m)
    = tabulate n (fun k i =>
        if decide (i < m)%nat
        then fst (fst (rollout dt (0, 0, 0) (impulse i <$> seq 0 (S k))))
        else 0)) as H.
  { induction m as [|m IH]; intros Hm.
    - simpl. tab_cases.
    - rewrite seq_S, foldl_snoc, IH by lia. unfold A_pos_col_loop.
      rewrite A_pos_col_loop_state. simpl. tab_cases. }
  rewrite H by lia. tab_cases.
Qed.

(** Entry (k, i) of the position kernel in closed form *)
Lemma A_pos_entry dt k i :
  fst (fst (rollout dt (0, 0, 0) (impulse i <$> seq 0 (S k))))
  = if decide (i < S k)%nat
    then pos_kernel dt (INR (S k) - 1 - INR i) else 0.
Proof.
  rewrite rollout_closed. cbn [fst]. unfold impulse.
  rewrite sumR_impulse. case_decide; lra.
Qed.

Lemma t_vec_lookup n dt k :
  (k < n)%nat -> t_vec n dt !! k = Some (INR (S k) * dt).
Proof.
  intros Hk. unfold t_vec, arange_scaled.
  rewrite list_lookup_fmap, lookup_seq_lt by lia. reflexivity.
Qed.

Lemma p_free_lookup n dt p0 v0 a0 k :
  (k < n)%nat ->
  p_free n dt p0 v0 a0 !! k
  = Some (p0 + v0 * (INR (S k) * dt) + a0 * ((1 / 2) * (INR (S k) * dt) ^ 2)).
Proof.
  intros Hk. unfold p_free, t2_vec.
  rewrite lookup_zip_with, list_lookup_fmap, t_vec_lookup by exact Hk.
  reflexivity.
Qed.

(** p_free + A_pos @ j is the position of the discrete update *)
Lemma position_reconstruction n dt p0 v0 a0 (js : vector) k :
  length js = n -> (k < n)%nat ->
  vadd (p_free n dt p0 v0 a0) (matvec (_build_A_pos_from_jerk n dt) js) !! k
  = Some (fst (fst (rollout dt (p0, v0, a0) (take (S k) js)))).
Proof.
  intros Hlen Hk. unfold vadd, matvec.
  rewrite lookup_zip_with, p_free_lookup, list_lookup_fmap by exact Hk.
  rewrite A_pos_tabulate, tabulate_lookup by exact Hk. cbn [fmap option_fmap option_map mbind option_bind].
  f_equal.
  pose (jf := fun i => nth i js 0).
  assert (js = jf <$> seq 0 n) as Hjs by (rewrite <- Hlen; apply vector_as_table).
  rewrite Hjs at 2.
  rewrite <- fmap_take, take_seq, Nat.min_l by lia.
  rewrite rollout_closed. cbn [fst]. f_equal.
  rewrite Hjs, dot_tabulated. cbn [Nat.add].
  rewrite <- (sumR_truncate _ (S k) n) by lia.
  apply sumR_ext. intros i _. rewrite A_pos_entry. case_decide; lra.
Qed.

(** s_traj = s0 + dt * cumsum(vs) *)
Lemma progress_cumsum n dt s0 (vs : vector) k :
  length vs = n -> (k < n)%nat ->
  s_traj n dt s0 vs !! k = (fun c => s0 + dt * c) <$> (cumsum vs !! k).
Proof.
  intros Hlen Hk. unfold s_traj, sadd, matvec, S_mat, cumsum.
  rewrite cumsum_from_lookup by lia.
  rewrite tril_ones_scaled, !list_lookup_fmap, tabulate_lookup by exact Hk.
  cbn [fmap option_fmap option_map]. f_equal.
  rewrite (vector_as_table vs) at 1. rewrite Hlen, dot_tabulated. cbn [Nat.add].
  rewrite Rplus_0_l, <- sumR_scal, <- (sumR_truncate _ (S k) n) by lia.
  f_equal. apply sumR_ext. intros i _.
  repeat case_decide; try lia; lra.
Qed.

End DynamicsFacts.

(** ** Facts about ReferencePath *)

Module RefPathFacts.
Import Np NpFacts RefPath.

Lemma Rltb_true a b : a < b -> Rltb a b = true.
Proof. intros H. unfold Rltb. destruct (Rlt_dec a b); [reflexivity | lra]. Qed.

Lemma Rltb_false a b : b <= a -> Rltb a b = false.
Proof. intros H. unfold Rltb. destruct (Rlt_dec a b); [lra | reflexivity]. Qed.

Lemma Rleb_true a b : a <= b -> Rleb a b = true.
Proof. intros H. unfold Rleb. destruct (Rle_dec a b); [reflexivity | lra]. Qed.

Lemma Rleb_false a b : b < a -> Rleb a b = false.
Proof. intros H. unfold Rleb. destruct (Rle_dec a b); [lra | reflexivity]. Qed.

Lemma Reqb_true a b : a = b -> Reqb a b = true.
Proof. intros H. unfold Reqb. destruct (Req_dec_T a b); [reflexivity | lra]. Qed.

Lemma Reqb_false a b : a <> b -> Reqb a b = false.
Proof. intros H. unfold Reqb. destruct (Req_dec_T a b); [contradiction | reflexivity]. Qed.

Lemma Rltb_negb_Rleb a b : Rltb a b = negb (Rleb b a).
Proof.
  unfold Rltb, Rleb. destruct (Rlt_dec a b), (Rle_dec b a); try reflexivity; lra.
Qed.

Lemma norm_nonneg v : 0 <= norm v.
Proof. apply sqrt_pos. Qed.

Lemma norm_axis x : 0 <= x -> norm (x, 0) = x.
Proof.
  intros Hx. unfold norm. cbn [fst snd].
  replace (x ^ 2 + 0 ^ 2) with (x * x) by ring. apply sqrt_square, Hx.
Qed.

Lemma norm_zero_inv v : norm v = 0 -> v = (0, 0).
Proof.
  destruct v as [x y]. unfold norm. cbn [fst snd]. intros H.
  apply sqrt_eq_0 in H; [|nra].
  assert (x = 0) by nra. assert (y = 0) by nra. subst. reflexivity.
Qed.

(** *** Waypoint validation *)

Lemma diff_points_cons2 a b t :
  diff_points (a :: b :: t) = psub b a :: diff_points (b :: t).
Proof. reflexivity. Qed.

Lemma mask_select_drop_near a l :
  mask_select l ((fun d => Rltb tol_dup (norm d)) <$> diff_points (a :: l))
  = drop_near a l.
Proof.
  revert a. induction l as [|b t IH]; intros a; [reflexivity|].
  rewrite diff_points_cons2, fmap_cons. cbn [mask_select drop_near].
  rewrite Rltb_negb_Rleb, IH.
  destruct (Rleb (norm (psub b a)) tol_dup); reflexivity.
Qed.

(** The mask-based removal of the code is the cleaning of the
    specification *)
Lemma remove_consecutive_duplicates_spec l :
  remove_consecutive_duplicates l = distinct_consecutive l.
Proof.
  unfold remove_consecutive_duplicates, keep_mask.
  destruct l as [|a [|b t]]; try reflexivity.
  replace (1 <? length (a :: b :: t))%nat with true
    by (symmetry; apply Nat.ltb_lt; simpl; lia).
  change (a :: mask_select (b :: t)
            ((fun d => Rltb tol_dup (norm d)) <$> diff_points (a :: b :: t))
          = a :: drop_near a (b :: t)).
  f_equal. apply mask_select_drop_near.
Qed.

Lemma validate_raises_iff wps :
  (exists e, _validate_and_prepare_waypoints wps = inl e)
  <-> (length (cleaned wps) < 2)%nat.
Proof.
  unfold _validate_and_prepare_waypoints, cleaned.
  destruct wps as [|w wps']; [simpl; split; [lia | eauto]|].
  set (l := keep_finite (w :: wps')).
  rewrite remove_consecutive_duplicates_spec.
  destruct (negb _ && (length l =? 0)%nat) eqn:Hc.
  - apply andb_true_iff in Hc as [_ Hc]. apply Nat.eqb_eq in Hc.
    destruct l; [|discriminate]. simpl. split; [lia | eauto].
  - destruct (length (distinct_consecutive l) <? 2)%nat eqn:Hlen.
    + apply Nat.ltb_lt in Hlen. split; [intros _; exact Hlen | eauto].
    + apply Nat.ltb_ge in Hlen. split; [intros [e He]; discriminate | lia].
Qed.

Lemma drop_near_far_pair prev l i a b :
  (prev :: l) !! i = Some a -> (prev :: l) !! S i = Some b ->
  tol_dup < norm (psub b a) -> (1 <= length (drop_near prev l))%nat.
Proof.
  revert prev i. induction l as [|q t IH]; intros prev i Ha Hb Hfar.
  - destruct i; discriminate.
  - cbn [drop_near]. destruct i as [|i].
    + simpl in Ha, Hb. inversion Ha; inversion Hb; subst.
      rewrite Rleb_false by exact Hfar. simpl. lia.
    + specialize (IH q i Ha Hb Hfar).
      destruct (Rleb (norm (psub q prev)) tol_dup); simpl; lia.
Qed.

Lemma validate_far_pair_ok wps i a b :
  keep_finite wps !! i = Some a -> keep_finite wps !! S i = Some b ->
  tol_dup < norm (psub b a) ->
  exists w, _validate_and_prepare_waypoints wps = inr w.
Proof.
  intros Ha Hb Hfar.
  destruct (_validate_and_prepare_waypoints wps) as [e|w] eqn:E; [|eauto].
  exfalso. assert (length (cleaned wps) < 2)%nat as Hlen
    by (apply validate_raises_iff; eauto).
  unfold cleaned, distinct_consecutive in Hlen.
  destruct (keep_finite wps) as [|p l]; [destruct i; discriminate|].
  pose proof (drop_near_far_pair p l i a b Ha Hb Hfar). simpl in Hlen. lia.
Qed.

(** *** The arclength table *)

Lemma cumsum_from_nondecreasing (v : list R) acc :
  Forall (fun x => 0 <= x) v -> nondecreasing (acc :: cumsum_from acc v).
Proof.
  intros Hv. revert acc. induction Hv as [|x v Hx Hv IH]; intros acc i a b Ha Hb.
  - destruct i; discriminate.
  - cbn [cumsum_from] in Ha, Hb. destruct i as [|i].
    + simpl in Ha, Hb. inversion Ha; inversion Hb; subst. lra.
    + exact (IH (acc + x) i a b Ha Hb).
Qed.

Lemma nondecreasing_le (l : list R) i j a b :
  nondecreasing l -> (i <= j)%nat ->
  l !! i = Some a -> l !! j = Some b -> a <= b.
Proof.
  intros Hl Hij Ha. revert b. induction Hij as [|j Hij IH]; intros b Hb.
  - rewrite Ha in Hb. inversion Hb. lra.
  - destruct (l !! j) as [c|] eqn:Hc.
    + specialize (IH c eq_refl). pose proof (Hl j c b Hc Hb). lra.
    + apply lookup_ge_None in Hc. apply lookup_lt_Some in Hb. lia.
Qed.

Lemma nth_lookup_R (l : list R) i x : l !! i = Some x -> nth i l 0 = x.
Proof.
  revert i. induction l as [|y l IH]; intros [|i] H; try discriminate.
  - inversion H. reflexivity.
  - simpl. apply IH. exact H.
Qed.

Lemma lookup_nth_R (l : list R) i : (i < length l)%nat -> l !! i = Some (nth i l 0).
Proof.
  intros Hi. destruct (l !! i) as [x|] eqn:E.
  - f_equal. symmetry. apply nth_lookup_R, E.
  - apply lookup_ge_None in E. lia.
Qed.

Lemma all_norms_nonneg (l : list point) :
  Forall (fun x => 0 <= x) (norm <$> l).
Proof. apply Forall_fmap, Forall_forall. intros v _. apply norm_nonneg. Qed.

Lemma inr_eq_inv {A B : Type} (x y : B) : @inr A B x = inr y -> x = y.
Proof. intros H. injection H. auto. Qed.

Lemma init_inr splprep wps s k p :
  init splprep wps s k = inr p ->
  u_dense p = linspace 0 1 num_dense
  /\ arclengths p = 0 :: cumsum (norm <$> diff_points (xy_dense p))
  /\ total_length p = nth (length (arclengths p) - 1) (arclengths p) 0.
Proof.
  unfold init. destruct (_validate_and_prepare_waypoints wps) as [e|w]; [discriminate|].
  match goal with |- match ?f with _ => _ end = _ -> _ => destruct f as [[t us]|] end;
    [|discriminate].
  intros H. apply inr_eq_inv in H. rewrite <- H. unfold xy_dense.
  cbn [u_dense arclengths total_length tck splev].
  split; [reflexivity|]. split; reflexivity.
Qed.

Lemma constructed_nondecreasing splprep wps s k p :
  init splprep wps s k = inr p -> nondecreasing (arclengths p).
Proof.
  intros H. apply init_inr in H as (_ & -> & _).
  apply cumsum_from_nondecreasing, all_norms_nonneg.
Qed.

Lemma constructed_total_length_nonneg splprep wps s k p :
  init splprep wps s k = inr p -> 0 <= total_length p.
Proof.
  intros H. pose proof (constructed_nondecreasing _ _ _ _ _ H) as Hmono.
  apply init_inr in H as (_ & Harc & ->).
  assert (arclengths p !! O = Some 0) as H0 by (rewrite Harc; reflexivity).
  assert (0 < length (arclengths p))%nat as Hlen by (rewrite Harc; simpl; lia).
  eapply (nondecreasing_le _ O (length (arclengths p) - 1)); eauto; [lia|].
  apply lookup_nth_R. lia.
Qed.

(** *** Clamping of the arclength argument *)

Lemma clip_below x hi : 0 <= hi -> x < 0 -> clip x 0 hi = clip 0 0 hi.
Proof.
  intros Hhi Hx. unfold clip.
  rewrite (Rmax_right x 0), (Rmax_left 0 0) by lra. reflexivity.
Qed.

Lemma clip_above x hi : 0 <= hi -> hi < x -> clip x 0 hi = clip hi 0 hi.
Proof.
  intros Hhi Hx. unfold clip.
  rewrite (Rmax_left x 0), (Rmax_left hi 0) by lra.
  rewrite (Rmin_right x hi), (Rmin_left hi hi) by lra. reflexivity.
Qed.

End RefPathFacts.

(** ** Facts about the concrete fitter and path *)

Module SamplesFacts.
Import Np NpFacts RefPath RefPathFacts Samples.

Lemma square_validates :
  exists w, _validate_and_prepare_waypoints square = inr w.
Proof.
  apply (validate_far_pair_ok square 0 (0, 0) (1, 0)); try reflexivity.
  unfold psub. cbn [fst snd]. replace (1 - 0, 0 - 0) with (1, 0) by (f_equal; lra).
  rewrite norm_axis by lra. unfold tol_dup. lra.
Qed.

(** With [fit], construction succeeds whenever validation does, for every
    requested degree *)
Lemma fit_constructs wps w s k :
  _validate_and_prepare_waypoints wps = inr w ->
  exists p, init fit wps s k = inr p /\ tck p = polyline w.
Proof.
  intros Hw. unfold init. rewrite Hw. cbv zeta.
  set (max_k := if (Nat.min k (length w - 1) <? 1)%nat then 1%nat
                else Nat.min k (length w - 1)).
  assert (1 <= max_k)%nat as Hk.
  { unfold max_k. destruct (_ <? 1)%nat eqn:E; [lia|]. apply Nat.ltb_ge in E. lia. }
  unfold fit. destruct (max_k =? 1)%nat eqn:E1.
  - eexists. split; reflexivity.
  - apply Nat.eqb_neq in E1.
    replace (1 <? max_k)%nat with true by (symmetry; apply Nat.ltb_lt; lia).
    cbn [Nat.eqb]. eexists. split; reflexivity.
Qed.

Lemma square_constructs :
  exists p, init fit square 0 1 = inr p.
Proof.
  destruct square_validates as [w Hw].
  destruct (fit_constructs square w 0 1%nat Hw) as (p & Hp & _). eauto.
Qed.

End SamplesFacts.

(** ** Facts about closest-point projection *)

Module ClosestFacts.
Import Np NpFacts RefPath RefPathFacts.

(** *** The index search of np.interp *)

Lemma last_le_from_none x (xp : list R) i0 best :
  (forall j y, xp !! j = Some y -> x < y) ->
  last_le_from x xp i0 best = best.
Proof.
  revert i0 best. induction xp as [|y xp IH]; intros i0 best H; [reflexivity|].
  cbn [last_le_from]. rewrite Rleb_false by (apply (H O); reflexivity).
  apply IH. intros j z Hz. apply (H (S j)). exact Hz.
Qed.

(** On a table whose entries up to index [k] are <= x and whose later
    entries are > x, the search returns [k] *)
Lemma last_le_from_prefix x (xp : list R) k i0 best :
  (k < length xp)%nat ->
  (forall j y, xp !! j = Some y -> (j <= k)%nat -> y <= x) ->
  (forall j y, xp !! j = Some y -> (k < j)%nat -> x < y) ->
  last_le_from x xp i0 best = (i0 + k)%nat.
Proof.
  revert k i0 best. induction xp as [|y xp IH]; intros k i0 best Hk Hle Hgt.
  - simpl in Hk. lia.
  - cbn [last_le_from]. rewrite Rleb_true by (apply (Hle O); [reflexivity | lia]).
    destruct k as [|k].
    + rewrite last_le_from_none; [lia|].
      intros j z Hz. apply (Hgt (S j)); [exact Hz | lia].
    + rewrite (IH k).
      * lia.
      * simpl in Hk. lia.
      * intros j z Hz Hj. apply (Hle (S j)); [exact Hz | lia].
      * intros j z Hz Hj. apply (Hgt (S j)); [exact Hz | lia].
Qed.

(** In general the search returns the last index whose entry is <= x *)
Lemma last_le_from_last x (xp : list R) i0 best :
  (last_le_from x xp i0 best = best
   /\ forall j y, xp !! j = Some y -> x < y)
  \/ (exists k y, last_le_from x xp i0 best = (i0 + k)%nat
        /\ xp !! k = Some y /\ y <= x
        /\ forall j z, xp !! j = Some z -> (k < j)%nat -> x < z).
Proof.
  revert i0 best. induction xp as [|y xp IH]; intros i0 best.
  - left. split; [reflexivity|]. intros j z Hz. destruct j; discriminate.
  - cbn [last_le_from]. destruct (Rle_dec y x) as [Hyx|Hyx].
    + rewrite Rleb_true by exact Hyx. right.
      destruct (IH (S i0) i0) as [[E Hall]|(k & z & E & Hk & Hz & Hafter)].
      * exists O, y. repeat split; [rewrite E; lia | assumption |].
        intros j z Hz Hj. destruct j as [|j]; [lia|]. apply (Hall j). exact Hz.
      * exists (S k), z. repeat split; [rewrite E; lia | exact Hk | exact Hz |].
        intros j z' Hz' Hj. destruct j as [|j]; [lia|].
        apply (Hafter j); [exact Hz' | lia].
    + rewrite Rleb_false by lra.
      destruct (IH (S i0) best) as [[E Hall]|(k & z & E & Hk & Hz & Hafter)].
      * left. split; [exact E|]. intros j z Hz.
        destruct j as [|j]; [inversion Hz; subst; lra | apply (Hall j); exact Hz].
      * right. exists (S k), z. repeat split; [rewrite E; lia | exact Hk | exact Hz |].
        intros j z' Hz' Hj. destruct j as [|j]; [lia|].
        apply (Hafter j); [exact Hz' | lia].
Qed.

(** The search at a table entry of a non-decreasing table: an index at or
    after it that holds the same value *)
Lemma last_le_at_entry (xp : list R) i x :
  nondecreasing xp -> xp !! i = Some x ->
  exists j, last_le x xp = j /\ (i <= j)%nat /\ xp !! j = Some x.
Proof.
  intros Hmono Hi. unfold last_le.
  destruct (last_le_from_last x xp 0 0) as [[_ Hall]|(k & y & E & Hk & Hy & Hafter)].
  - specialize (Hall i x Hi). lra.
  - exists k. split; [rewrite E; reflexivity|].
    assert (i <= k)%nat as Hik.
    { destruct (le_lt_dec i k) as [H|H]; [exact H|].
      specialize (Hafter i x Hi H). lra. }
    split; [exact Hik|].
    pose proof (nondecreasing_le xp i k x y Hmono Hik Hi Hk). rewrite Hk. f_equal. lra.
Qed.

(** np.interp at an entry of a non-decreasing table returns the value
    stored at the index the search finds *)
Lemma interp_at_entry (xp fp : list R) i x :
  nondecreasing xp -> xp !! i = Some x ->
  exists j, (i <= j)%nat /\ xp !! j = Some x /\ interp x xp fp = nth j fp 0.
Proof.
  intros Hmono Hi.
  destruct (last_le_at_entry xp i x Hmono Hi) as (j & Ej & Hij & Hj).
  exists j. split; [exact Hij|]. split; [exact Hj|].
  assert (j < length xp)%nat as Hjlen by (apply lookup_lt_Some in Hj; exact Hj).
  unfold interp. rewrite Ej.
  assert (nth (length xp - 1) xp 0 = nth (length xp - 1) xp 0) as _ by reflexivity.
  pose proof (lookup_nth_R xp (length xp - 1) ltac:(lia)) as Hlast.
  pose proof (lookup_nth_R xp 0 ltac:(lia)) as Hfirst.
  rewrite Rltb_false
    by (apply (nondecreasing_le xp j (length xp - 1) _ _ Hmono); [lia | exact Hj | exact Hlast]).
  rewrite Rltb_false
    by (apply (nondecreasing_le xp 0 j _ _ Hmono); [lia | exact Hfirst | exact Hj]).
  destruct (j =? length xp - 1)%nat; [reflexivity|].
  rewrite Reqb_true by (apply nth_lookup_R, Hj). reflexivity.
Qed.

Lemma increasing_nondecreasing l : increasing l -> nondecreasing l.
Proof.
  intros H i a b Ha Hb. apply Rlt_le. apply (H i (S i)); [assumption.. | lia].
Qed.

Lemma interp_at_entry_increasing (xp fp : list R) i x :
  increasing xp -> xp !! i = Some x -> interp x xp fp = nth i fp 0.
Proof.
  intros Hinc Hi.
  destruct (interp_at_entry xp fp i x (increasing_nondecreasing _ Hinc) Hi)
    as (j & Hij & Hj & ->).
  destruct (decide (i = j)) as [->|Hne]; [reflexivity|].
  pose proof (Hinc i j x x Hi Hj ltac:(lia)). lra.
Qed.

(** *** np.argmin *)




(** *** The Newton loop started at the foot point *)


End ClosestFacts.

(** ** Facts about the tables of a constructed path *)

Module TableFacts.
Import Np NpFacts RefPath RefPathFacts ClosestFacts.

Lemma diff_points_lookup (l : list point) m a b :
  l !! m = Some a -> l !! S m = Some b ->
  diff_points l !! m = Some (psub b a).
Proof.
  revert m. induction l as [|x [|y t] IH]; intros m Ha Hb.
  - discriminate.
  - destruct m; discriminate.
  - rewrite diff_points_cons2. destruct m as [|m].
    + simpl in Ha, Hb. inversion Ha; inversion Hb; subst. reflexivity.
    + apply (IH m); assumption.
Qed.

Lemma cumsum_from_step (v : list R) acc m a d :
  (acc :: cumsum_from acc v) !! m = Some a -> v !! m = Some d ->
  (acc :: cumsum_from acc v) !! S m = Some (a + d).
Proof.
  revert acc m. induction v as [|x v IH]; intros acc m Ha Hd; [destruct m; discriminate|].
  destruct m as [|m].
  - simpl in Ha, Hd. inversion Ha; inversion Hd; subst. reflexivity.
  - cbn [cumsum_from]. apply (IH (acc + x) m); assumption.
Qed.

Lemma length_diff_points (l : list point) :
  length (diff_points l) = (length l - 1)%nat.
Proof.
  induction l as [|x [|y t] IH]; try reflexivity.
  rewrite diff_points_cons2. cbn [length] in *. lia.
Qed.

Lemma length_cumsum_from (v : list R) acc : length (cumsum_from acc v) = length v.
Proof.
  revert acc. induction v as [|x v IH]; intros acc; [reflexivity|].
  cbn [cumsum_from length]. rewrite IH. reflexivity.
Qed.

Lemma linspace_lookup a b n i :
  (i < n)%nat ->
  linspace a b n !! i = Some (a + INR i * ((b - a) / INR (n - 1))).
Proof.
  intros Hi. unfold linspace.
  rewrite list_lookup_fmap, lookup_seq_lt by exact Hi. reflexivity.
Qed.

Lemma linspace_increasing a b n :
  a < b -> (2 <= n)%nat -> increasing (linspace a b n).
Proof.
  intros Hab Hn i j x y Hx Hy Hij.
  assert (j < n)%nat as Hj
    by (apply lookup_lt_Some in Hy; unfold linspace in Hy;
        rewrite length_fmap, length_seq in Hy; exact Hy).
  rewrite linspace_lookup in Hx, Hy by lia. inversion Hx; inversion Hy; subst.
  assert (0 < INR (n - 1)) as Hpos by (apply lt_0_INR; lia).
  assert (0 < (b - a) / INR (n - 1)) as Hstep
    by (apply Rdiv_lt_0_compat; lra).
  pose proof (lt_INR i j Hij). nra.
Qed.

Section Constructed.

Variable splprep : list point -> R -> nat -> option (Spline * list R).
Variables (wps : list raw_point) (s : R) (k : nat) (p : ReferencePath).
Hypothesis Hinit : init splprep wps s k = inr p.

Lemma u_dense_increasing : increasing (u_dense p).
Proof.
  destruct (init_inr _ _ _ _ _ Hinit) as (-> & _ & _).
  apply linspace_increasing; [lra | unfold num_dense; lia].
Qed.

Lemma xy_dense_lookup j q :
  xy_dense p !! j = Some q ->
  exists u, u_dense p !! j = Some u /\ q = sp_c (tck p) u.
Proof.
  unfold xy_dense. rewrite list_lookup_fmap.
  destruct (u_dense p !! j) as [u|]; [|discriminate].
  intros H. inversion H. eauto.
Qed.

Lemma table_lengths :
  length (xy_dense p) = length (u_dense p)
  /\ length (arclengths p) = length (u_dense p)
  /\ (0 < length (u_dense p))%nat.
Proof.
  destruct (init_inr _ _ _ _ _ Hinit) as (HU & HA & _).
  assert (length (u_dense p) = num_dense) as HUlen
    by (rewrite HU; unfold linspace; rewrite length_fmap, length_seq; reflexivity).
  assert (length (xy_dense p) = length (u_dense p)) as Hxy
    by (unfold xy_dense; apply length_fmap).
  split; [exact Hxy|]. split; [|rewrite HUlen; unfold num_dense; lia].
  rewrite HA. cbn [length]. unfold cumsum.
  rewrite length_cumsum_from, length_fmap, length_diff_points, Hxy, HUlen.
  unfold num_dense. lia.
Qed.

(** Each table entry adds the chord to the next sample *)
Lemma arclengths_step m a q q' :
  arclengths p !! m = Some a ->
  xy_dense p !! m = Some q -> xy_dense p !! S m = Some q' ->
  arclengths p !! S m = Some (a + norm (psub q' q)).
Proof.
  destruct (init_inr _ _ _ _ _ Hinit) as (_ & HA & _).
  rewrite HA. unfold cumsum. intros Ha Hq Hq'.
  apply cumsum_from_step; [exact Ha|].
  rewrite list_lookup_fmap, (diff_points_lookup _ m q q') by assumption.
  reflexivity.
Qed.

(** Samples with the same arclength are the same point *)
Lemma equal_arclength_equal_point i j a q q' :
  (i <= j)%nat ->
  arclengths p !! i = Some a -> arclengths p !! j = Some a ->
  xy_dense p !! i = Some q -> xy_dense p !! j = Some q' -> q' = q.
Proof.
  pose proof (constructed_nondecreasing _ _ _ _ _ Hinit) as Hmono.
  destruct table_lengths as (Hxy & HA & _).
  intros Hij Hi. revert q'. induction Hij as [|j Hij IH]; intros q' Hj Hq Hq'.
  - congruence.
  - assert (j < length (u_dense p))%nat as Hjlen
      by (apply lookup_lt_Some in Hq'; lia).
    destruct (lookup_lt_is_Some_2 (arclengths p) j ltac:(lia)) as [b Hb].
    destruct (lookup_lt_is_Some_2 (xy_dense p) j ltac:(lia)) as [r Hr].
    pose proof (nondecreasing_le _ i j a b Hmono Hij Hi Hb) as H1.
    pose proof (arclengths_step j b r q' Hb Hr Hq') as Hstep.
    rewrite Hj in Hstep. inversion Hstep as [E].
    pose proof (norm_nonneg (psub q' r)) as Hn.
    assert (b = a) as -> by lra.
    assert (norm (psub q' r) = 0) as Hz by lra.
    apply norm_zero_inv in Hz. unfold psub in Hz. inversion Hz as [[Hx Hy]].
    rewrite <- (IH r Hb Hq Hr).
    destruct q' as [x' y'], r as [x y]. cbn [fst snd] in Hx, Hy.
    f_equal; lra.
Qed.

(** path(arclengths[i]) is the i-th dense sample *)
Lemma call_at_table_entry i a q :
  arclengths p !! i = Some a -> xy_dense p !! i = Some q -> call p a = q.
Proof.
  intros Ha Hq.
  pose proof (constructed_nondecreasing _ _ _ _ _ Hinit) as Hmono.
  destruct table_lengths as (Hxy & HA & Hpos).
  destruct (init_inr _ _ _ _ _ Hinit) as (_ & Harc & Htot).
  assert (arclengths p !! O = Some 0) as H0 by (rewrite Harc; reflexivity).
  assert (arclengths p !! (length (arclengths p) - 1)%nat
          = Some (total_length p)) as HL
    by (rewrite Htot; apply lookup_nth_R; lia).
  assert (i < length (arclengths p))%nat as Hi by (apply lookup_lt_Some in Ha; exact Ha).
  pose proof (nondecreasing_le _ O i 0 a Hmono ltac:(lia) H0 Ha) as Hlo.
  pose proof (nondecreasing_le _ i (length (arclengths p) - 1) a _ Hmono
                ltac:(lia) Ha HL) as Hhi.
  unfold call, _theta_to_u, clip.
  rewrite Rmax_left, Rmin_left by lra.
  destruct (interp_at_entry (arclengths p) (u_dense p) i a Hmono Ha)
    as (j & Hij & Hj & ->).
  assert (j < length (u_dense p))%nat as Hjlen
    by (apply lookup_lt_Some in Hj; lia).
  destruct (lookup_lt_is_Some_2 (xy_dense p) j ltac:(lia)) as [q' Hq'].
  rewrite <- (equal_arclength_equal_point i j a q q' Hij Ha Hj Hq Hq').
  destruct (xy_dense_lookup j q' Hq') as (u & Hu & ->).
  cbn [splev]. rewrite (nth_lookup_R _ _ _ Hu). reflexivity.
Qed.




End Constructed.

End TableFacts.

(** ** The closed square path, evaluated *)

Module SquareFacts.
Import Np NpFacts RefPath RefPathFacts ClosestFacts TableFacts Samples SamplesFacts.

Lemma norm_unit (v : point) : v.1 ^ 2 + v.2 ^ 2 = 1 -> norm v = 1.
Proof. intros H. unfold norm. rewrite H. apply sqrt_1. Qed.

(** Decide comparisons of numerals *)
Ltac rdecide :=
  repeat first
    [ rewrite Rltb_true by lra | rewrite Rltb_false by lra
    | rewrite Rleb_true by lra | rewrite Rleb_false by lra
    | rewrite Reqb_true by lra | rewrite Reqb_false by lra ].

Lemma square_validated :
  _validate_and_prepare_waypoints square = inr square_points.
Proof.
  unfold _validate_and_prepare_waypoints, square.
  cbn [fmap list_fmap finite_point isfinite fst snd andb forallb negb
       keep_finite omap list_omap to_point length Nat.eqb].
  rewrite remove_consecutive_duplicates_spec.
  cbn [distinct_consecutive drop_near].
  rewrite !(norm_unit (psub _ _)) by (unfold psub; cbn [fst snd]; lra).
  unfold tol_dup. rdecide.
  cbn [length Nat.ltb Nat.leb]. unfold add_midpoint, add_offset_point, break_collinearity.
  cbn [length Nat.eqb Nat.leb at_ nth Nat.sub].
  rewrite Rltb_true.
  2:{ unfold psub. cbn [fst snd].
      replace ((1 - 0) * (0 - 0) - (0 - 0) * (0 - 0)) with 0 by ring.
      rewrite Rabs_R0. unfold tol_dup. lra. }
  change (5 `div` 2)%nat with 2%nat.
  cbn [insert list_insert]. unfold square_points.
  do 4 f_equal.
  unfold padd, pscale, unit_perp, pdiv, psub. cbn [fst snd].
  f_equal; unfold Rdiv; ring.
Qed.

(** The chord-length parameters of the square's corners *)
Lemma square_params : params square_points = [0; 1 / 4; 1 / 2; 3 / 4; 1].
Proof.
  unfold params, square_points, cumsum.
  cbn [diff_points fmap list_fmap].
  rewrite !(norm_unit (psub _ _)) by (unfold psub; cbn [fst snd]; lra).
  cbn [cumsum_from length Nat.sub nth fmap list_fmap].
  repeat (apply (f_equal2 (@cons R)); [lra|]). reflexivity.
Qed.

Ltac eval_interp :=
  unfold interp, last_le;
  cbn [length Nat.sub nth last_le_from]; rdecide;
  cbn [Nat.eqb Nat.add nth]; rdecide.

Lemma square_curve_start : sp_c (polyline square_points) 0 = (0, 0).
Proof.
  unfold polyline. cbn [sp_c]. rewrite square_params.
  unfold square_points. cbn [fmap list_fmap fst snd].
  f_equal; eval_interp; reflexivity.
Qed.

Lemma square_curve_end : sp_c (polyline square_points) 1 = (0, 0).
Proof.
  unfold polyline. cbn [sp_c]. rewrite square_params.
  unfold square_points. cbn [fmap list_fmap fst snd].
  f_equal; eval_interp; reflexivity.
Qed.

Lemma square_curve_third : sp_c (polyline square_points) (1 / 3) = (1, 1 / 3).
Proof.
  unfold polyline. cbn [sp_c]. rewrite square_params.
  unfold square_points. cbn [fmap list_fmap fst snd].
  f_equal; eval_interp; lra.
Qed.

End SquareFacts.

(** ** Facts about the solver contract, the corridor optimiser and the
    planner *)

Module PlannerFacts.
Import Np NpFacts RefPath RefPathFacts Scipy Corridor Mpcc Samples SamplesFacts.

Lemma project_within (b : bound) x : consistent b -> within b (project b x).
Proof.
  destruct b as [[lo|] [hi|]]; unfold consistent, within, project; cbn [fst snd];
    intros Hc; split; try exact I.
  - apply Rmin_glb; [exact Hc | apply Rmax_l].
  - apply Rmin_l.
  - apply Rmax_l.
  - apply Rmin_l.
Qed.

(** The stationary-start model of the solver meets the contract *)
Lemma stationary_respects_bounds : respects_bounds lbfgsb_stationary.
Proof.
  intros f x0 jac bounds Hlen Hc. unfold lbfgsb_stationary. cbn [res_x].
  clear f jac. revert x0 Hlen. induction Hc as [|b bounds Hb Hc IH]; intros x0 Hlen.
  - constructor.
  - destruct x0 as [|x x0]; [discriminate|]. cbn [zip_with]. constructor.
    + apply project_within, Hb.
    + apply IH. simpl in Hlen. lia.
Qed.

(** *** Corridor offsets *)

Lemma offset_bounds_lookup N h k :
  (k < N)%nat ->
  offset_bounds N h !! k
  = Some (if decide (k = O \/ k = (N - 1)%nat)
          then (Some 0, Some 0) else (Some (- h), Some h)).
Proof.
  intros Hk. unfold offset_bounds, full.
  rewrite lookup_zip_with.
  assert (forall c, <[(N - 1)%nat := 0]> (<[O := 0]> (replicate N c)) !! k
            = Some (if decide (k = O \/ k = (N - 1)%nat) then 0 else c)) as E.
  { intros c. destruct (decide (k = (N - 1)%nat)) as [->|Hn].
    - rewrite list_lookup_insert_eq by (rewrite length_insert, length_replicate; lia).
      rewrite decide_True by (right; reflexivity). reflexivity.
    - rewrite list_lookup_insert_ne by congruence.
      destruct (decide (k = O)) as [->|H0].
      + rewrite list_lookup_insert_eq by (rewrite length_replicate; lia).
        rewrite decide_True by (left; reflexivity). reflexivity.
      + rewrite list_lookup_insert_ne by congruence.
        rewrite lookup_replicate_2 by lia.
        rewrite decide_False by (intros [?|?]; congruence). reflexivity. }
  rewrite !E. cbn [mbind option_bind]. case_decide; reflexivity.
Qed.

Lemma offset_bounds_length N h : length (offset_bounds N h) = N.
Proof.
  unfold offset_bounds, full.
  rewrite length_zip_with, !length_insert, !length_replicate. lia.
Qed.

Lemma offset_bounds_consistent N h :
  0 <= h -> Forall consistent (offset_bounds N h).
Proof.
  intros Hh. apply Forall_lookup. intros k b Hb.
  assert (k < N)%nat as Hk
    by (apply lookup_lt_Some in Hb; rewrite offset_bounds_length in Hb; exact Hb).
  rewrite offset_bounds_lookup in Hb by exact Hk. inversion Hb.
  case_decide; unfold consistent; cbn [fst snd]; lra.
Qed.

Lemma half_width_pos tw m : 0 < half_width tw m.
Proof.
  unfold half_width.
  pose proof (Rmax_r (1 / 2 * tw - m) (1 / 10 ^ 6)). lra.
Qed.

(** Every vector inside the offset bounds is within the half width and
    pinned to 0 at both ends *)
Lemma within_offset_bounds N h (d : vector) :
  (2 <= N)%nat -> 0 <= h -> Forall2 within (offset_bounds N h) d ->
  (forall k v, d !! k = Some v -> Rabs v <= h)
  /\ d !! O = Some 0
  /\ d !! (length d - 1)%nat = Some 0.
Proof.
  intros HN Hh HF.
  pose proof (Forall2_length _ _ _ HF) as Hlen. rewrite offset_bounds_length in Hlen.
  assert (forall k v, d !! k = Some v ->
            within (if decide (k = O \/ k = (N - 1)%nat)
                    then (Some 0, Some 0) else (Some (- h), Some h)) v) as Hw.
  { intros k v Hv.
    assert (k < N)%nat as Hk by (apply lookup_lt_Some in Hv; lia).
    eapply (Forall2_lookup_lr _ _ _ k); eauto.
    apply offset_bounds_lookup, Hk. }
  assert (forall k, (k = O \/ k = (N - 1)%nat) -> d !! k = Some 0) as Hpin.
  { intros k Hk. destruct (d !! k) as [v|] eqn:Hv.
    - specialize (Hw k v Hv). rewrite decide_True in Hw by exact Hk.
      destruct Hw as [H1 H2]. cbn [fst snd] in H1, H2. f_equal. lra.
    - apply lookup_ge_None in Hv. lia. }
  split; [|split].
  - intros k v Hv. specialize (Hw k v Hv).
    case_decide; destruct Hw as [H1 H2]; cbn [fst snd] in H1, H2;
      apply Rabs_le; lra.
  - apply Hpin. left. reflexivity.
  - apply Hpin. right. lia.
Qed.

Lemma zeros_within_offset_bounds N h :
  0 <= h -> Forall2 within (offset_bounds N h) (zeros N).
Proof.
  intros Hh. apply Forall2_same_length_lookup. split.
  - rewrite offset_bounds_length. unfold zeros. rewrite length_replicate. reflexivity.
  - intros k b v Hb Hv. unfold zeros in Hv. apply lookup_replicate in Hv as [-> Hk].
    rewrite offset_bounds_lookup in Hb by exact Hk. inversion Hb.
    case_decide; unfold within; cbn [fst snd]; lra.
Qed.

(** The offsets returned lie inside the bounds handed to the solver, on
    the solver path and on the fallback path *)
Lemma optimal_offsets_within splprep minimize tp tw m nk al be la ga d :
  respects_bounds minimize ->
  optimal_offsets splprep minimize tp tw m nk al be la ga = inr d ->
  exists N, (2 <= N)%nat
    /\ Forall2 within (offset_bounds N (half_width tw m)) d.
Proof.
  intros Hsolver. unfold optimal_offsets.
  destruct (init splprep tp 0 3) as [e|centerline]; [discriminate|].
  cbv zeta. set (N := knot_count tp nk).
  destruct (N <? 2)%nat eqn:HN; [discriminate|]. apply Nat.ltb_ge in HN.
  pose proof (half_width_pos tw m) as Hh.
  intros H. apply inr_eq_inv in H. subst d. exists N. split; [exact HN|].
  unfold offsets_on. cbv zeta.
  match goal with |- Forall2 _ _ (if res_success ?r then _ else _) =>
    set (res := r) end.
  destruct (res_success res).
  - apply Hsolver.
    + rewrite offset_bounds_length. unfold zeros. rewrite length_replicate. reflexivity.
    + apply offset_bounds_consistent. lra.
  - apply zeros_within_offset_bounds. lra.
Qed.

(** *** Planner *)

Lemma SCALE_VS_pos weights ds : 0 < SCALE_VS weights ds.
Proof.
  unfold SCALE_VS. pose proof (Rmax_l (1 / 10) (desired_speed weights ds)). lra.
Qed.

Lemma bounds_length n : length (bounds n) = (3 * n)%nat.
Proof. unfold bounds. rewrite !length_app, !length_replicate. lia. Qed.

Lemma x0_guess_length n weights ds : length (x0_guess n weights ds) = (3 * n)%nat.
Proof.
  unfold x0_guess, zeros, full. rewrite !length_app, !length_replicate. lia.
Qed.

Lemma bounds_consistent n : Forall consistent (bounds n).
Proof.
  unfold bounds. rewrite !Forall_app. repeat split;
    apply Forall_replicate; exact I.
Qed.

(** Inside the planner's bounds the virtual-speed block is >= 0 *)
Lemma within_bounds_vs n (x : vector) :
  Forall2 within (bounds n) x -> Forall (fun v => 0 <= v) (idx_vs n x).
Proof.
  unfold bounds, idx_vs. intros HF.
  apply Forall2_app_inv_l in HF as (k1 & x' & H1 & HF & ->).
  apply Forall2_app_inv_l in HF as (k2 & k3 & H2 & H3 & ->).
  apply Forall2_length in H1, H2. rewrite length_replicate in H1, H2.
  rewrite app_assoc, drop_app_length' by (rewrite length_app; lia).
  apply Forall_take. apply Forall_lookup. intros i v Hv.
  destruct (Forall2_lookup_r _ _ _ _ _ H3 Hv) as (b & Hb & Hw).
  apply lookup_replicate in Hb as [-> _]. destruct Hw as [Hw _]. exact Hw.
Qed.

Lemma Forall_zip_snd {A B : Type} (P : B -> Prop) (l : list A) (k : list B) :
  Forall P k -> Forall (fun c => P c.2) (zip l k).
Proof.
  intros Hk. revert l. induction Hk as [|y k Hy Hk IH]; intros [|x l];
    cbn [zip zip_with]; constructor; [exact Hy | apply IH].
Qed.

End PlannerFacts.

(** ** Facts about the noise model *)

Module NoiseFacts.
Import Np RefPath RefPathFacts Noise.

Lemma norm_origin : norm (0, 0) = 0.
Proof. rewrite norm_axis by lra. reflexivity. Qed.

Lemma device_velocity_zero mouse : device_velocity mouse 0 0 = (0, 0).
Proof.
  unfold device_velocity. cbn [fmap list_fmap nth]. f_equal; lra.
Qed.

(** Two generators with the same seed at the same position are the same
    generator *)
Lemma rng_eq (g1 g2 : rng) :
  seed g1 = seed g2 -> position g1 = position g2 -> g1 = g2.
Proof. destruct g1, g2. cbn. intros -> ->. reflexivity. Qed.

(** One step reads the stream at the generator's position and the next
    one, and leaves the generator two draws further *)
Lemma single_step_advances mouse limb sn g vx vy hx hy nc dt fa :
  snd (single_step_motor_and_device_noise mouse limb sn g vx vy hx hy nc dt fa)
  = {| seed := seed g; position := S (S (position g)) |}.
Proof.
  unfold single_step_motor_and_device_noise, np_random_normal. cbv zeta.
  destruct (mouse_noise limb _ _ _ _ _ _ _) as [[[a b] c] d].
  cbn [seed position].
  destruct (Rltb _ _ || Rltb _ _); [|reflexivity].
  destruct (rot_mat mouse _ _ _) as [hand_dx hand_dy].
  destruct (get_cursor_displacement mouse _ _ _ _) as [mouse_dx mouse_dy].
  reflexivity.
Qed.

End NoiseFacts.

(** ** Theorems: dynamics kernels *)

Section DynamicsClaims.
Import Np NpFacts Dynamics DynamicsFacts.

(** C7.  For every horizon [N] and timestep [dt]: the jerk-to-acceleration
    matrix is lower triangular with every entry on or below the diagonal
    equal to [dt]; the jerk-to-velocity matrix has entry (k, i) equal to
    (k - i + 0.5) dt^2 for i <= k and 0 otherwise; the free response plus
    the jerk-to-position matrix applied to any jerk vector is the position
    reached by the discrete update
    p_{k+1} = p_k + v_k dt + 0.5 a_k dt^2 + (1/6) j_k dt^3 after k + 1 steps;
    and s_traj[k] = s0 + dt * cumsum(vs)[k]. *)
Theorem dynamics_kernels_closed_forms (N : nat) (dt : R) :
  (forall k i, (k < N)%nat -> (i < N)%nat ->
     mget (_build_A_acc N dt) k i
     = Some (if decide (i <= k)%nat then dt else 0))
  /\ (forall k i, (k < N)%nat -> (i < N)%nat ->
     mget (_build_A_vel_from_jerk N dt) k i
     = Some (if decide (i <= k)%nat
             then (INR k - INR i + 1 / 2) * dt ^ 2 else 0))
  /\ (forall p0 v0 a0 (js : vector) k, length js = N -> (k < N)%nat ->
     vadd (p_free N dt p0 v0 a0) (matvec (_build_A_pos_from_jerk N dt) js) !! k
     = Some (fst (fst (rollout dt (p0, v0, a0) (take (S k) js)))))
  /\ (forall s0 (vs : vector) k, length vs = N -> (k < N)%nat ->
     s_traj N dt s0 vs !! k = (fun c => s0 + dt * c) <$> (cumsum vs !! k)).
Proof.
  split; [|split; [|split]].
  - intros k i Hk Hi. rewrite A_acc_tabulate. apply tabulate_mget; assumption.
  - intros k i Hk Hi. rewrite A_vel_tabulate. apply tabulate_mget; assumption.
  - intros. apply position_reconstruction; assumption.
  - intros. apply progress_cumsum; assumption.
Qed.

Lemma dynamics_kernels_witness :
  mget (_build_A_acc 2 (1 / 20)) 1 0 = Some (1 / 20)
  /\ mget (_build_A_vel_from_jerk 2 (1 / 20)) 1 0
     = Some ((INR 1 - INR 0 + 1 / 2) * (1 / 20) ^ 2)
  /\ vadd (p_free 2 (1 / 20) 0 0 0)
          (matvec (_build_A_pos_from_jerk 2 (1 / 20)) [1; 0]) !! 1%nat
     = Some (fst (fst (rollout (1 / 20) (0, 0, 0) [1; 0])))
  /\ s_traj 2 (1 / 20) 0 [1; 2] !! 1%nat
     = (fun c => 0 + 1 / 20 * c) <$> (cumsum [1; 2] !! 1%nat).
Proof.
  destruct (dynamics_kernels_closed_forms 2 (1 / 20)) as (Ha & Hv & Hp & Hs).
  split; [|split; [|split]].
  - rewrite (Ha 1%nat 0%nat) by lia. reflexivity.
  - rewrite (Hv 1%nat 0%nat) by lia. reflexivity.
  - rewrite (Hp 0 0 0 [1; 0] 1%nat) by (simpl; lia). reflexivity.
  - apply (Hs 0 [1; 2] 1%nat); simpl; lia.
Defined.

End DynamicsClaims.

(** ** Theorems: ReferencePath *)

Section RefPathClaims.
Import Np NpFacts RefPath RefPathFacts Samples SamplesFacts.

Lemma init_validation_error splprep wps s k :
  (exists e, init splprep wps s k = inl e /\ validation_error e)
  <-> (exists e, _validate_and_prepare_waypoints wps = inl e).
Proof.
  unfold init. split.
  - intros (e & He & Hv).
    destruct (_validate_and_prepare_waypoints wps) as [e'|w]; [eauto|].
    exfalso.
    match type of He with match ?f with _ => _ end = _ =>
      destruct f as [[t us]|] end; [discriminate|].
    inversion He. subst e. exact Hv.
  - intros [e He]. rewrite He. exists e. split; [reflexivity|].
    revert He. unfold _validate_and_prepare_waypoints.
    destruct wps; [intros H; inversion H; exact I|].
    destruct (negb _ && _); [intros H; inversion H; exact I|].
    destruct (_ <? 2)%nat; intros H; inversion H. exact I.
Qed.

Lemma near_pair_raises :
  _validate_and_prepare_waypoints near_pair = inl (TooFew 1).
Proof.
  unfold _validate_and_prepare_waypoints, near_pair.
  cbn [fmap list_fmap finite_point isfinite fst snd andb forallb negb
       keep_finite omap list_omap to_point length Nat.eqb].
  unfold remove_consecutive_duplicates, keep_mask.
  cbn [length Nat.ltb Nat.leb diff_points fmap list_fmap].
  unfold psub. cbn [fst snd].
  replace (5 / 10 ^ 11 - 0, 0 - 0) with (5 / 10 ^ 11, 0) by (f_equal; lra).
  rewrite norm_axis by lra.
  rewrite Rltb_false by (unfold tol_dup; lra).
  reflexivity.
Qed.

(** C3, as stated, fails: [near_pair] holds two distinct finite points,
    and its construction raises the "need at least 2 distinct waypoints"
    error, whatever the fitter, smoothing and degree. *)
Lemma waypoint_validation_counterexample :
  (Finite 0, Finite 0) ∈ near_pair
  /\ (Finite (5 / 10 ^ 11), Finite 0) ∈ near_pair
  /\ (Finite 0, Finite 0) <> (Finite (5 / 10 ^ 11), Finite 0)
  /\ finite_point (Finite 0, Finite 0) = true
  /\ finite_point (Finite (5 / 10 ^ 11), Finite 0) = true
  /\ (forall splprep s k,
        init splprep near_pair s k = inl (TooFew 1)
        /\ validation_error (TooFew 1)).
Proof.
  split; [apply list_elem_of_here|].
  split; [apply list_elem_of_further, list_elem_of_here|].
  split; [intros Heq; inversion Heq; lra|].
  split; [reflexivity|]. split; [reflexivity|].
  intros splprep s k. split; [|exact I].
  unfold init. rewrite near_pair_raises. reflexivity.
Qed.

(** C3, amended.  Construction raises a validation error if and only if
    fewer than 2 points remain after the non-finite waypoints and the
    consecutive points at distance <= 1e-10 are removed; and whenever two
    consecutive finite waypoints are more than 1e-10 apart, construction
    raises no validation error. *)
Theorem waypoint_validation splprep (wps : list raw_point) s k :
  ((exists e, init splprep wps s k = inl e /\ validation_error e)
   <-> (length (cleaned wps) < 2)%nat)
  /\ (forall i a b,
        keep_finite wps !! i = Some a -> keep_finite wps !! S i = Some b ->
        tol_dup < norm (psub b a) ->
        forall e, init splprep wps s k = inl e -> ~ validation_error e).
Proof.
  split.
  - rewrite init_validation_error. apply validate_raises_iff.
  - intros i a b Ha Hb Hfar e He Hv.
    destruct (validate_far_pair_ok wps i a b Ha Hb Hfar) as [w Hw].
    assert (exists e, _validate_and_prepare_waypoints wps = inl e) as [e' He'].
    { apply (init_validation_error splprep wps s k). eauto. }
    congruence.
Qed.

Lemma waypoint_validation_witness :
  keep_finite square !! 0%nat = Some (0, 0)
  /\ keep_finite square !! 1%nat = Some (1, 0)
  /\ tol_dup < norm (psub (1, 0) (0, 0))
  /\ (forall e, init fit square 0 1 = inl e -> ~ validation_error e).
Proof.
  assert (tol_dup < norm (psub (1, 0) (0, 0))) as Hfar.
  { unfold psub. cbn [fst snd].
    replace (1 - 0, 0 - 0) with (1, 0) by (f_equal; lra).
    rewrite norm_axis by lra. unfold tol_dup. lra. }
  split; [reflexivity|]. split; [reflexivity|]. split; [exact Hfar|].
  exact (proj2 (waypoint_validation fit square 0 1) 0%nat (0, 0) (1, 0)
               eq_refl eq_refl Hfar).
Defined.

(** C4.  For every successfully constructed path the arclength table
    starts at 0, is non-decreasing, ends at [total_length], which is
    >= 0, and every operation on the path leaves the table as it was. *)
Theorem arclength_table_invariant splprep wps s k p :
  init splprep wps s k = inr p ->
  arclengths p !! O = Some 0
  /\ nondecreasing (arclengths p)
  /\ arclengths p !! (length (arclengths p) - 1)%nat = Some (total_length p)
  /\ 0 <= total_length p
  /\ (forall q, arclengths (snd (run q p)) = arclengths p).
Proof.
  intros H. pose proof (init_inr _ _ _ _ _ H) as (_ & Harc & Htot).
  split; [|split; [|split; [|split]]].
  - rewrite Harc. reflexivity.
  - eapply constructed_nondecreasing, H.
  - rewrite Htot. apply lookup_nth_R. rewrite Harc. simpl. lia.
  - eapply constructed_total_length_nonneg, H.
  - intros q. destruct q; reflexivity.
Qed.

Lemma arclength_table_invariant_witness :
  exists p, init fit square 0 1 = inr p
    /\ arclengths p !! O = Some 0 /\ 0 <= total_length p.
Proof.
  destruct square_constructs as [p Hp]. exists p.
  destruct (arclength_table_invariant fit square 0 1%nat p Hp) as (H0 & _ & _ & Hl & _).
  split; [exact Hp|]. split; assumption.
Defined.

End RefPathClaims.

(** ** Facts about the samples of the square path *)

Section ClosestClaims.
Import Np NpFacts RefPath RefPathFacts ClosestFacts TableFacts Samples
       SamplesFacts SquareFacts.

Lemma norm_ge_fst (v : point) : Rabs v.1 <= norm v.
Proof.
  unfold norm. rewrite <- sqrt_Rsqr_abs. apply sqrt_le_1_alt.
  unfold Rsqr. pose proof (Rle_0_sqr v.2) as H. unfold Rsqr in H. lra.
Qed.

(** The arclength of a sample is at least its travel along x *)
Lemma arclength_ge_x_travel splprep wps s k p i a q q0 :
  init splprep wps s k = inr p ->
  arclengths p !! i = Some a -> xy_dense p !! i = Some q ->
  xy_dense p !! O = Some q0 -> Rabs (q.1 - q0.1) <= a.
Proof.
  intros Hinit Ha Hq Hq0.
  destruct (table_lengths _ _ _ _ _ Hinit) as (Hxy & HA & _).
  destruct (init_inr _ _ _ _ _ Hinit) as (_ & Harc & _).
  revert a q Ha Hq. induction i as [|i IH]; intros a q Ha Hq.
  - rewrite Hq0 in Hq. inversion Hq. subst q.
    rewrite Harc in Ha. inversion Ha. subst a.
    replace (q0.1 - q0.1) with 0 by ring. rewrite Rabs_R0. lra.
  - assert (S i < length (u_dense p))%nat as Hi by (apply lookup_lt_Some in Hq; lia).
    destruct (lookup_lt_is_Some_2 (arclengths p) i ltac:(lia)) as [b Hb].
    destruct (lookup_lt_is_Some_2 (xy_dense p) i ltac:(lia)) as [r Hr].
    specialize (IH b r Hb Hr).
    pose proof (arclengths_step _ _ _ _ _ Hinit i b r q Hb Hr Hq) as Hstep.
    rewrite Ha in Hstep. inversion Hstep. subst a.
    pose proof (norm_ge_fst (psub q r)) as Hn. unfold psub in Hn at 1.
    cbn [fst] in Hn.
    replace (q.1 - q0.1) with ((q.1 - r.1) + (r.1 - q0.1)) by ring.
    pose proof (Rabs_triang (q.1 - r.1) (r.1 - q0.1)). lra.
Qed.

Lemma dense_parameters :
  linspace 0 1 num_dense !! O = Some 0
  /\ (exists u, linspace 0 1 num_dense !! 333%nat = Some u /\ u = 1 / 3)
  /\ (exists u, linspace 0 1 num_dense !! 999%nat = Some u /\ u = 1).
Proof.
  assert (INR (num_dense - 1) = 999) as E.
  { rewrite INR_IZR_INZ.
    replace (Z.of_nat (num_dense - 1)) with 999%Z by reflexivity. reflexivity. }
  split; [|split].
  - rewrite linspace_lookup by (unfold num_dense; lia). f_equal.
    cbn [INR]. ring.
  - eexists. split; [apply linspace_lookup; unfold num_dense; lia|].
    rewrite E, INR_IZR_INZ. change (Z.of_nat 333) with 333%Z. lra.
  - eexists. split; [apply linspace_lookup; unfold num_dense; lia|].
    rewrite E, INR_IZR_INZ. change (Z.of_nat 999) with 999%Z. lra.
Qed.

(** The square path: its first, 334th and last dense samples *)
Lemma square_samples p :
  init fit square 0 1 = inr p ->
  xy_dense p !! O = Some (0, 0)
  /\ xy_dense p !! 333%nat = Some (1, 1 / 3)
  /\ xy_dense p !! 999%nat = Some (0, 0).
Proof.
  intros Hinit.
  destruct (fit_constructs square square_points 0 1%nat square_validated)
    as (p' & Hp' & Htck).
  assert (p' = p) as -> by congruence.
  destruct (init_inr _ _ _ _ _ Hinit) as (HU & _ & _).
  destruct dense_parameters as (H0 & (u3 & H3 & E3) & (u9 & H9 & E9)).
  unfold xy_dense. rewrite HU, !list_lookup_fmap, H0, H3, H9, Htck. subst u3 u9.
  cbn [fmap option_fmap option_map splev].
  rewrite square_curve_start, square_curve_third, square_curve_end.
  repeat split; reflexivity.
Qed.

End ClosestClaims.

(** ** Theorems: corridor optimiser and planner *)

Section PlannerClaims.
Import Np NpFacts RefPath RefPathFacts Scipy Corridor Mpcc Samples SamplesFacts
       PlannerFacts.

Lemma square_offsets_fallback tw m al be la ga :
  optimal_offsets fit lbfgsb_failed square tw m None al be la ga
  = inr (zeros 40).
Proof.
  destruct square_validates as [w Hw].
  destruct (fit_constructs square w 0 3%nat Hw) as (p & Hp & _).
  unfold optimal_offsets. rewrite Hp. reflexivity.
Qed.

(** C5, as stated, fails: for a tunnel of width 0.001 and margin 0.001 the
    bound halfwidth - margin is negative, and the offsets returned do not
    satisfy |d_k| <= halfwidth - margin: not the all-zero fallback after a
    failed solve, and not the answer of any solver. *)
Lemma corridor_offsets_counterexample :
  optimal_offsets fit lbfgsb_failed square (1 / 1000) (1 / 1000) None
                  5 5 (1 / 100) (1 / 100) = inr (zeros 40)
  /\ zeros 40 !! 1%nat = Some 0
  /\ ~ (Rabs 0 <= (1 / 2) * (1 / 1000) - 1 / 1000)
  /\ (forall minimize, exists d,
        optimal_offsets fit minimize square (1 / 1000) (1 / 1000) None
                        5 5 (1 / 100) (1 / 100) = inr d
        /\ forall k v, d !! k = Some v ->
             ~ (Rabs v <= (1 / 2) * (1 / 1000) - 1 / 1000)).
Proof.
  split; [apply square_offsets_fallback|]. split; [reflexivity|].
  split; [rewrite Rabs_R0; lra|].
  intros minimize.
  destruct square_validates as [w Hw].
  destruct (fit_constructs square w 0 3%nat Hw) as (p & Hp & _).
  unfold optimal_offsets. rewrite Hp. cbv zeta.
  replace (knot_count square None <? 2)%nat with false by reflexivity.
  eexists. split; [reflexivity|].
  intros k v _ Hv. pose proof (Rabs_pos v). lra.
Qed.

(** C5, amended.  The lateral offsets satisfy
    |d_k| <= max(halfwidth - margin, 1e-6) at every knot, hence
    |d_k| <= halfwidth - margin whenever halfwidth - margin >= 1e-6; the
    first and the last offset are exactly 0; this holds for the solver's
    answer and for the all-zero fallback. *)
Theorem corridor_offsets_bounded splprep minimize tp tw m nk al be la ga d :
  respects_bounds minimize ->
  optimal_offsets splprep minimize tp tw m nk al be la ga = inr d ->
  (forall k v, d !! k = Some v ->
     Rabs v <= Rmax ((1 / 2) * tw - m) (1 / 10 ^ 6))
  /\ (1 / 10 ^ 6 <= (1 / 2) * tw - m ->
      forall k v, d !! k = Some v -> Rabs v <= (1 / 2) * tw - m)
  /\ d !! O = Some 0
  /\ d !! (length d - 1)%nat = Some 0.
Proof.
  intros Hsolver Hd.
  destruct (optimal_offsets_within _ _ _ _ _ _ _ _ _ _ _ Hsolver Hd)
    as (N & HN & HF).
  pose proof (half_width_pos tw m) as Hh.
  destruct (within_offset_bounds N _ d HN (Rlt_le _ _ Hh) HF) as (Hb & H0 & Hl).
  split; [exact Hb|]. split; [|split; assumption].
  intros Hwide k v Hv. specialize (Hb k v Hv).
  unfold half_width in Hb. rewrite Rmax_left in Hb by exact Hwide. exact Hb.
Qed.

Lemma corridor_offsets_bounded_witness :
  exists d,
    optimal_offsets fit lbfgsb_stationary square (1 / 10) (5 / 1000) None
                    5 5 (1 / 100) (1 / 100) = inr d
    /\ d !! O = Some 0
    /\ d !! (length d - 1)%nat = Some 0.
Proof.
  assert (exists d, optimal_offsets fit lbfgsb_stationary square (1 / 10)
                      (5 / 1000) None 5 5 (1 / 100) (1 / 100) = inr d)
    as [d Hd].
  { destruct square_validates as [w Hw].
    destruct (fit_constructs square w 0 3%nat Hw) as (p & Hp & _).
    unfold optimal_offsets. rewrite Hp. eexists. reflexivity. }
  exists d. split; [exact Hd|].
  apply (corridor_offsets_bounded fit lbfgsb_stationary square (1 / 10)
           (5 / 1000) None 5 5 (1 / 100) (1 / 100) d
           stationary_respects_bounds Hd).
Defined.

(** C2.  For every input the virtual-speed component of every row of the
    controls returned by [generate_mpcc] is >= 0, for every solver that
    keeps its answer within the bounds it is given. *)
Theorem virtual_speed_nonnegative minimize p st n dt weights limits ds cb :
  respects_bounds minimize ->
  Forall (fun c : R * R * R => 0 <= c.2)
         (fst (generate_mpcc minimize p st n dt weights limits ds cb)).
Proof.
  intros Hsolver. unfold generate_mpcc, unpack_x. cbv zeta. cbn [fst].
  apply (Forall_zip_snd (fun v => 0 <= v)).
  unfold smul. apply Forall_fmap.
  eapply Forall_impl.
  - apply within_bounds_vs. apply Hsolver.
    + rewrite bounds_length, x0_guess_length. reflexivity.
    + apply bounds_consistent.
  - intros v Hv. cbn. pose proof (SCALE_VS_pos weights ds). nra.
Qed.

Lemma virtual_speed_nonnegative_witness :
  exists p, init fit square 0 1 = inr p
    /\ Forall (fun c : R * R * R => 0 <= c.2)
         (fst (generate_mpcc lbfgsb_stationary p (0, 0, 0, 0, 0, 0, 0) 6
                 (1 / 20) None ∅ 1 None)).
Proof.
  destruct square_constructs as [p Hp]. exists p. split; [exact Hp|].
  apply (virtual_speed_nonnegative lbfgsb_stationary p (0, 0, 0, 0, 0, 0, 0)
           6 (1 / 20) None ∅ 1 None stationary_respects_bounds).
Defined.

Lemma foldl_plus_zeros (l : list R) :
  Forall (fun t => t = 0) l -> foldl (fun acc t => acc + t) 0 l = 0.
Proof.
  intros Hl. assert (forall a, foldl (fun acc t => acc + t) a l = a) as H.
  { induction Hl as [|t l Ht Hl IH]; intros a; [reflexivity|].
    cbn [foldl]. rewrite IH, Ht. lra. }
  apply H.
Qed.

Lemma Forall_zip_with_all {A B : Type} (f : A -> B -> R) (P : R -> Prop)
    (l : list A) (k : list B) :
  (forall a b, P (f a b)) -> Forall P (zip_with f l k).
Proof.
  intros Hf. revert k. induction l as [|a l IH]; intros [|b k];
    cbn [zip_with]; constructor; [apply Hf | apply IH].
Qed.

Lemma zero_weights_objective p st n dt ds (x : vector) :
  objective p st n dt (Some zero_weights) ds None x = 0.
Proof.
  unfold objective, unpack_x. cbv zeta.
  assert (w_jerk (Some zero_weights) = 0) as -> by reflexivity.
  assert (w_progress (Some zero_weights) = 0) as -> by reflexivity.
  rewrite foldl_plus_zeros; [lra|].
  apply Forall_zip_with_all. intros a b. unfold tracking_term.
  assert (w_contour (Some zero_weights) = 0) as -> by reflexivity.
  assert (w_lag (Some zero_weights) = 0) as -> by reflexivity.
  lra.
Qed.

(** C1, evaluated at the diverging input.  With every weight 0 the
    objective is constant, so L-BFGS-B stops at its start, and the
    acceleration reconstructed from the returned controls is 200 at the
    first step, above the limit 100; and for every solver and every input
    the returned controls are the same whatever [limits] holds, because
    the acceleration constraints never reach the solver. *)
Theorem acceleration_limit_not_enforced (p : ReferencePath) :
  (forall x, objective p fast_state 1 (1 / 20) (Some zero_weights) 1 None x = 0)
  /\ acc_max limit_100 = 100
  /\ reconstructed_ax fast_state 1 (1 / 20)
       (fst (generate_mpcc lbfgsb_stationary p fast_state 1 (1 / 20)
               (Some zero_weights) limit_100 1 None)) = [200]
  /\ (forall minimize st n dt w l1 l2 ds cb,
        generate_mpcc minimize p st n dt w l1 ds cb
        = generate_mpcc minimize p st n dt w l2 ds cb).
Proof.
  split; [intros x; apply zero_weights_objective|].
  split; [reflexivity|]. split; [|reflexivity].
  unfold generate_mpcc, reconstructed_ax, unpack_x, lbfgsb_stationary.
  cbv zeta. cbn [res_x fst].
  unfold x0_guess, bounds, idx_jx, idx_jy, idx_vs, zeros, full, ax_free,
    Dynamics.a_free, ax0, fast_state, A_acc_mat, Dynamics._build_A_acc,
    mscale, tril, ones2, smul, vadd, matvec.
  cbn [replicate app zip_with project fst snd take drop Nat.mul Nat.add
       fmap list_fmap zip imap dot].
  unfold full, SCALE_JERK. cbn [replicate zip_with].
  f_equal. case_decide; lra.
Qed.

End PlannerClaims.

(** ** Theorems: noise model *)

Section NoiseClaims.
Import Np RefPath RefPathFacts Noise NoiseFacts Samples.

Lemma velocity_direction_zero : velocity_direction (0, 0) = (0, 0).
Proof.
  unfold velocity_direction. rewrite norm_origin, Reqb_true by reflexivity.
  reflexivity.
Qed.

Lemma zero_plus_noise (a b G : R) :
  (0 + 0 * a + - 0 * b) * G = 0 /\ (0 + 0 * a + 0 * b) * G = 0.
Proof. split; ring. Qed.

(** C8.  For a zero input velocity the velocity direction used is the zero
    vector and the returned noisy velocity and position delta are (0, 0),
    whatever the generator state and the samples of the stream, and for
    every gain function and helper. *)
Theorem zero_velocity_no_noise mouse limb (standard_normal : Z -> nat -> R)
    (g : rng) (h_pos_x h_pos_y : R) (nc : R * R) (interval forearm : R) :
  velocity_direction (device_velocity mouse 0 0) = (0, 0)
  /\ c_vel_x_out
       (fst (single_step_motor_and_device_noise mouse limb standard_normal g
               0 0 h_pos_x h_pos_y nc interval forearm)) = 0
  /\ c_vel_y_out
       (fst (single_step_motor_and_device_noise mouse limb standard_normal g
               0 0 h_pos_x h_pos_y nc interval forearm)) = 0
  /\ c_pos_dx
       (fst (single_step_motor_and_device_noise mouse limb standard_normal g
               0 0 h_pos_x h_pos_y nc interval forearm)) = 0
  /\ c_pos_dy
       (fst (single_step_motor_and_device_noise mouse limb standard_normal g
               0 0 h_pos_x h_pos_y nc interval forearm)) = 0.
Proof.
  split; [rewrite device_velocity_zero; apply velocity_direction_zero|].
  unfold single_step_motor_and_device_noise, np_random_normal. cbv zeta.
  destruct (mouse_noise limb _ _ _ _ _ _ _) as [[[a b] hxi] hyi].
  rewrite !device_velocity_zero, !velocity_direction_zero.
  unfold padd, pscale. cbn [fst snd].
  set (z1 := standard_normal _ _). set (z2 := standard_normal _ _).
  set (G := guarded_gain mouse _).
  rewrite !(proj1 (zero_plus_noise _ _ G)), !(proj2 (zero_plus_noise _ _ G)).
  replace ((0 + 0) / 2 * interval) with 0 by lra.
  rewrite Rabs_R0, Rltb_false by lra.
  cbn [orb fst c_vel_x_out c_vel_y_out c_pos_dx c_pos_dy np_isfinite negb].
  repeat split; reflexivity.
Qed.

End NoiseClaims.

(** ** Further facts: the three kernels describe one trajectory *)

Module StateFacts.
Import Np NpFacts Dynamics DynamicsFacts.

Lemma v_free_lookup n dt v0 a0 k :
  (k < n)%nat -> v_free n dt v0 a0 !! k = Some (v0 + a0 * (INR (S k) * dt)).
Proof.
  intros Hk. unfold v_free.
  rewrite list_lookup_fmap, t_vec_lookup by exact Hk. reflexivity.
Qed.

Lemma a_free_lookup n a0 k : (k < n)%nat -> a_free n a0 !! k = Some a0.
Proof.
  intros Hk. unfold a_free, full. apply lookup_replicate_2. exact Hk.
Qed.

(** v_free + A_vel @ j is the velocity of the discrete update *)
Lemma velocity_reconstruction n dt p0 v0 a0 (js : vector) k :
  length js = n -> (k < n)%nat ->
  vadd (v_free n dt v0 a0) (matvec (_build_A_vel_from_jerk n dt) js) !! k
  = Some (snd (fst (rollout dt (p0, v0, a0) (take (S k) js)))).
Proof.
  intros Hlen Hk. unfold vadd, matvec.
  rewrite lookup_zip_with, v_free_lookup, list_lookup_fmap by exact Hk.
  rewrite A_vel_tabulate, tabulate_lookup by exact Hk.
  cbn [fmap option_fmap option_map mbind option_bind].
  f_equal.
  pose (jf := fun i => nth i js 0).
  assert (js = jf <$> seq 0 n) as Hjs by (rewrite <- Hlen; apply vector_as_table).
  rewrite Hjs at 2.
  rewrite <- fmap_take, take_seq, Nat.min_l by lia.
  rewrite rollout_closed. cbn [fst snd]. f_equal.
  rewrite Hjs, dot_tabulated. cbn [Nat.add].
  rewrite <- (sumR_truncate _ (S k) n) by lia.
  apply sumR_ext. intros i _. rewrite S_INR.
  repeat case_decide; try lia; lra.
Qed.

(** a_free + A_acc @ j is the acceleration of the discrete update *)
Lemma acceleration_reconstruction n dt p0 v0 a0 (js : vector) k :
  length js = n -> (k < n)%nat ->
  vadd (a_free n a0) (matvec (_build_A_acc n dt) js) !! k
  = Some (snd (rollout dt (p0, v0, a0) (take (S k) js))).
Proof.
  intros Hlen Hk. unfold vadd, matvec.
  rewrite lookup_zip_with, a_free_lookup, list_lookup_fmap by exact Hk.
  rewrite A_acc_tabulate, tabulate_lookup by exact Hk.
  cbn [fmap option_fmap option_map mbind option_bind].
  f_equal.
  pose (jf := fun i => nth i js 0).
  assert (js = jf <$> seq 0 n) as Hjs by (rewrite <- Hlen; apply vector_as_table).
  rewrite Hjs at 2.
  rewrite <- fmap_take, take_seq, Nat.min_l by lia.
  rewrite rollout_closed. cbn [fst snd]. f_equal.
  rewrite Hjs, dot_tabulated. cbn [Nat.add].
  rewrite <- (sumR_truncate _ (S k) n) by lia.
  apply sumR_ext. intros i _.
  repeat case_decide; try lia; lra.
Qed.

End StateFacts.

(** ** Theorems: the reconstructed state *)

Section DynamicsProperties.
Import Np Dynamics DynamicsFacts StateFacts.

(** X1.  The position, velocity and acceleration arrays that the planner
    and the steering model rebuild from a jerk sequence, p_free + A_pos @ j,
    v_free + A_vel @ j and a_free + A_acc @ j, are at every step k the three
    components of one state: the state the discrete update reaches from
    (p0, v0, a0) after the jerks j_0 .. j_k. *)
Theorem kernels_reconstruct_state (N : nat) (dt p0 v0 a0 : R) (js : vector)
    (k : nat) :
  length js = N -> (k < N)%nat ->
  exists p v a,
    rollout dt (p0, v0, a0) (take (S k) js) = (p, v, a)
    /\ vadd (p_free N dt p0 v0 a0)
            (matvec (_build_A_pos_from_jerk N dt) js) !! k = Some p
    /\ vadd (v_free N dt v0 a0)
            (matvec (_build_A_vel_from_jerk N dt) js) !! k = Some v
    /\ vadd (a_free N a0) (matvec (_build_A_acc N dt) js) !! k = Some a.
Proof.
  intros Hlen Hk.
  destruct (rollout dt (p0, v0, a0) (take (S k) js)) as [[p v] a] eqn:Hr.
  exists p, v, a. split; [reflexivity|].
  rewrite (position_reconstruction N dt p0 v0 a0 js k Hlen Hk),
    (velocity_reconstruction N dt p0 v0 a0 js k Hlen Hk),
    (acceleration_reconstruction N dt p0 v0 a0 js k Hlen Hk), Hr.
  split; [|split]; reflexivity.
Qed.

Lemma kernels_reconstruct_state_witness :
  exists p v a,
    rollout (1 / 20) (0, 1, 2) (take 2 [3; 4]) = (p, v, a)
    /\ vadd (p_free 2 (1 / 20) 0 1 2)
            (matvec (_build_A_pos_from_jerk 2 (1 / 20)) [3; 4]) !! 1%nat
       = Some p
    /\ vadd (v_free 2 (1 / 20) 1 2)
            (matvec (_build_A_vel_from_jerk 2 (1 / 20)) [3; 4]) !! 1%nat
       = Some v
    /\ vadd (a_free 2 2) (matvec (_build_A_acc 2 (1 / 20)) [3; 4]) !! 1%nat
       = Some a.
Proof.
  apply (kernels_reconstruct_state 2 (1 / 20) 0 1 2 [3; 4] 1);
    [reflexivity | lia].
Defined.

End DynamicsProperties.

(** ** Further facts: the moving frame and the range of the lookups *)

Module FrameFacts.
Import Np RefPath RefPathFacts ClosestFacts TableFacts.

Lemma sq_norm (v : point) : norm v * norm v = v.1 ^ 2 + v.2 ^ 2.
Proof.
  unfold norm. apply sqrt_sqrt.
  pose proof (pow2_ge_0 v.1). pose proof (pow2_ge_0 v.2). lra.
Qed.

Lemma norm_one (v : point) : v.1 ^ 2 + v.2 ^ 2 = 1 -> norm v = 1.
Proof. intros H. unfold norm. rewrite H. apply sqrt_1. Qed.

Lemma pdiv_norm_unit (v : point) : 0 < norm v -> norm (pdiv v (norm v)) = 1.
Proof.
  intros Hpos. apply norm_one. unfold pdiv. cbn [fst snd].
  pose proof (sq_norm v) as Hsq.
  replace ((v.1 / norm v) ^ 2 + (v.2 / norm v) ^ 2)
    with ((v.1 ^ 2 + v.2 ^ 2) / (norm v * norm v)) by (field; lra).
  rewrite <- Hsq. field. lra.
Qed.

Lemma tangent_sq (p : ReferencePath) theta :
  (tangent p theta).1 ^ 2 + (tangent p theta).2 ^ 2 = 1.
Proof.
  unfold tangent. cbv zeta.
  set (t := splev _ _ 1).
  unfold Rltb. destruct (Rlt_dec (norm t) tol_tangent) as [Hs|Hs].
  - cbn [fst snd]. ring.
  - assert (0 < norm t) as Hpos.
    { unfold tol_tangent in Hs.
      assert (0 < 1 / 10 ^ 9) by (apply Rdiv_lt_0_compat; [lra | apply pow_lt; lra]).
      lra. }
    rewrite <- sq_norm. rewrite pdiv_norm_unit by exact Hpos. ring.
Qed.

Lemma Rltb_false_inv a b : Rltb a b = false -> b <= a.
Proof. unfold Rltb. destruct (Rlt_dec a b); [discriminate | lra]. Qed.

Lemma Reqb_false_inv a b : Reqb a b = false -> a <> b.
Proof. unfold Reqb. destruct (Req_dec_T a b); [discriminate | auto]. Qed.

Lemma last_le_lt_length x (xp : list R) :
  (0 < length xp)%nat -> (last_le x xp < length xp)%nat.
Proof.
  intros Hpos. unfold last_le.
  destruct (last_le_from_last x xp 0 0) as [[-> _] | (k & y & -> & Hk & _)].
  - exact Hpos.
  - apply lookup_lt_Some in Hk. lia.
Qed.

(** np.interp returns a value between the least and the greatest entry of
    [fp], whatever the table [xp] *)
Lemma interp_between (xp fp : list R) x lo hi :
  length fp = length xp -> (0 < length xp)%nat ->
  (forall i y, fp !! i = Some y -> lo <= y <= hi) ->
  lo <= interp x xp fp <= hi.
Proof.
  intros Hlen Hpos Hfp.
  assert (forall i, (i < length xp)%nat -> lo <= nth i fp 0 <= hi) as Hnth.
  { intros i Hi. apply (Hfp i). apply lookup_nth_R. lia. }
  unfold interp. cbv zeta.
  destruct (Rltb (nth (length xp - 1) xp 0) x) eqn:E1; [apply Hnth; lia|].
  destruct (Rltb x (nth 0 xp 0)) eqn:E2; [apply Hnth; lia|].
  pose proof (last_le_lt_length x xp Hpos) as Hj.
  destruct (Nat.eqb_spec (last_le x xp) (length xp - 1)) as [E|E];
    [apply Hnth; lia|].
  destruct (Reqb (nth (last_le x xp) xp 0) x) eqn:E3; [apply Hnth; lia|].
  apply Rltb_false_inv in E2.
  unfold last_le in *.
  destruct (last_le_from_last x xp 0 0)
    as [[_ Hall] | (k & y & Hk & Hy & Hyx & Hafter)].
  - exfalso. specialize (Hall O (nth 0 xp 0)).
    rewrite lookup_nth_R in Hall by lia. specialize (Hall eq_refl). lra.
  - rewrite Hk in *. cbn [Nat.add] in *.
    rewrite (nth_lookup_R _ _ _ Hy).
    assert (x < nth (k + 1) xp 0) as Hnext.
    { apply (Hafter (k + 1)%nat); [apply lookup_nth_R; lia | lia]. }
    destruct (Hnth k ltac:(lia)) as [Hl0 Hh0].
    destruct (Hnth (k + 1)%nat ltac:(lia)) as [Hl1 Hh1].
    set (f0 := nth k fp 0) in *. set (f1 := nth (k + 1) fp 0) in *.
    set (b := nth (k + 1) xp 0) in *.
    assert (0 <= (x - y) / (b - y) <= 1) as [Ht0 Ht1].
    { split.
      - apply Rmult_le_pos; [lra | left; apply Rinv_0_lt_compat; lra].
      - apply (Rmult_le_reg_r (b - y)); [lra|].
        unfold Rdiv. rewrite Rmult_assoc, Rinv_l by lra. lra. }
    replace ((f1 - f0) / (b - y) * (x - y) + f0)
      with (f0 + (x - y) / (b - y) * (f1 - f0)) by (field; lra).
    split; nra.
Qed.

Lemma linspace_unit_range n i y :
  linspace 0 1 n !! i = Some y -> 0 <= y <= 1.
Proof.
  intros Hi. pose proof (lookup_lt_Some _ _ _ Hi) as Hlt.
  unfold linspace in Hlt. rewrite length_fmap, length_seq in Hlt.
  rewrite linspace_lookup in Hi by exact Hlt. injection Hi as <-.
  rewrite Rminus_0_r, Rplus_0_l.
  destruct (Nat.eq_dec n 1%nat) as [->|Hn].
  - assert (i = O) as -> by lia. cbn [INR]. lra.
  - assert (0 < INR (n - 1)) as Hpos by (apply lt_0_INR; lia).
    assert (INR i <= INR (n - 1)) as Hle by (apply le_INR; lia).
    pose proof (pos_INR i) as Hi0.
    split.
    + apply Rmult_le_pos; [exact Hi0|].
      apply Rmult_le_pos; [lra | left; apply Rinv_0_lt_compat; exact Hpos].
    + apply (Rmult_le_reg_r (INR (n - 1))); [exact Hpos|].
      unfold Rdiv. rewrite Rmult_assoc, Rmult_assoc, Rinv_l by lra. lra.
Qed.

End FrameFacts.

(** ** Further facts: the shape of the prepared waypoints *)

Module ShapeFacts.
Import Np RefPath RefPathFacts.

Lemma head_insert_ne {A : Type} (l : list A) i x :
  i <> O -> head (<[i := x]> l) = head l.
Proof. destruct l, i; intros H; try reflexivity; contradiction. Qed.

Lemma last_insert_ne {A : Type} (l : list A) i x :
  i <> (length l - 1)%nat -> last (<[i := x]> l) = last l.
Proof.
  intros H. rewrite !last_lookup, length_insert.
  apply list_lookup_insert_ne. lia.
Qed.

Lemma break_collinearity_shape (l : list point) :
  (4 <= length l)%nat ->
  length (break_collinearity l) = length l
  /\ head (break_collinearity l) = head l
  /\ last (break_collinearity l) = last l.
Proof.
  intros Hlen. unfold break_collinearity.
  destruct (3 <=? length l)%nat; [|auto].
  cbv zeta. destruct (Rltb _ tol_dup); [|auto].
  assert (2 <= length l / 2)%nat by (apply Nat.div_le_lower_bound; lia).
  assert (length l / 2 < length l - 1)%nat
    by (apply Nat.Div0.div_lt_upper_bound; lia).
  split; [apply length_insert|].
  split; [apply head_insert_ne; lia | apply last_insert_ne; lia].
Qed.

Lemma add_points_shape (l : list point) :
  (2 <= length l)%nat ->
  (4 <= length (add_offset_point (add_midpoint l)))%nat
  /\ head (add_offset_point (add_midpoint l)) = head l
  /\ last (add_offset_point (add_midpoint l)) = last l.
Proof.
  intros Hlen.
  destruct l as [|a [|b [|c [|d l]]]]; cbn [length] in Hlen; try lia.
  - cbn. repeat split; lia.
  - cbn. repeat split; lia.
  - unfold add_midpoint, add_offset_point. cbn [length Nat.eqb].
    split; [lia | split; reflexivity].
Qed.

Lemma head_remove_consecutive_duplicates (l : list point) :
  head (remove_consecutive_duplicates l) = head l.
Proof.
  rewrite remove_consecutive_duplicates_spec. destruct l; reflexivity.
Qed.

Lemma validated_shape (wps : list raw_point) (l : list point) :
  _validate_and_prepare_waypoints wps = inr l ->
  (4 <= length l)%nat
  /\ head l = head (keep_finite wps)
  /\ last l = last (remove_consecutive_duplicates (keep_finite wps)).
Proof.
  unfold _validate_and_prepare_waypoints.
  destruct wps as [|w wps']; [discriminate|].
  cbv zeta.
  destruct (negb _ && _); [discriminate|].
  set (d := remove_consecutive_duplicates _).
  destruct (Nat.ltb_spec (length d) 2) as [|Hd]; [discriminate|].
  intros H. apply inr_eq_inv in H. subst l.
  destruct (add_points_shape d Hd) as (H4 & Hh & Hl).
  destruct (break_collinearity_shape _ H4) as (-> & -> & ->).
  split; [exact H4|]. split; [|exact Hl].
  rewrite Hh. apply head_remove_consecutive_duplicates.
Qed.

End ShapeFacts.

(** ** Theorems: the reference path *)

Section RefPathProperties.
Import Np RefPath RefPathFacts ClosestFacts TableFacts FrameFacts ShapeFacts
  Samples SamplesFacts SquareFacts.

(** X2.  At every arclength the tangent returned by a path is a unit
    vector (also where the spline derivative degenerates and (1, 0) is
    substituted), the normal is a unit vector perpendicular to it, and the
    normal points to the right of the tangent (their cross product is -1). *)
Theorem frame_orthonormal (p : ReferencePath) (theta : R) :
  norm (tangent p theta) = 1
  /\ norm (normal p theta) = 1
  /\ (tangent p theta).1 * (normal p theta).1
     + (tangent p theta).2 * (normal p theta).2 = 0
  /\ (tangent p theta).1 * (normal p theta).2
     - (tangent p theta).2 * (normal p theta).1 = -1.
Proof.
  pose proof (tangent_sq p theta) as Hsq.
  unfold normal. cbv zeta. cbn [fst snd].
  split; [apply norm_one; exact Hsq|].
  split; [apply norm_one; cbn [fst snd]; lra|].
  split; lra.
Qed.

(** X3.  On a constructed path the arclength-to-parameter lookup returns a
    spline parameter in [0, 1] for every real argument, so no query
    evaluates the spline outside its parameter range. *)
Theorem theta_to_u_in_unit_interval splprep wps s k p (theta : R) :
  init splprep wps s k = inr p -> 0 <= _theta_to_u p theta <= 1.
Proof.
  intros Hinit.
  destruct (table_lengths splprep wps s k p Hinit) as (_ & Hal & Hpos).
  destruct (init_inr _ _ _ _ _ Hinit) as (Hu & _ & _).
  unfold _theta_to_u. cbv zeta.
  apply interp_between; [lia | lia |].
  intros i y Hy. rewrite Hu in Hy. exact (linspace_unit_range _ _ _ Hy).
Qed.

Lemma theta_to_u_in_unit_interval_witness :
  exists p, init fit square 0 1 = inr p /\ 0 <= _theta_to_u p 2 <= 1.
Proof.
  destruct square_constructs as [p Hp]. exists p. split; [exact Hp|].
  exact (theta_to_u_in_unit_interval fit square 0 1 p 2 Hp).
Defined.

(** X4.  On a constructed path, the point at arclength 0 is the start of
    the fitted curve (parameter 0) and the point at arclength total_length
    is its end (parameter 1). *)
Theorem path_end_points splprep wps s k p :
  init splprep wps s k = inr p ->
  call p 0 = splev 0 (tck p) 0
  /\ call p (total_length p) = splev 1 (tck p) 0.
Proof.
  intros Hinit.
  destruct (table_lengths splprep wps s k p Hinit) as (Hxl & Hal & Hpos).
  destruct (init_inr _ _ _ _ _ Hinit) as (Hu & Ha & Ht).
  assert (length (u_dense p) = num_dense) as Hn.
  { rewrite Hu. unfold linspace. rewrite length_fmap, length_seq. reflexivity. }
  split.
  - apply (call_at_table_entry splprep wps s k p Hinit O).
    + rewrite Ha. reflexivity.
    + unfold xy_dense. rewrite list_lookup_fmap, Hu, linspace_lookup
        by (unfold num_dense; lia).
      cbn [fmap option_fmap option_map INR]. f_equal. f_equal. lra.
  - apply (call_at_table_entry splprep wps s k p Hinit (num_dense - 1)).
    + rewrite Ht, Hal, Hn. apply lookup_nth_R. rewrite Hal, Hn.
      unfold num_dense. lia.
    + unfold xy_dense. rewrite list_lookup_fmap, Hu, linspace_lookup
        by (unfold num_dense; lia).
      cbn [fmap option_fmap option_map]. f_equal. f_equal.
      rewrite Rminus_0_r, Rplus_0_l. field.
      apply not_0_INR. unfold num_dense. lia.
Qed.

Lemma path_end_points_witness :
  exists p, init fit square 0 1 = inr p
    /\ call p 0 = splev 0 (tck p) 0
    /\ call p (total_length p) = splev 1 (tck p) 0.
Proof.
  destruct square_constructs as [p Hp]. exists p. split; [exact Hp|].
  exact (path_end_points fit square 0 1 p Hp).
Defined.

(** X5.  Whenever waypoint preparation succeeds it hands the fitter at
    least four points, so the degree asked of the fitter is the degree k
    given to the constructor for every k from 1 to 3 (a cubic fit is never
    reduced for lack of points); the first of the points is the first
    finite waypoint of the input and the last is the last point left by
    duplicate removal: the inserted and the shifted points are interior
    ones. *)
Theorem prepared_waypoints_shape (wps : list raw_point) (l : list point) :
  _validate_and_prepare_waypoints wps = inr l ->
  (4 <= length l)%nat
  /\ (forall k, (1 <= k <= 3)%nat ->
        (if (Nat.min k (length l - 1) <? 1)%nat then 1%nat
         else Nat.min k (length l - 1)) = k)
  /\ head l = head (keep_finite wps)
  /\ last l = last (remove_consecutive_duplicates (keep_finite wps)).
Proof.
  intros Hl. destruct (validated_shape wps l Hl) as (H4 & Hh & Hlast).
  split; [exact H4|]. split; [|split; assumption].
  intros k Hk.
  replace (Nat.min k (length l - 1)) with k by lia.
  destruct (Nat.ltb_spec k 1); [lia | reflexivity].
Qed.

Lemma prepared_waypoints_shape_witness :
  (4 <= length square_points)%nat
  /\ (forall k, (1 <= k <= 3)%nat ->
        (if (Nat.min k (length square_points - 1) <? 1)%nat then 1%nat
         else Nat.min k (length square_points - 1)) = k)
  /\ head square_points = head (keep_finite square)
  /\ last square_points
     = last (remove_consecutive_duplicates (keep_finite square)).
Proof.
  exact (prepared_waypoints_shape square square_points square_validated).
Defined.

End RefPathProperties.

(** ** Further facts: loop removal *)

Module LoopFacts.
Import Np RefPath RefPathFacts Corridor Indices.

Lemma ascending_weaken lo lo' l hi hi' :
  (lo' <= lo)%nat -> (hi <= hi')%nat ->
  ascending lo l hi -> ascending lo' l hi'.
Proof.
  revert lo lo'. induction l as [|i l IH]; intros lo lo' Hlo Hhi; cbn; [auto|].
  intros [Hi Hl]. split; [lia|]. apply (IH (S i) (S i)); [lia | lia | exact Hl].
Qed.

Lemma ascending_snoc lo l i hi :
  (lo <= i < hi)%nat -> ascending lo l i -> ascending lo (l ++ [i]) hi.
Proof.
  revert lo. induction l as [|j l IH]; intros lo Hi; cbn.
  - intros _. split; [lia | exact I].
  - intros [Hj Hl]. split; [lia|]. apply IH; [lia | exact Hl].
Qed.

Lemma ascending_tighten lo l hi x :
  ascending lo l hi -> last l = Some x -> ascending lo l (S x).
Proof.
  revert lo. induction l as [|i l IH]; intros lo; [discriminate|].
  destruct l as [|j l'].
  - cbn. intros [Hi _] [= ->]. split; [lia | exact I].
  - intros [Hi Hl] Hlast. change (last (i :: j :: l')) with (last (j :: l')) in Hlast.
    pose proof (IH (S i) Hl Hlast) as IH'.
    split; [|exact IH']. destruct IH' as [Hj _]. lia.
Qed.

Lemma ascending_last_lt lo l hi x :
  ascending lo l hi -> last l = Some x -> (x < hi)%nat.
Proof.
  revert lo. induction l as [|i l IH]; intros lo; [discriminate|].
  destruct l as [|j l'].
  - cbn. intros [Hi _] [= ->]. lia.
  - intros [_ Hl] Hlast. exact (IH (S i) Hl Hlast).
Qed.

Lemma lookup_at_ (pts : list point) i :
  (i < length pts)%nat -> pts !! i = Some (at_ pts i).
Proof.
  intros Hi. destruct (lookup_lt_is_Some_2 pts i Hi) as [q Hq].
  rewrite Hq. unfold at_. rewrite nth_lookup, Hq. reflexivity.
Qed.

Lemma ascending_sublist (pts : list point) lo l :
  ascending lo l (length pts) ->
  (at_ pts <$> l) `sublist_of` drop lo pts.
Proof.
  revert lo. induction l as [|i l IH]; intros lo; cbn [fmap list_fmap].
  - intros _. apply sublist_nil_l.
  - intros [Hi Hl].
    replace (drop lo pts) with (take (i - lo) (drop lo pts) ++ drop i pts).
    + apply sublist_inserts_l.
      rewrite (drop_S pts (at_ pts i) i) by (apply lookup_at_; lia).
      apply sublist_skip. apply IH. exact Hl.
    + rewrite <- (take_drop (i - lo) (drop lo pts)) at 2.
      rewrite drop_drop. do 2 f_equal. lia.
Qed.

Lemma ascending_sublist0 (pts : list point) l :
  ascending 0 l (length pts) -> (at_ pts <$> l) `sublist_of` pts.
Proof. intros H. exact (ascending_sublist pts 0 l H). Qed.

Lemma ascending_head_last (pts : list point) l x :
  (0 < length pts)%nat ->
  head l = Some O -> last l = Some x -> x = (length pts - 1)%nat ->
  head (at_ pts <$> l) = head pts /\ last (at_ pts <$> l) = last pts.
Proof.
  intros Hpos Hh Hl ->. split.
  - destruct l as [|i l]; [discriminate|]. injection Hh as ->.
    cbn [fmap list_fmap head]. rewrite head_lookup. symmetry.
    apply lookup_at_. exact Hpos.
  - rewrite fmap_last, Hl. cbn [fmap option_fmap option_map].
    rewrite last_lookup.
    replace (Init.Nat.pred (length pts)) with (length pts - 1)%nat by lia.
    symmetry. apply lookup_at_. lia.
Qed.

(** The greedy pass keeps an ascending list of indices that starts at 0 *)
Lemma greedy_indices pts tol m :
  let ci := foldl (try_append pts tol) [O] (seq 1 m) in
  ascending 0 ci (S m) /\ head ci = Some O.
Proof.
  induction m as [|m [IHa IHh]]; cbv zeta.
  - cbn. repeat split; lia.
  - rewrite seq_S, foldl_app. cbn [foldl Nat.add].
    set (ci := foldl (try_append pts tol) [O] (seq 1 m)) in *.
    unfold try_append. cbv zeta.
    match goal with |- context [if ?c then ci else _] => destruct c end.
    + split; [|exact IHh]. apply (ascending_weaken 0 0 ci (S m)); [lia | lia | exact IHa].
    + split.
      * apply ascending_snoc; [lia | exact IHa].
      * destruct ci; [discriminate | exact IHh].
Qed.

Lemma last_nth_nat (l : list nat) :
  l <> [] -> last l = Some (nth (length l - 1) l O).
Proof.
  intros Hl. rewrite last_lookup.
  replace (Init.Nat.pred (length l)) with (length l - 1)%nat by lia.
  destruct (lookup_lt_is_Some_2 l (length l - 1)) as [x Hx].
  { destruct l; [contradiction | cbn; lia]. }
  rewrite Hx, nth_lookup, Hx. reflexivity.
Qed.

(** The indices of the strided fallback *)
Lemma stride_indices step a m hi :
  (0 < step)%nat -> (0 < m -> (a + m - 1) * step < hi)%nat ->
  ascending (a * step) ((fun i => (i * step)%nat) <$> seq a m) hi.
Proof.
  intros Hstep. revert a. induction m as [|m IH]; intros a Hhi; cbn; [exact I|].
  split.
  - specialize (Hhi ltac:(lia)). nia.
  - apply (ascending_weaken (S a * step) _ _ hi hi); [nia | lia |].
    apply IH. intros Hm. specialize (Hhi ltac:(lia)).
    replace (S a + m - 1)%nat with (a + S m - 1)%nat by lia. exact Hhi.
Qed.

Lemma stride_as_indices step (pts : list point) :
  stride step pts
  = at_ pts <$> ((fun i => (i * step)%nat)
                 <$> seq 0 ((length pts + step - 1) / step)).
Proof. unfold stride. rewrite <- list_fmap_compose. reflexivity. Qed.

Lemma point_eqb_eq (a b : point) : point_eqb a b = true -> a = b.
Proof.
  unfold point_eqb, Reqb. destruct a as [a1 a2], b as [b1 b2]. cbn [fst snd].
  destruct (Req_dec_T a1 b1), (Req_dec_T a2 b2); try discriminate.
  intros _. congruence.
Qed.

Lemma last_at_ (l : list point) :
  (0 < length l)%nat -> last l = Some (at_ l (length l - 1)).
Proof.
  intros Hpos. rewrite last_lookup.
  replace (Init.Nat.pred (length l)) with (length l - 1)%nat by lia.
  apply lookup_at_. lia.
Qed.

Lemma remove_loops_spec (pts : list point) tol :
  _remove_loops_from_path pts tol `sublist_of` pts
  /\ head (_remove_loops_from_path pts tol) = head pts
  /\ last (_remove_loops_from_path pts tol) = last pts.
Proof.
  unfold _remove_loops_from_path. cbv zeta.
  destruct (Nat.ltb_spec (length pts) 4) as [|Hn]; [auto|].
  destruct (negb (_has_loop pts tol)); [auto|].
  destruct (greedy_indices pts tol (length pts - 1)) as [Hasc Hhead].
  cbv zeta in Hasc, Hhead.
  set (ci := foldl (try_append pts tol) [O] (seq 1 (length pts - 1))) in *.
  assert (ci <> []) as Hne by (destruct ci; [discriminate | discriminate]).
  replace (S (length pts - 1)) with (length pts) in Hasc by lia.
  set (ci' := if (nth (length ci - 1) ci O =? length pts - 1)%nat
              then ci else ci ++ [(length pts - 1)%nat]).
  assert (ascending 0 ci' (length pts) /\ head ci' = Some O
          /\ last ci' = Some (length pts - 1)%nat) as (Hasc' & Hhead' & Hlast').
  { unfold ci'. destruct (Nat.eqb_spec (nth (length ci - 1) ci O) (length pts - 1)) as [E|E].
    - split; [exact Hasc|]. split; [exact Hhead|].
      rewrite last_nth_nat by exact Hne. f_equal. exact E.
    - split; [|split].
      + apply ascending_snoc; [lia|].
        pose proof (ascending_tighten 0 ci _ _ Hasc (last_nth_nat ci Hne)) as Ht.
        pose proof (ascending_last_lt 0 ci _ _ Hasc (last_nth_nat ci Hne)) as Hlt.
        apply (ascending_weaken 0 0 ci (S (nth (length ci - 1) ci O)));
          [lia | lia | exact Ht].
      + destruct ci; [discriminate | exact Hhead].
      + apply last_snoc. }
  clearbody ci'. clear Hasc Hhead Hne ci.
  destruct (_has_loop (at_ pts <$> ci') tol).
  - (* the strided fallback *)
    set (step := Nat.max 2 (length pts / 20)).
    assert (2 <= step)%nat as Hstep by (unfold step; lia).
    set (m := ((length pts + step - 1) / step)%nat).
    assert (1 <= m)%nat as Hm.
    { unfold m. apply Nat.div_le_lower_bound; lia. }
    assert ((m - 1) * step < length pts)%nat as Hlastidx.
    { pose proof (Nat.Div0.mul_div_le (length pts + step - 1) step) as Hle.
      fold m in Hle. nia. }
    assert (ascending (0 * step) ((fun i => (i * step)%nat) <$> seq 0 m)
              (length pts)) as Hsi
      by (apply stride_indices; [lia | intros _; cbn [Nat.add]; exact Hlastidx]).
    cbn [Nat.mul] in Hsi.
    rewrite stride_as_indices. fold m.
    set (idx := (fun i => (i * step)%nat) <$> seq 0 m) in *.
    assert (head idx = Some O) as Hih.
    { unfold idx. destruct m; [lia|]. reflexivity. }
    assert (length idx = m) as Hil
      by (unfold idx; rewrite length_fmap, length_seq; reflexivity).
    assert (idx <> []) as Hine by (destruct idx; [cbn in Hil; lia | discriminate]).
    destruct ((0 <? length (at_ pts <$> idx))%nat
              && negb (point_eqb (at_ (at_ pts <$> idx)
                                      (length (at_ pts <$> idx) - 1))
                                 (at_ pts (length pts - 1)))) eqn:Hc.
    + apply andb_prop in Hc as [_ Hneq].
      assert (nth (length idx - 1) idx O <> (length pts - 1)%nat) as Hdiff.
      { intros E. rewrite length_fmap in Hneq.
        assert (at_ (at_ pts <$> idx) (length idx - 1) = at_ pts (length pts - 1)) as Heq.
        { unfold at_ at 1. rewrite nth_lookup, list_lookup_fmap.
          pose proof (last_nth_nat idx Hine) as Hl. rewrite last_lookup in Hl.
          replace (Init.Nat.pred (length idx)) with (length idx - 1)%nat in Hl by lia.
          rewrite Hl. cbn [fmap option_fmap option_map default]. rewrite E.
          reflexivity. }
        rewrite Heq in Hneq. unfold point_eqb, Reqb in Hneq.
        destruct (Req_dec_T _ _) as [|c]; [|apply c; reflexivity].
        destruct (Req_dec_T _ _) as [|c]; [discriminate | apply c; reflexivity]. }
      replace ((at_ pts <$> idx) ++ [at_ pts (length pts - 1)])
        with (at_ pts <$> (idx ++ [(length pts - 1)%nat]))
        by (rewrite fmap_app; reflexivity).
      assert (ascending 0 (idx ++ [(length pts - 1)%nat]) (length pts)) as Ha.
      { apply ascending_snoc; [lia|].
        pose proof (ascending_tighten 0 idx _ _ Hsi (last_nth_nat idx Hine)) as Ht.
        pose proof (ascending_last_lt 0 idx _ _ Hsi (last_nth_nat idx Hine)) as Hlt.
        apply (ascending_weaken 0 0 idx (S (nth (length idx - 1) idx O)));
          [lia | lia | exact Ht]. }
      split; [|apply (ascending_head_last pts _ (length pts - 1)); try lia].
      * apply ascending_sublist0. exact Ha.
      * destruct idx; [contradiction | exact Hih].
      * apply last_snoc.
    + split; [|split].
      * apply ascending_sublist0. exact Hsi.
      * destruct idx as [|i idx']; [contradiction|]. injection Hih as ->.
        cbn [fmap list_fmap head]. rewrite head_lookup. symmetry.
        apply lookup_at_. lia.
      * apply andb_false_iff in Hc as [Hc|Hc].
        { rewrite length_fmap, Hil in Hc. apply Nat.ltb_ge in Hc. lia. }
        apply negb_false_iff, point_eqb_eq in Hc.
        rewrite (last_at_ (at_ pts <$> idx)) by (rewrite length_fmap; lia).
        rewrite Hc. symmetry. apply last_at_. lia.
  - split; [|apply (ascending_head_last pts _ (length pts - 1)); try lia; assumption].
    apply ascending_sublist0. exact Hasc'.
Qed.

End LoopFacts.

(** ** Theorems: loop removal *)

Section CorridorProperties.
Import Np RefPath Corridor LoopFacts.

(** X6.  Loop removal only drops points: for every point list and
    tolerance the result is a subsequence of the input (no point is moved,
    added or reordered), so it is no longer than the input and each of its
    points is a point of the input; and it starts and ends with the same
    points as the input, on every branch (short input, no loop found,
    greedy pass, strided fallback). *)
Theorem loop_removal_keeps_end_points (pts : list point) (tol : R) :
  _remove_loops_from_path pts tol `sublist_of` pts
  /\ (length (_remove_loops_from_path pts tol) <= length pts)%nat
  /\ (forall q, q ∈ _remove_loops_from_path pts tol -> q ∈ pts)
  /\ head (_remove_loops_from_path pts tol) = head pts
  /\ last (_remove_loops_from_path pts tol) = last pts.
Proof.
  destruct (remove_loops_spec pts tol) as (Hsub & Hh & Hl).
  split; [exact Hsub|].
  split; [apply sublist_length; exact Hsub|].
  split; [|split; assumption].
  intros q Hq. apply (sublist_submseteq _ _) in Hsub.
  exact (elem_of_submseteq _ _ _ Hq Hsub).
Qed.

End CorridorProperties.

(** ** Further facts: derivative orders *)

Module FitpackFacts.
Import Np RefPath RefPathFacts ClosestFacts TableFacts FrameFacts Fitpack.

Section Degree.

Variable degree_of : Spline -> nat.

Lemma splev_checked_defined u t der :
  (der <= degree_of t)%nat ->
  splev_checked degree_of u t der = Some (splev u t der).
Proof.
  intros H. unfold splev_checked.
  destruct (Nat.leb_spec der (degree_of t)); [reflexivity | lia].
Qed.

Lemma splev_checked_raises u t der :
  (degree_of t < der)%nat -> splev_checked degree_of u t der = None.
Proof.
  intros H. unfold splev_checked.
  destruct (Nat.leb_spec der (degree_of t)); [lia | reflexivity].
Qed.

Lemma newton_checked_defined t px py min_u iters u0 :
  (2 <= degree_of t)%nat ->
  newton_checked degree_of t px py min_u iters u0
  = Some (newton t px py min_u iters u0).
Proof.
  intros Hd. revert u0. induction iters as [|n IH]; intros u0; [reflexivity|].
  cbn [newton_checked newton].
  rewrite !splev_checked_defined by lia. cbn [mbind option_bind].
  destruct (splev u0 t 1) as [c1x c1y]. destruct (splev u0 t 2) as [c2x c2y].
  cbv zeta.
  destruct (Rltb _ tol_den); [reflexivity|].
  destruct (Rltb _ newton_tol); [reflexivity|].
  destruct (Rltb _ newton_tol); [reflexivity|].
  apply IH.
Qed.

Lemma newton_checked_raises t px py min_u iters u0 :
  (degree_of t < 2)%nat ->
  newton_checked degree_of t px py min_u (S iters) u0 = None.
Proof.
  intros Hd. cbn [newton_checked].
  rewrite (splev_checked_raises u0 t 2) by lia.
  destruct (splev_checked degree_of u0 t 0); [|reflexivity].
  destruct (splev_checked degree_of u0 t 1); reflexivity.
Qed.

Lemma find_closest_checked_defined p pos g m :
  (2 <= degree_of (tck p))%nat ->
  find_closest_theta_checked degree_of p pos g m
  = Some (find_closest_theta p pos g m).
Proof.
  intros Hd. unfold find_closest_theta_checked, find_closest_theta.
  destruct pos as [px py]. cbv zeta.
  rewrite newton_checked_defined by exact Hd. reflexivity.
Qed.

Lemma find_closest_checked_raises p pos g m :
  (degree_of (tck p) < 2)%nat ->
  find_closest_theta_checked degree_of p pos g m = None.
Proof.
  intros Hd. unfold find_closest_theta_checked.
  destruct pos as [px py]. cbv zeta. unfold newton_max_iter.
  rewrite newton_checked_raises by exact Hd. reflexivity.
Qed.

Lemma curvature_checked_defined p theta :
  (2 <= degree_of (tck p))%nat ->
  curvature_checked degree_of p theta = Some (curvature p theta).
Proof.
  intros Hd. unfold curvature_checked, curvature. cbv zeta.
  rewrite !splev_checked_defined by lia. cbn [mbind option_bind].
  destruct (splev _ (tck p) 1) as [dx dy].
  destruct (splev _ (tck p) 2) as [ddx ddy]. reflexivity.
Qed.

Lemma curvature_checked_raises p theta :
  (degree_of (tck p) < 2)%nat -> curvature_checked degree_of p theta = None.
Proof.
  intros Hd. unfold curvature_checked. cbv zeta.
  rewrite (splev_checked_raises _ (tck p) 2) by lia.
  destruct (splev_checked degree_of _ (tck p) 1); reflexivity.
Qed.

Lemma tangent_checked_defined p theta :
  (1 <= degree_of (tck p))%nat ->
  tangent_checked degree_of p theta = Some (tangent p theta).
Proof.
  intros Hd. unfold tangent_checked, tangent. cbv zeta.
  rewrite splev_checked_defined by lia. reflexivity.
Qed.

(** The degree of a constructed path: the degree asked for, cut down to
    the number of points, or 1 after the fallback *)
Lemma init_degree splprep wps s k p :
  fits_degree degree_of splprep ->
  init splprep wps s k = inr p ->
  (1 <= degree_of (tck p) <= Nat.max 1 k)%nat.
Proof.
  intros Hfit. unfold init.
  destruct (_validate_and_prepare_waypoints wps) as [e|w]; [discriminate|].
  cbv zeta.
  set (max_k := if (Nat.min k (length w - 1) <? 1)%nat then 1%nat
                else Nat.min k (length w - 1)).
  assert (1 <= max_k <= Nat.max 1 k)%nat as Hk.
  { unfold max_k. destruct (Nat.ltb_spec (Nat.min k (length w - 1)) 1); lia. }
  destruct (splprep w s max_k) as [[t us]|] eqn:E1.
  - intros H. apply inr_eq_inv in H. subst p. cbn [tck].
    rewrite (Hfit _ _ _ _ _ E1). exact Hk.
  - destruct (1 <? max_k)%nat; [|discriminate].
    destruct (splprep w s 1%nat) as [[t us]|] eqn:E2; [|discriminate].
    intros H. apply inr_eq_inv in H. subst p. cbn [tck].
    rewrite (Hfit _ _ _ _ _ E2). lia.
Qed.

End Degree.

(** The projection lands in the arclength range of the path *)
Lemma find_closest_in_range splprep wps s k p pos g m :
  init splprep wps s k = inr p ->
  0 <= find_closest_theta p pos g m <= total_length p.
Proof.
  intros Hinit.
  destruct (table_lengths splprep wps s k p Hinit) as (_ & Hal & Hpos).
  destruct (init_inr _ _ _ _ _ Hinit) as (_ & Ha & Ht).
  pose proof (constructed_nondecreasing _ _ _ _ _ Hinit) as Hmono.
  unfold find_closest_theta. destruct pos as [px py]. cbv zeta.
  apply interp_between; [lia | lia |].
  intros i y Hy.
  assert (arclengths p !! O = Some 0) as H0 by (rewrite Ha; reflexivity).
  assert (arclengths p !! (length (arclengths p) - 1)%nat
          = Some (total_length p)) as Hl.
  { rewrite Ht. apply lookup_nth_R. lia. }
  pose proof (lookup_lt_Some _ _ _ Hy) as Hi.
  split.
  - apply (nondecreasing_le (arclengths p) O i 0 y Hmono); [lia | exact H0 | exact Hy].
  - apply (nondecreasing_le (arclengths p) i (length (arclengths p) - 1) y
             (total_length p) Hmono); [lia | exact Hy | exact Hl].
Qed.

End FitpackFacts.

(** ** Further facts: the sample fitter of degree 3 *)

Module ScenarioFacts.
Import Np RefPath RefPathFacts Fitpack Samples SamplesFacts SquareFacts
  Scenarios.

Lemma fit_degree_three_constructs wps w s :
  _validate_and_prepare_waypoints wps = inr w ->
  exists p, init fit_degree_three wps s 3 = inr p /\ tck p = polyline w.
Proof.
  intros Hw. unfold init. rewrite Hw. cbv zeta.
  destruct (ShapeFacts.validated_shape wps w Hw) as (H4 & _).
  replace (Nat.min 3 (length w - 1)) with 3%nat by lia.
  cbn [Nat.ltb Nat.leb fit_degree_three Nat.eqb].
  eexists. split; reflexivity.
Qed.

Lemma cubic_square_constructs :
  exists p, init fit_degree_three square 0 3 = inr p
    /\ tck p = polyline square_points.
Proof. apply fit_degree_three_constructs. apply square_validated. Qed.

Lemma fits_degree_one : fits_degree degree_one fit.
Proof.
  intros pts s k t us. unfold fit, degree_one.
  destruct (Nat.eqb_spec k 1); [intros _; congruence | discriminate].
Qed.

Lemma fits_degree_three : fits_degree degree_three fit_degree_three.
Proof.
  intros pts s k t us. unfold fit_degree_three, degree_three.
  destruct (Nat.eqb_spec k 3); [intros _; congruence | discriminate].
Qed.

End ScenarioFacts.

(** ** Further facts: the cubic through four points *)

Module CubicFacts.
Import Np NpFacts RefPath RefPathFacts ClosestFacts TableFacts Fitpack
  Samples SamplesFacts SquareFacts Scenarios Cubic.



Lemma staircase_validated :
  _validate_and_prepare_waypoints staircase = inr staircase_points.
Proof.
  unfold _validate_and_prepare_waypoints, staircase.
  cbn [fmap list_fmap finite_point isfinite fst snd andb forallb negb
       keep_finite omap list_omap to_point length Nat.eqb].
  rewrite remove_consecutive_duplicates_spec.
  cbn [distinct_consecutive drop_near].
  rewrite !(norm_unit (psub _ _)) by (unfold psub; cbn [fst snd]; lra).
  unfold tol_dup. rdecide.
  cbn [length Nat.ltb Nat.leb]. unfold add_midpoint, add_offset_point, break_collinearity.
  cbn [length Nat.eqb Nat.leb at_ nth Nat.sub].
  rewrite Rltb_false.
  2:{ unfold psub. cbn [fst snd].
      replace ((1 - 0) * (1 - 0) - (0 - 0) * (2 - 0)) with 1 by ring.
      rewrite Rabs_R1. unfold tol_dup. lra. }
  reflexivity.
Qed.



(** With [fit_cubic], construction succeeds on four prepared points *)
Lemma fit_cubic_constructs wps w :
  _validate_and_prepare_waypoints wps = inr w -> length w = 4%nat ->
  exists p, init fit_cubic wps 0 3 = inr p /\ tck p = interpolating_cubic w.
Proof.
  intros Hw Hlen. unfold init. rewrite Hw. cbv zeta. rewrite Hlen.
  cbn [Nat.sub Nat.min Nat.ltb Nat.leb]. unfold fit_cubic. rewrite Hlen.
  cbn [Nat.eqb andb]. rewrite Reqb_true by reflexivity.
  eexists. split; reflexivity.
Qed.

Lemma fits_degree_cubic : fits_degree degree_three fit_cubic.
Proof.
  intros pts s k t us. unfold fit_cubic, degree_three.
  destruct (Nat.eqb_spec k 3); [intros _; congruence | discriminate].
Qed.





End CubicFacts.

(** ** Theorems: projection onto the path *)

Section ProjectionProperties.
Import Np RefPath RefPathFacts ClosestFacts TableFacts FrameFacts Fitpack
  FitpackFacts Samples SamplesFacts SquareFacts Scenarios ScenarioFacts.

(** X7.  On a constructed path of degree at least 2, find_closest_theta
    returns (it does not raise) for every position, initial guess and
    min_theta, and the arclength it returns lies in [0, total_length]. *)
Theorem closest_theta_in_range (degree_of : Spline -> nat) splprep wps s k p
    (pos : point) (g m : option R) :
  init splprep wps s k = inr p ->
  (2 <= degree_of (tck p))%nat ->
  exists th, find_closest_theta_checked degree_of p pos g m = Some th
    /\ 0 <= th <= total_length p.
Proof.
  intros Hinit Hd. exists (find_closest_theta p pos g m). split.
  - apply find_closest_checked_defined. exact Hd.
  - exact (find_closest_in_range _ _ _ _ _ pos g m Hinit).
Qed.

Lemma closest_theta_in_range_witness :
  exists p, init fit_degree_three square 0 3 = inr p
    /\ (2 <= degree_three (tck p))%nat
    /\ exists th,
         find_closest_theta_checked degree_three p (2, 2) None (Some 1)
         = Some th
         /\ 0 <= th <= total_length p.
Proof.
  destruct cubic_square_constructs as (p & Hp & _). exists p.
  split; [exact Hp|]. split; [unfold degree_three; lia|].
  apply (closest_theta_in_range degree_three fit_degree_three square 0 3 p
           (2, 2) None (Some 1) Hp).
  unfold degree_three. lia.
Defined.

(** X9.  A path constructed with k = 1 has degree 1 (for every fitter that
    returns splines of the degree it is asked for), and on it curvature
    and find_closest_theta raise for every argument, because both ask
    splev for the second derivative; so the steering model raises on every
    input that carries such a path. *)
Theorem linear_path_queries_raise (degree_of : Spline -> nat) splprep minimize
    wps s p :
  fits_degree degree_of splprep ->
  init splprep wps s 1 = inr p ->
  degree_of (tck p) = 1%nat
  /\ (forall theta, curvature_checked degree_of p theta = None)
  /\ (forall pos g m, find_closest_theta_checked degree_of p pos g m = None)
  /\ (forall model_input,
        Model.reference_path model_input = Some p ->
        Model.model degree_of splprep minimize model_input
        = inl Model.DerivativeOrder).
Proof.
  intros Hfit Hinit.
  pose proof (init_degree degree_of splprep wps s 1 p Hfit Hinit) as Hd.
  assert (degree_of (tck p) = 1%nat) as H1 by lia.
  split; [exact H1|]. split; [|split].
  - intros theta. apply curvature_checked_raises. lia.
  - intros pos g m. apply find_closest_checked_raises. lia.
  - intros mi Hmi. unfold Model.model. rewrite Hmi.
    destruct (Model.state_cog mi) as [[[px py] vx] vy]. cbv zeta.
    rewrite find_closest_checked_raises by lia. reflexivity.
Qed.

Lemma linear_path_queries_raise_witness :
  exists p, init fit square 0 1 = inr p
    /\ degree_one (tck p) = 1%nat
    /\ (forall theta, curvature_checked degree_one p theta = None)
    /\ (forall pos g m,
          find_closest_theta_checked degree_one p pos g m = None).
Proof.
  destruct square_constructs as [p Hp]. exists p. split; [exact Hp|].
  destruct (linear_path_queries_raise degree_one fit Scipy.lbfgsb_stationary
              square 0 p fits_degree_one Hp) as (H1 & H2 & H3 & _).
  split; [exact H1|]. split; [exact H2 | exact H3].
Defined.

End ProjectionProperties.

(** ** Further facts: the steering model *)

Module ModelFacts.
Import Np NpFacts RefPath RefPathFacts Scipy Dynamics DynamicsFacts StateFacts Corridor Mpcc
  PlannerFacts Fitpack FitpackFacts.

Lemma diff_vec_lookup (l : vector) k a b :
  l !! k = Some a -> l !! S k = Some b -> diff_vec l !! k = Some (b - a).
Proof.
  revert k. induction l as [|x l IH]; intros k; [discriminate|].
  destruct l as [|y l']; [destruct k; discriminate|].
  destruct k as [|k].
  - cbn. intros [= ->] [= ->]. reflexivity.
  - intros Ha Hb. cbn [diff_vec]. rewrite lookup_cons_ne_0 by lia.
    cbn [Init.Nat.pred]. apply IH; assumption.
Qed.

(** The free responses of [model] are those of [generate_mpcc] *)
Lemma model_p_free n dt p0 v0 a0 :
  (fun t => p0 + v0 * t + (1 / 2) * a0 * t ^ 2) <$> arange_scaled 1 (n + 1) dt
  = p_free n dt p0 v0 a0.
Proof.
  unfold p_free, t2_vec, t_vec.
  rewrite zip_with_fmap_r, zip_with_diag.
  apply list_fmap_ext. intros i t _. cbn. ring.
Qed.

Lemma model_v_free n dt v0 a0 :
  (fun t => v0 + a0 * t) <$> arange_scaled 1 (n + 1) dt = v_free n dt v0 a0.
Proof. reflexivity. Qed.

(** The jerk columns of the controls have one entry per horizon step *)
Lemma controls_columns minimize p st n dt w lim ds cb :
  respects_bounds minimize ->
  length ((fun c : R * R * R => c.1.1)
          <$> fst (generate_mpcc minimize p st n dt w lim ds cb)) = n
  /\ length ((fun c : R * R * R => c.1.2)
             <$> fst (generate_mpcc minimize p st n dt w lim ds cb)) = n.
Proof.
  intros Hsolver. unfold generate_mpcc, unpack_x. cbv zeta. cbn [fst].
  set (x := res_x _).
  assert (length x = (3 * n)%nat) as Hx.
  { unfold x. rewrite <- (bounds_length n). symmetry.
    eapply Forall2_length. apply Hsolver.
    - rewrite bounds_length, x0_guess_length. reflexivity.
    - apply bounds_consistent. }
  rewrite !length_fmap, !length_zip.
  unfold smul, idx_jx, idx_jy, idx_vs.
  rewrite !length_fmap, !length_take, !length_drop. lia.
Qed.

(** Positions and velocities of the plan, at every step from 0 on *)
Lemma plan_positions n dt p0 v0 a0 (js : vector) k :
  length js = n -> (k <= n)%nat ->
  (p0 :: vadd (p_free n dt p0 v0 a0)
              (matvec (_build_A_pos_from_jerk n dt) js)) !! k
  = Some (fst (fst (rollout dt (p0, v0, a0) (take k js)))).
Proof.
  intros Hlen Hk. destruct k as [|k]; [reflexivity|].
  rewrite lookup_cons_ne_0 by lia. cbn [Init.Nat.pred].
  apply position_reconstruction; [exact Hlen | lia].
Qed.

Lemma plan_velocities n dt p0 v0 a0 (js : vector) k :
  length js = n -> (k <= n)%nat ->
  (v0 :: vadd (v_free n dt v0 a0)
              (matvec (_build_A_vel_from_jerk n dt) js)) !! k
  = Some (snd (fst (rollout dt (p0, v0, a0) (take k js)))).
Proof.
  intros Hlen Hk. destruct k as [|k]; [reflexivity|].
  rewrite lookup_cons_ne_0 by lia. cbn [Init.Nat.pred].
  apply velocity_reconstruction; [exact Hlen | lia].
Qed.

Lemma plan_displacements n dt p0 v0 a0 (js : vector) k :
  length js = n -> (k < n)%nat ->
  diff_vec (p0 :: vadd (p_free n dt p0 v0 a0)
                       (matvec (_build_A_pos_from_jerk n dt) js)) !! k
  = Some (fst (fst (rollout dt (p0, v0, a0) (take (S k) js)))
          - fst (fst (rollout dt (p0, v0, a0) (take k js)))).
Proof.
  intros Hlen Hk. apply diff_vec_lookup.
  - apply plan_positions; [exact Hlen | lia].
  - apply plan_positions; [exact Hlen | lia].
Qed.

(** A successful run of [model], taken apart *)
Lemma model_inr degree_of splprep minimize mi px py vx vy ci dbg :
  Model.state_cog mi = (px, py, vx, vy) ->
  Model.model degree_of splprep minimize mi = inr (ci, dbg) ->
  exists ref_path theta_0 w lim ds cb,
    let n := Model.pred_horizon mi in
    let dt := Model.interval mi in
    let a0 := default (0, 0) (Model.current_acc mi) in
    let controls :=
      fst (generate_mpcc minimize ref_path
             (px, py, vx, vy, a0.1, a0.2, theta_0) n dt w lim ds cb) in
    let jx := (fun c : R * R * R => c.1.1) <$> controls in
    let jy := (fun c : R * R * R => c.1.2) <$> controls in
    match Model.reference_path mi with
    | Some ref_path => inr ref_path
    | None => init splprep (Model.tunnel_path mi) 0 3
    end = inr ref_path
    /\ find_closest_theta_checked degree_of ref_path (px, py) None None
       = Some theta_0
    /\ Model.theta dbg = theta_0
    /\ Model.target_waypoint dbg = call ref_path theta_0
    /\ Model.c_vel_x ci
       = vx :: vadd (v_free n dt vx a0.1)
                    (matvec (_build_A_vel_from_jerk n dt) jx)
    /\ Model.c_vel_y ci
       = vy :: vadd (v_free n dt vy a0.2)
                    (matvec (_build_A_vel_from_jerk n dt) jy)
    /\ Model.c_pos_dx ci
       = diff_vec (px :: vadd (p_free n dt px vx a0.1)
                              (matvec (_build_A_pos_from_jerk n dt) jx))
    /\ Model.c_pos_dy ci
       = diff_vec (py :: vadd (p_free n dt py vy a0.2)
                              (matvec (_build_A_pos_from_jerk n dt) jy)).
Proof.
  intros Hst. unfold Model.model. rewrite Hst. cbv zeta.
  destruct (match Model.reference_path mi with
            | Some ref_path => inr ref_path
            | None => init splprep (Model.tunnel_path mi) 0 3
            end) as [e|ref_path] eqn:Hpath; [discriminate|].
  destruct (find_closest_theta_checked degree_of ref_path (px, py) None None)
    as [theta_0|] eqn:Hth; [|discriminate].
  destruct (default (0, 0) (Model.current_acc mi)) as [ax0 ay0] eqn:Ha.
  intros Hret.
  match type of Hret with
  | context [generate_mpcc minimize ref_path ?st ?n ?dt ?w ?lim ?ds ?cb] =>
      exists ref_path, theta_0, w, lim, ds, cb;
      destruct (generate_mpcc minimize ref_path st n dt w lim ds cb)
        as [controls info] eqn:Hg
  end.
  apply inr_eq_inv in Hret. injection Hret as <- <-.
  cbv zeta. cbn [fst snd]. rewrite Hg.
  cbn [fst snd Model.theta Model.target_waypoint Model.c_vel_x Model.c_vel_y
       Model.c_pos_dx Model.c_pos_dy].
  rewrite !model_p_free.
  split; [reflexivity|]. split; [exact Hth|].
  split; [reflexivity|]. split; [reflexivity|]. split; [reflexivity|].
  split; [reflexivity|]. split; reflexivity.
Qed.

(** [model] returns on every input whose path has degree at least 2 *)
Lemma model_defined degree_of splprep minimize mi p :
  match Model.reference_path mi with
  | Some ref_path => inr ref_path
  | None => init splprep (Model.tunnel_path mi) 0 3
  end = inr p ->
  (2 <= degree_of (tck p))%nat ->
  exists ci dbg, Model.model degree_of splprep minimize mi = inr (ci, dbg).
Proof.
  intros Hp Hd. unfold Model.model.
  destruct (Model.state_cog mi) as [[[px py] vx] vy]. cbv zeta.
  rewrite Hp. rewrite find_closest_checked_defined by exact Hd.
  destruct (default (0, 0) (Model.current_acc mi)) as [ax0 ay0].
  destruct (generate_mpcc _ _ _ _ _ _ _ _ _) as [controls info].
  eexists _, _. reflexivity.
Qed.

End ModelFacts.

(** ** Theorems: the steering model *)

Section ModelProperties.
Import Np RefPath RefPathFacts Scipy Dynamics Corridor Mpcc PlannerFacts
  Fitpack FitpackFacts ModelFacts Samples SamplesFacts Scenarios
  ScenarioFacts Cubic CubicFacts.

(** X10.  Whenever the steering model returns, for a solver that keeps its
    answer within its bounds, its plan is a trajectory of the discrete jerk
    dynamics that starts at the current cursor state: there are jerk
    sequences jx, jy of horizon length such that c_vel_x[k], c_vel_y[k]
    (k = 0 .. N) are the velocities after the first k jerks, beginning with
    the current velocity, and c_pos_dx[k], c_pos_dy[k] (k < N) are the
    position increments of step k.  The reported theta is what
    find_closest_theta returns for the cursor position on the path of the
    input (the reference path it carries, or else the path constructed from
    its tunnel path with s = 0 and k = 3), and the target waypoint is the
    point of that path at theta. *)
Theorem model_plan_follows_dynamics (degree_of : Spline -> nat) splprep
    minimize model_input (px py vx vy : R) ci dbg :
  respects_bounds minimize ->
  Model.state_cog model_input = (px, py, vx, vy) ->
  Model.model degree_of splprep minimize model_input = inr (ci, dbg) ->
  let N := Model.pred_horizon model_input in
  let dt := Model.interval model_input in
  let a0 := default (0, 0) (Model.current_acc model_input) in
  exists (jx jy : vector) ref_path,
    match Model.reference_path model_input with
    | Some given => inr given
    | None => init splprep (Model.tunnel_path model_input) 0 3
    end = inr ref_path
    /\ length jx = N /\ length jy = N
    /\ find_closest_theta_checked degree_of ref_path (px, py) None None
       = Some (Model.theta dbg)
    /\ Model.target_waypoint dbg = call ref_path (Model.theta dbg)
    /\ (forall k, (k <= N)%nat ->
          Model.c_vel_x ci !! k
          = Some (snd (fst (rollout dt (px, vx, a0.1) (take k jx))))
          /\ Model.c_vel_y ci !! k
             = Some (snd (fst (rollout dt (py, vy, a0.2) (take k jy)))))
    /\ (forall k, (k < N)%nat ->
          Model.c_pos_dx ci !! k
          = Some (fst (fst (rollout dt (px, vx, a0.1) (take (S k) jx)))
                  - fst (fst (rollout dt (px, vx, a0.1) (take k jx))))
          /\ Model.c_pos_dy ci !! k
             = Some (fst (fst (rollout dt (py, vy, a0.2) (take (S k) jy)))
                     - fst (fst (rollout dt (py, vy, a0.2) (take k jy))))).
Proof.
  intros Hsolver Hst Hmodel N dt a0.
  destruct (model_inr degree_of splprep minimize model_input px py vx vy ci
              dbg Hst Hmodel)
    as (ref_path & theta_0 & w & lim & ds & cb & Hpath & Hth & Htheta
        & Htarget & Hvx & Hvy & Hdx & Hdy).
  cbv zeta in Hvx, Hvy, Hdx, Hdy. fold N dt a0 in Hvx, Hvy, Hdx, Hdy.
  destruct (controls_columns minimize ref_path
              (px, py, vx, vy, a0.1, a0.2, theta_0) N dt w lim ds cb Hsolver)
    as [Hjx Hjy].
  eexists _, _, ref_path.
  split; [exact Hpath|].
  split; [exact Hjx|]. split; [exact Hjy|].
  split; [rewrite Htheta; exact Hth|].
  split; [rewrite Htheta; exact Htarget|].
  split.
  - intros k Hk. rewrite Hvx, Hvy. split.
    + apply plan_velocities; [exact Hjx | exact Hk].
    + apply plan_velocities; [exact Hjy | exact Hk].
  - intros k Hk. rewrite Hdx, Hdy. split.
    + apply plan_displacements; [exact Hjx | exact Hk].
    + apply plan_displacements; [exact Hjy | exact Hk].
Qed.

Lemma model_plan_follows_dynamics_witness :
  exists ci dbg,
    Model.model degree_three fit_cubic lbfgsb_stationary staircase_input
    = inr (ci, dbg)
    /\ exists (jx jy : vector) ref_path,
         init fit_cubic staircase 0 3 = inr ref_path
         /\ length jx = 2%nat /\ length jy = 2%nat
         /\ find_closest_theta_checked degree_three ref_path (0, 0) None None
            = Some (Model.theta dbg)
         /\ Model.target_waypoint dbg = call ref_path (Model.theta dbg)
         /\ (forall k, (k <= 2)%nat ->
               Model.c_vel_x ci !! k
               = Some (snd (fst (rollout (1 / 20) (0, 0, 0) (take k jx))))
               /\ Model.c_vel_y ci !! k
                  = Some (snd (fst (rollout (1 / 20) (0, 0, 0) (take k jy)))))
         /\ (forall k, (k < 2)%nat ->
               Model.c_pos_dx ci !! k
               = Some (fst (fst (rollout (1 / 20) (0, 0, 0) (take (S k) jx)))
                       - fst (fst (rollout (1 / 20) (0, 0, 0) (take k jx))))
               /\ Model.c_pos_dy ci !! k
                  = Some (fst (fst (rollout (1 / 20) (0, 0, 0)
                                      (take (S k) jy)))
                          - fst (fst (rollout (1 / 20) (0, 0, 0)
                                        (take k jy))))).
Proof.
  destruct (fit_cubic_constructs staircase staircase_points
              staircase_validated eq_refl) as (p & Hp & _).
  destruct (model_defined degree_three fit_cubic lbfgsb_stationary
              staircase_input p Hp ltac:(unfold degree_three; lia))
    as (ci & dbg & Hm).
  exists ci, dbg. split; [exact Hm|].
  exact (model_plan_follows_dynamics degree_three fit_cubic
           lbfgsb_stationary staircase_input 0 0 0 0 ci dbg
           stationary_respects_bounds eq_refl Hm).
Defined.

End ModelProperties.

(** ** Further facts: the noise model in closed form *)

Module NoiseFormFacts.
Import Np RefPath RefPathFacts FrameFacts Noise NoiseFacts.

Lemma tiny_pos : 0 < tiny.
Proof. unfold tiny. apply Rinv_0_lt_compat. apply pow_lt. lra. Qed.

Lemma guarded_gain_pos mouse speed : 0 < guarded_gain mouse speed.
Proof.
  unfold guarded_gain. cbv zeta. unfold np_isfinite. cbn [negb orb].
  pose proof tiny_pos as Ht.
  unfold Rltb. destruct (Rlt_dec _ tiny); lra.
Qed.

Lemma device_velocity_eq mouse vx vy :
  device_velocity mouse vx vy
  = (vx * (1 / guarded_gain mouse (sqrt (vx ^ 2 + vy ^ 2))),
     vy * (1 / guarded_gain mouse (sqrt (vx ^ 2 + vy ^ 2)))).
Proof. reflexivity. Qed.

(** v + n_dir * dir(v) + n_per * perp(dir(v)) for the noise magnitudes of
    the source, in coordinates *)
Lemma noisy_device_velocity (v : point) (a b : R) :
  padd (padd v (pscale (velocity_direction v) (a * Rabs (norm v))))
       (pscale (- (velocity_direction v).2, (velocity_direction v).1)
               (b * Rabs (norm v)))
  = ((1 + a) * v.1 - b * v.2, (1 + a) * v.2 + b * v.1).
Proof.
  unfold velocity_direction. cbv zeta.
  pose proof (norm_nonneg v) as Hn.
  unfold Reqb. destruct (Req_dec_T (norm v) 0) as [Hz|Hnz].
  - apply norm_zero_inv in Hz. subst v. unfold padd, pscale. cbn [fst snd].
    f_equal; ring.
  - rewrite Rabs_right by lra.
    unfold padd, pscale, pdiv. cbn [fst snd]. f_equal; field; exact Hnz.
Qed.

Lemma tiny_small : tiny < 1 / 10 ^ 50.
Proof.
  assert (10 ^ 50 < 2 ^ 1022) as H.
  { apply Rle_lt_trans with (2 ^ 200).
    - change 200%nat with (4 * 50)%nat. rewrite pow_mult.
      replace (2 ^ 4) with 16 by ring. apply pow_incr. lra.
    - apply Rlt_pow; [lra | lia]. }
  assert (0 < 10 ^ 50) as H10 by (apply pow_lt; lra).
  unfold tiny. unfold Rdiv. rewrite Rmult_1_l.
  apply Rinv_lt_contravar; [|exact H].
  apply Rmult_lt_0_compat; [exact H10 | lra].
Qed.

(** The velocity a step returns, in terms of its two samples *)
Lemma step_velocity mouse limb (sn : Z -> nat -> R) g vx vy hx hy nc dt fa :
  let r := fst (single_step_motor_and_device_noise mouse limb sn g
                  vx vy hx hy nc dt fa) in
  let z1 := sn (seed g) (position g) in
  let z2 := sn (seed g) (S (position g)) in
  c_vel_x_out r = (1 + nc.1 * z1) * vx - nc.2 * z2 * vy
  /\ c_vel_y_out r = (1 + nc.1 * z1) * vy + nc.2 * z2 * vx.
Proof.
  cbv zeta.
  unfold single_step_motor_and_device_noise, np_random_normal. cbv zeta.
  destruct (mouse_noise limb _ _ _ _ _ _ _) as [[[a b] hxi] hyi].
  cbn [seed position].
  set (z1 := sn (seed g) (position g)).
  set (z2 := sn (seed g) (S (position g))).
  set (v := device_velocity mouse vx vy).
  replace (nc.1 * Rabs (norm v) * z1) with (nc.1 * z1 * Rabs (norm v)) by ring.
  replace (nc.2 * Rabs (norm v) * z2) with (nc.2 * z2 * Rabs (norm v)) by ring.
  rewrite noisy_device_velocity. cbn [fst snd].
  set (G := guarded_gain mouse (sqrt (vx ^ 2 + vy ^ 2))).
  assert (0 < G) as HG by apply guarded_gain_pos.
  assert (v = (vx * (1 / G), vy * (1 / G))) as Hv by reflexivity.
  destruct (Rltb _ _ || Rltb _ _).
  - destruct (rot_mat mouse _ _ _) as [hand_dx hand_dy].
    destruct (get_cursor_displacement mouse _ _ _ _) as [mouse_dx mouse_dy].
    cbn [fst c_vel_x_out c_vel_y_out np_isfinite negb]. rewrite Hv.
    cbn [fst snd]. split; field; lra.
  - cbn [fst c_vel_x_out c_vel_y_out np_isfinite negb]. rewrite Hv.
    cbn [fst snd]. split; field; lra.
Qed.

(** Each coordinate of a vector is at most its length *)
Lemma coordinates_le_speed (vx vy : R) :
  Rabs vx <= sqrt (vx ^ 2 + vy ^ 2) /\ Rabs vy <= sqrt (vx ^ 2 + vy ^ 2).
Proof.
  split.
  - rewrite <- (sqrt_Rsqr_abs vx). apply sqrt_le_1_alt. unfold Rsqr. nra.
  - rewrite <- (sqrt_Rsqr_abs vy). apply sqrt_le_1_alt. unfold Rsqr. nra.
Qed.

End NoiseFormFacts.

(** ** Theorems: the noise model in closed form *)

Section NoiseProperties.
Import Np RefPath RefPathFacts Noise NoiseFacts NoiseFormFacts Samples.

(** X11.  In the range where the float computation neither overflows nor
    underflows (speed 0 or between 1e-50 and 1e50, gain between 1e-50 and
    1e50, noise coefficients and samples at most 1e50 in size) the
    edge-case guard leaves the gain as it is, and the velocity returned by
    one noise step is the input velocity stretched along itself by the
    first sample and sheared sideways by the second:
    v_out = (1 + nc[0] z1) v + nc[1] z2 perp(v) with perp(v) = (-vy, vx),
    where z1, z2 are the two consecutive samples drawn.  The mouse gain
    cancels, and the result stays below 3e150 in size, so the final guards
    do not replace it. *)
Theorem noisy_velocity_closed_form mouse limb (standard_normal : Z -> nat -> R)
    (g : rng) (vx vy h_pos_x h_pos_y : R) (nc : R * R) (interval forearm : R) :
  let speed := sqrt (vx ^ 2 + vy ^ 2) in
  let gain := gain_func_can mouse speed in
  let z1 := standard_normal (seed g) (position g) in
  let z2 := standard_normal (seed g) (S (position g)) in
  let r := fst (single_step_motor_and_device_noise mouse limb standard_normal
                  g vx vy h_pos_x h_pos_y nc interval forearm) in
  speed = 0 \/ 1 / 10 ^ 50 <= speed <= 10 ^ 50 ->
  1 / 10 ^ 50 <= gain <= 10 ^ 50 ->
  Rabs nc.1 <= 10 ^ 50 -> Rabs nc.2 <= 10 ^ 50 ->
  Rabs z1 <= 10 ^ 50 -> Rabs z2 <= 10 ^ 50 ->
  guarded_gain mouse speed = gain
  /\ c_vel_x_out r = (1 + nc.1 * z1) * vx - nc.2 * z2 * vy
  /\ c_vel_y_out r = (1 + nc.1 * z1) * vy + nc.2 * z2 * vx
  /\ Rabs (c_vel_x_out r) <= 3 * 10 ^ 150
  /\ Rabs (c_vel_y_out r) <= 3 * 10 ^ 150.
Proof.
  intros speed gain z1 z2 r Hspeed Hgain Hn1 Hn2 Hz1 Hz2.
  destruct (step_velocity mouse limb standard_normal g vx vy h_pos_x h_pos_y
              nc interval forearm) as [Hx Hy].
  cbv zeta in Hx, Hy. fold r z1 z2 in Hx, Hy.
  split.
  { unfold guarded_gain. cbv zeta. fold gain. unfold np_isfinite.
    cbn [negb orb]. pose proof tiny_small.
    rewrite Rltb_false by lra. reflexivity. }
  split; [exact Hx|]. split; [exact Hy|].
  rewrite Hx, Hy.
  destruct (coordinates_le_speed vx vy) as [Hvx Hvy]. fold speed in Hvx, Hvy.
  set (K := 10 ^ 50) in *.
  assert (1 <= K) as HK by (unfold K; apply pow_R1_Rle; lra).
  replace (10 ^ 150) with (K * K * K)
    by (unfold K; rewrite <- !pow_add; reflexivity).
  assert (Rabs (nc.1 * z1) <= K * K) as Ha.
  { rewrite Rabs_mult. pose proof (Rabs_pos nc.1). pose proof (Rabs_pos z1).
    nra. }
  assert (Rabs (nc.2 * z2) <= K * K) as Hb.
  { rewrite Rabs_mult. pose proof (Rabs_pos nc.2). pose proof (Rabs_pos z2).
    nra. }
  assert (0 <= speed <= K) as HS.
  { destruct Hspeed as [->|[Hlo Hhi]]; [lra|].
    split; [|exact Hhi].
    assert (0 < 1 / K) by (apply Rdiv_lt_0_compat; lra). lra. }
  set (a := nc.1 * z1) in *. set (b := nc.2 * z2) in *.
  pose proof (Rabs_pos vx) as Hpx. pose proof (Rabs_pos vy) as Hpy.
  pose proof (Rabs_pos a) as Hpa. pose proof (Rabs_pos b) as Hpb.
  assert (forall p q, Rabs ((1 + a) * p + b * q)
                      <= (1 + Rabs a) * Rabs p + Rabs b * Rabs q) as Htri.
  { intros p q. eapply Rle_trans; [apply Rabs_triang|].
    rewrite !Rabs_mult.
    pose proof (Rabs_triang 1 a) as H1. rewrite Rabs_R1 in H1.
    pose proof (Rabs_pos p). pose proof (Rabs_pos q). nra. }
  split.
  - replace ((1 + a) * vx - b * vy) with ((1 + a) * vx + b * (- vy)) by ring.
    eapply Rle_trans; [apply Htri|]. rewrite Rabs_Ropp. nra.
  - eapply Rle_trans; [apply Htri|]. nra.
Qed.

Lemma noisy_velocity_closed_form_witness :
  let r := fst (single_step_motor_and_device_noise unit_mouse still_limb
                  alternating_stream (np_random_seed 1000) (1 / 10) 0 0 0
                  (1 / 5, 1 / 50) (1 / 20) (357 / 1000)) in
  guarded_gain unit_mouse (sqrt ((1 / 10) ^ 2 + 0 ^ 2)) = 1
  /\ c_vel_x_out r = 3 / 25
  /\ c_vel_y_out r = - (1 / 500).
Proof.
  assert (sqrt ((1 / 10) ^ 2 + 0 ^ 2) = 1 / 10) as Hs.
  { change (sqrt ((1 / 10) ^ 2 + 0 ^ 2)) with (norm (1 / 10, 0)).
    apply norm_axis. lra. }
  assert (1 <= 10 ^ 50) as HK by (apply pow_R1_Rle; lra).
  assert (0 < 1 / 10 ^ 50 <= 1 / 10) as Hk.
  { split; [apply Rdiv_lt_0_compat; lra|].
    apply Rle_trans with (1 / 10 ^ 1); [|lra].
    unfold Rdiv. rewrite !Rmult_1_l. apply Rinv_le_contravar; [lra|].
    apply Rle_pow; [lra | lia]. }
  destruct (noisy_velocity_closed_form unit_mouse still_limb
              alternating_stream (np_random_seed 1000) (1 / 10) 0 0 0
              (1 / 5, 1 / 50) (1 / 20) (357 / 1000))
    as (Hg & Hx & Hy & _).
  - right. rewrite Hs. lra.
  - cbn [gain_func_can unit_mouse]. lra.
  - cbn [fst]. rewrite Rabs_pos_eq by lra. lra.
  - cbn [snd]. rewrite Rabs_pos_eq by lra. lra.
  - cbn [np_random_seed seed position alternating_stream Nat.even].
    apply Rabs_le. lra.
  - cbn [np_random_seed seed position alternating_stream Nat.even].
    apply Rabs_le. lra.
  - cbv zeta. split; [exact Hg|].
    rewrite Hx, Hy.
    cbn [np_random_seed seed position alternating_stream Nat.even fst snd].
    split; lra.
Defined.

End NoiseProperties.

(** ** Further facts: the tracking error in the path frame *)

Module TrackingFacts.
Import Np RefPath RefPathFacts FrameFacts Mpcc.

Lemma Rmax_zero_of_nonpos x : x <= 0 -> Rmax 0 x = 0.
Proof. intros H. apply Rmax_left. exact H. Qed.

(** Rotating a vector into an orthonormal frame keeps its length *)
Lemma frame_pythagoras (t e : point) :
  t.1 ^ 2 + t.2 ^ 2 = 1 ->
  (t.2 * e.1 + - t.1 * e.2) ^ 2 + (- t.1 * e.1 + - t.2 * e.2) ^ 2
  = e.1 ^ 2 + e.2 ^ 2.
Proof.
  intros Ht.
  replace ((t.2 * e.1 + - t.1 * e.2) ^ 2 + (- t.1 * e.1 + - t.2 * e.2) ^ 2)
    with ((t.1 ^ 2 + t.2 ^ 2) * (e.1 ^ 2 + e.2 ^ 2)) by ring.
  rewrite Ht. ring.
Qed.

End TrackingFacts.

(** ** Theorems: the tracking cost *)

Section TrackingProperties.
Import Np RefPath RefPathFacts FrameFacts Mpcc TrackingFacts.

(** X12.  In the planner's tracking cost at one horizon step, with e the
    position error pos - ref: the contour error is the component of e along
    the path's normal() (the right-pointing normal of ReferencePath), the
    lag error is minus its component along tangent(), and the squares of
    the two add up to the squared distance |e|^2; the cost without a
    corridor is w_contour e_c^2 + w_lag e_l^2; a corridor adds
    w_wall (max(0, e_c - w_left)^2 + max(0, -e_c - w_right)^2), which is
    never negative for w_wall >= 0 and is zero whenever
    -w_right <= e_c <= w_left. *)
Theorem tracking_cost_in_path_frame (p : ReferencePath)
    (weights : option (gmap string R)) (pos ref : point) (s : R)
    (b_left b_right : bound_input) :
  let e := psub pos ref in
  let e_c := e.1 * (normal p s).1 + e.2 * (normal p s).2 in
  let e_l := - (e.1 * (tangent p s).1 + e.2 * (tangent p s).2) in
  e_c ^ 2 + e_l ^ 2 = e.1 ^ 2 + e.2 ^ 2
  /\ tracking_term p weights None pos ref s
     = w_contour weights * e_c ^ 2 + w_lag weights * e_l ^ 2
  /\ tracking_term p weights (Some (b_left, b_right)) pos ref s
     = tracking_term p weights None pos ref s
       + w_corridor weights
         * (Rmax 0 (e_c - resolve b_left s) ^ 2
            + Rmax 0 (- e_c - resolve b_right s) ^ 2)
  /\ (0 <= w_corridor weights ->
      tracking_term p weights None pos ref s
      <= tracking_term p weights (Some (b_left, b_right)) pos ref s)
  /\ (- resolve b_right s <= e_c <= resolve b_left s ->
      tracking_term p weights (Some (b_left, b_right)) pos ref s
      = tracking_term p weights None pos ref s).
Proof.
  cbv zeta. unfold tracking_term, normal. cbv zeta. cbn [fst snd].
  pose proof (tangent_sq p s) as Ht.
  set (t := tangent p s) in *. set (e := psub pos ref).
  replace (e.1 * t.2 + e.2 * - t.1) with (t.2 * e.1 + - t.1 * e.2) by ring.
  replace (- (e.1 * t.1 + e.2 * t.2)) with (- t.1 * e.1 + - t.2 * e.2) by ring.
  set (e_c := t.2 * e.1 + - t.1 * e.2). set (e_l := - t.1 * e.1 + - t.2 * e.2).
  split; [apply frame_pythagoras; exact Ht|].
  split; [reflexivity|]. split; [reflexivity|]. split.
  - intros Hw.
    pose proof (pow2_ge_0 (Rmax 0 (e_c - resolve b_left s))).
    pose proof (pow2_ge_0 (Rmax 0 (- e_c - resolve b_right s))).
    nra.
  - intros [Hr Hl].
    rewrite (Rmax_zero_of_nonpos (e_c - resolve b_left s)) by lra.
    rewrite (Rmax_zero_of_nonpos (- e_c - resolve b_right s)) by lra.
    ring.
Qed.

End TrackingProperties.

(** ** Further facts: constraints and corridor bounds *)

Module ConstraintFacts.
Import Np RefPath RefPathFacts FrameFacts TableFacts Constraints Regions.

Lemma minus_margin_error x m e : minus_margin x m = inl e -> e = TypeError /\ m = None.
Proof. destruct m; cbn; [discriminate|]. intros [= <-]. auto. Qed.

(** The only exception of the loop body is the TypeError of a missing
    margin *)
Lemma region_bounds_error pp n m lr region e :
  region_bounds pp n m lr region = inl e ->
  e = TypeError /\ margin region = None /\ reached pp region = true.
Proof.
  unfold region_bounds, reached. cbv zeta.
  destruct (geometry region) as [path [w|]|vs|c rad|x y w h];
    try discriminate.
  - destruct (minus_margin _ _) eqn:E; [|discriminate].
    intros [= <-]. apply minus_margin_error in E as [-> ->]. auto.
  - destruct (constraint_type region).
    + destruct (Rltb _ rad); [|discriminate].
      destruct (Rltb _ 0);
        (destruct (minus_margin _ _) eqn:E; [|discriminate]);
        intros [= <-]; apply minus_margin_error in E as [-> ->]; auto.
    + destruct (Rltb _ rad); [|discriminate].
      destruct (minus_margin _ _) eqn:E; [|discriminate].
      intros [= <-]. apply minus_margin_error in E as [-> ->]. auto.
  - destruct (_ && _); [|discriminate].
    destruct (constraint_type region);
      (destruct (minus_margin _ _) eqn:E;
       [|try destruct (Rltb _ _); discriminate]);
      intros [= <-]; apply minus_margin_error in E as [-> ->]; auto.
Qed.

Lemma region_bounds_raises pp n m lr region :
  margin region = None -> reached pp region = true ->
  region_bounds pp n m lr region = inl TypeError.
Proof.
  unfold region_bounds, reached. cbv zeta. intros ->.
  destruct (geometry region) as [path [w|]|vs|c rad|x y w h];
    try discriminate.
  - reflexivity.
  - intros ->. destruct (constraint_type region); [|reflexivity].
    destruct (Rltb _ 0); reflexivity.
  - intros ->. destruct (constraint_type region); reflexivity.
Qed.

Lemma region_bounds_passed_over pp n m lr region :
  passed_over region -> region_bounds pp n m lr region = inr lr.
Proof.
  unfold region_bounds, passed_over. cbv zeta.
  destruct (geometry region) as [path [w|]|vs|c rad|x y w h];
    intros H; try contradiction; reflexivity.
Qed.

Lemma region_bounds_defined pp n m lr region :
  margin region <> None -> exists lr', region_bounds pp n m lr region = inr lr'.
Proof.
  intros Hm. destruct (region_bounds pp n m lr region) as [e|lr'] eqn:E;
    [|eauto].
  apply region_bounds_error in E as (_ & Hn & _). contradiction.
Qed.

(** The loop over the regions *)
Lemma fold_regions_error pp n m regions e :
  foldl (fun acc region =>
           match acc with
           | inl e => inl e
           | inr lr => region_bounds pp n m lr region
           end) (inl e) regions = inl e.
Proof. induction regions as [|r rs IH]; [reflexivity | exact IH]. Qed.

Lemma fold_regions_raises pp n m regions region acc :
  region ∈ regions -> margin region = None -> reached pp region = true ->
  (forall e, acc = inl e -> e = TypeError) ->
  foldl (fun acc region =>
           match acc with
           | inl e => inl e
           | inr lr => region_bounds pp n m lr region
           end) acc regions = inl TypeError.
Proof.
  intros Hin Hm Hr. revert acc.
  induction regions as [|r rs IH]; intros acc Hacc; [inversion Hin|].
  cbn [foldl]. destruct acc as [e|lr].
  - rewrite (Hacc e eq_refl). apply fold_regions_error.
  - apply elem_of_cons in Hin as [<-|Hin].
    + rewrite region_bounds_raises by assumption. apply fold_regions_error.
    + apply IH; [exact Hin|]. intros e He.
      apply region_bounds_error in He as [-> _]. reflexivity.
Qed.

Lemma fold_regions_defined pp n m regions lr :
  Forall (fun r => margin r <> None) regions ->
  exists lr',
    foldl (fun acc region =>
             match acc with
             | inl e => inl e
             | inr lr => region_bounds pp n m lr region
             end) (inr lr) regions = inr lr'.
Proof.
  intros Hall. revert lr. induction Hall as [|r rs Hr _ IH]; intros lr.
  - exists lr. reflexivity.
  - cbn [foldl]. destruct (region_bounds_defined pp n m lr r Hr) as [lr' ->].
    apply IH.
Qed.

Lemma fold_regions_passed_over pp n m regions lr :
  Forall passed_over regions ->
  foldl (fun acc region =>
           match acc with
           | inl e => inl e
           | inr lr => region_bounds pp n m lr region
           end) (inr lr) regions = inr lr.
Proof.
  intros Hall. induction Hall as [|r rs Hr _ IH]; [reflexivity|].
  cbn [foldl]. rewrite region_bounds_passed_over by exact Hr. exact IH.
Qed.

(** The loop over the samples *)
Lemma all_bounds_length regions p m ss lrs :
  all_bounds regions p m ss = inr lrs -> length lrs = length ss.
Proof.
  revert lrs. induction ss as [|s ss IH]; intros lrs; cbn [all_bounds].
  - intros H. apply inr_eq_inv in H. subst. reflexivity.
  - destruct (sample_bounds regions p m s); [discriminate|].
    destruct (all_bounds regions p m ss) as [|l]; [discriminate|].
    intros H. apply inr_eq_inv in H. subst. cbn [length].
    rewrite (IH l eq_refl). reflexivity.
Qed.

Lemma all_bounds_defined regions p m ss :
  (forall s, exists lr, sample_bounds regions p m s = inr lr) ->
  exists lrs, all_bounds regions p m ss = inr lrs.
Proof.
  intros Hs. induction ss as [|s ss [lrs IH]]; cbn [all_bounds]; [eauto|].
  destruct (Hs s) as [lr ->]. rewrite IH. eauto.
Qed.

Lemma all_bounds_constant regions p m ss c :
  (forall s, sample_bounds regions p m s = inr c) ->
  all_bounds regions p m ss = inr (replicate (length ss) c).
Proof.
  intros Hs. induction ss as [|s ss IH]; cbn [all_bounds]; [reflexivity|].
  rewrite Hs, IH. reflexivity.
Qed.

Lemma all_bounds_first_raises regions p m s ss e :
  sample_bounds regions p m s = inl e ->
  all_bounds regions p m (s :: ss) = inl e.
Proof. intros H. cbn [all_bounds]. rewrite H. reflexivity. Qed.

Lemma num_samples_ge p : (50 <= num_samples p)%nat.
Proof. unfold num_samples. lia. Qed.

Lemma linspace_first a b n :
  (0 < n)%nat -> exists rest, linspace a b n = a :: rest.
Proof.
  intros Hn. destruct n as [|n]; [lia|]. unfold linspace.
  cbn [seq fmap list_fmap INR]. eexists. f_equal. lra.
Qed.

Lemma clip_unit_range x : 0 <= clip x 0 (1 / 10) <= 1 / 10.
Proof.
  unfold clip. split.
  - apply Rmin_glb; [apply Rmax_r | lra].
  - apply Rmin_r.
Qed.

(** The bound functions index their table within its range *)
Lemma bound_func_defined (bounds : vector) p n s :
  total_length p <> 0 -> length bounds = n -> (0 < n)%nat ->
  exists b, bound_func bounds p n s = inr b /\ b ∈ bounds.
Proof.
  intros Ht Hlen Hn. unfold bound_func.
  rewrite Reqb_false by exact Ht. cbv zeta.
  set (i := py_int _).
  set (idx := Z.min (Z.max i 0) (Z.of_nat n - 1)).
  assert (0 <= idx <= Z.of_nat n - 1)%Z as Hidx by (unfold idx; lia).
  unfold py_index.
  destruct (Z.ltb_spec idx 0) as [|_]; [lia|].
  destruct (lookup_lt_is_Some_2 bounds (Z.to_nat idx)) as [b Hb]; [lia|].
  rewrite Hb. exists b. split; [reflexivity|].
  apply (list_elem_of_lookup_2 _ _ _ Hb).
Qed.

Lemma bound_func_zero_length (bounds : vector) p n s :
  total_length p = 0 -> bound_func bounds p n s = inl IntOfNonFinite.
Proof. intros Ht. unfold bound_func. rewrite Reqb_true by exact Ht. reflexivity. Qed.

(** What the parser makes of the two boundary polylines *)
Lemma boundary_region_passed_over b :
  Forall passed_over (boundary_region b).
Proof.
  destruct b as [|q b]; cbn [boundary_region]; [constructor|].
  constructor; [exact I | constructor].
Qed.

Lemma boundary_region_no_margin b :
  Forall (fun r => margin r = None) (boundary_region b).
Proof.
  destruct b as [|q b]; cbn [boundary_region]; [constructor|].
  constructor; [reflexivity | constructor].
Qed.

End ConstraintFacts.

(** ** Further facts: the square path *)

Module SquarePathFacts.
Import Np RefPath RefPathFacts TableFacts Samples SamplesFacts SquareFacts
  Scenarios.

(** The path through the square is at least as long as one side *)
Lemma square_total_length p :
  init fit square 0 1 = inr p -> 1 <= total_length p.
Proof.
  intros Hinit.
  destruct (square_samples p Hinit) as (Hs0 & Hs3 & _).
  destruct (table_lengths _ _ _ _ _ Hinit) as (Hxy & HA & _).
  destruct (init_inr _ _ _ _ _ Hinit) as (HU & Harc & Htot).
  pose proof (constructed_nondecreasing _ _ _ _ _ Hinit) as Hmono.
  assert (length (u_dense p) = 1000%nat) as Hlen
    by (rewrite HU; unfold linspace; rewrite length_fmap, length_seq;
        reflexivity).
  assert (arclengths p !! 999%nat = Some (total_length p)) as HL.
  { rewrite Htot, HA, Hlen. apply lookup_nth_R. lia. }
  destruct (lookup_lt_is_Some_2 (arclengths p) 333 ltac:(lia)) as [a3 Ha3].
  pose proof (arclength_ge_x_travel _ _ _ _ _ 333%nat a3 _ _ Hinit Ha3 Hs3 Hs0)
    as Hx.
  cbn [fst] in Hx. replace (1 - 0) with 1 in Hx by ring. rewrite Rabs_R1 in Hx.
  pose proof (nondecreasing_le _ 333 999 _ _ Hmono ltac:(lia) Ha3 HL) as Hle.
  lra.
Qed.

(** The fitter of degree 3 builds the same square path *)
Lemma cubic_square_same :
  init fit_degree_three square 0 3 = init fit square 0 1.
Proof.
  unfold init. rewrite square_validated. cbv zeta.
  unfold square_points at 1 3 5 7.
  cbn [length Nat.sub Nat.min Nat.ltb Nat.leb fit_degree_three fit Nat.eqb].
  reflexivity.
Qed.

End SquarePathFacts.

(** ** Theorems: constraints and corridor bounds *)

Section ConstraintProperties.
Import Np RefPath RefPathFacts FrameFacts TableFacts Constraints Regions
  ConstraintFacts Samples SamplesFacts Scenarios SquarePathFacts.

(** The conversion on a configuration whose samples all succeed *)
Lemma convert_defined cfg p dm :
  (forall s, exists lr, sample_bounds (regions cfg) p
                          (default dm (default_margin cfg)) s = inr lr) ->
  exists lrs,
    length lrs = num_samples p
    /\ convert_constraints_to_corridor_bounds (Some cfg) p dm
       = inr (Some (bound_func ((fun lr : R * R => clip lr.1 0 (1 / 10))
                                <$> lrs) p (num_samples p),
                    bound_func ((fun lr : R * R => clip lr.2 0 (1 / 10))
                                <$> lrs) p (num_samples p)))
    /\ all_bounds (regions cfg) p (default dm (default_margin cfg))
                  (linspace 0 (total_length p) (num_samples p)) = inr lrs.
Proof.
  intros Hs.
  destruct (all_bounds_defined (regions cfg) p (default dm (default_margin cfg))
              (linspace 0 (total_length p) (num_samples p)) Hs) as [lrs Hl].
  exists lrs. split; [|split; [|exact Hl]].
  - rewrite (all_bounds_length _ _ _ _ _ Hl). unfold linspace.
    rewrite length_fmap, length_seq. reflexivity.
  - unfold convert_constraints_to_corridor_bounds, corridor_tables. cbv zeta.
    rewrite Hl. reflexivity.
Qed.

(** X13.  When every region carries a margin and the path has a length
    other than zero, the conversion returns two bound functions, and each
    of them returns (it raises no IndexError: the index it computes is
    within the table for every real progress value, negative and beyond the
    end included) a width between 0 and 0.1. *)
Theorem corridor_bounds_defined_and_bounded (cfg : ConstraintConfig)
    (p : ReferencePath) (dm : R) :
  Forall (fun r => margin r <> None) (regions cfg) ->
  total_length p <> 0 ->
  exists l r,
    convert_constraints_to_corridor_bounds (Some cfg) p dm = inr (Some (l, r))
    /\ forall s, exists wl wr,
         l s = inr wl /\ r s = inr wr
         /\ 0 <= wl <= 1 / 10 /\ 0 <= wr <= 1 / 10.
Proof.
  intros Hm Ht.
  destruct (convert_defined cfg p dm) as (lrs & Hlen & Hconv & _).
  { intros s. unfold sample_bounds. cbv zeta. apply fold_regions_defined.
    exact Hm. }
  eexists _, _. split; [exact Hconv|].
  intros s. pose proof (num_samples_ge p) as Hn.
  destruct (bound_func_defined
              ((fun lr : R * R => clip lr.1 0 (1 / 10)) <$> lrs) p
              (num_samples p) s Ht) as (wl & Hl & Hlin);
    [rewrite length_fmap; exact Hlen | lia |].
  destruct (bound_func_defined
              ((fun lr : R * R => clip lr.2 0 (1 / 10)) <$> lrs) p
              (num_samples p) s Ht) as (wr & Hr & Hrin);
    [rewrite length_fmap; exact Hlen | lia |].
  exists wl, wr. split; [exact Hl|]. split; [exact Hr|].
  apply list_elem_of_fmap in Hlin as (lr1 & -> & _).
  apply list_elem_of_fmap in Hrin as (lr2 & -> & _).
  split; apply clip_unit_range.
Qed.

Lemma corridor_bounds_defined_and_bounded_witness :
  exists p l r,
    init fit square 0 1 = inr p
    /\ convert_constraints_to_corridor_bounds (Some disc_config) p (5 / 1000)
       = inr (Some (l, r))
    /\ forall s, exists wl wr,
         l s = inr wl /\ r s = inr wr
         /\ 0 <= wl <= 1 / 10 /\ 0 <= wr <= 1 / 10.
Proof.
  destruct square_constructs as [p Hp].
  pose proof (square_total_length p Hp) as Hlen.
  destruct (corridor_bounds_defined_and_bounded disc_config p (5 / 1000))
    as (l & r & Hconv & Hrange).
  - repeat constructor. discriminate.
  - lra.
  - exists p, l, r. split; [exact Hp|]. split; [exact Hconv | exact Hrange].
Defined.

(** X14.  A constraint dictionary that gives only "left_boundary" and
    "right_boundary" (no "regions") has no effect on the corridor: whenever
    it parses to a configuration, the conversion returns, on a path of
    length other than zero, two bound functions that are constantly 0.1,
    the cap, whatever the boundary polylines are. *)
Theorem boundary_constraints_are_ignored (constraints_dict : constraints_json)
    (cfg : ConstraintConfig) (p : ReferencePath) (dm : R) :
  regions_json constraints_dict = None ->
  parse_constraints_from_json constraints_dict = Some cfg ->
  total_length p <> 0 ->
  exists l r,
    convert_constraints_to_corridor_bounds (Some cfg) p dm = inr (Some (l, r))
    /\ forall s, l s = inr (1 / 10) /\ r s = inr (1 / 10).
Proof.
  intros Hnone Hparse Ht.
  assert (Forall passed_over (regions cfg)) as Hpo.
  { unfold parse_constraints_from_json in Hparse. rewrite Hnone in Hparse.
    cbv zeta in Hparse. rewrite app_nil_r in Hparse.
    destruct (left_boundary constraints_dict) as [lb|];
      [|discriminate].
    destruct (right_boundary constraints_dict) as [rb|];
      [|discriminate].
    destruct (boundary_region lb ++ boundary_region rb) as [|r0 rs] eqn:E;
      [discriminate|].
    injection Hparse as <-. cbn [regions]. rewrite <- E.
    apply Forall_app. split; apply boundary_region_passed_over. }
  set (m := default dm (default_margin cfg)).
  assert (forall s, sample_bounds (regions cfg) p m s = inr (10 ^ 6, 10 ^ 6))
    as Hs.
  { intros s. unfold sample_bounds. cbv zeta.
    apply fold_regions_passed_over. exact Hpo. }
  destruct (convert_defined cfg p dm) as (lrs & Hlen & Hconv & Hall).
  { intros s. fold m. rewrite Hs. eauto. }
  fold m in Hall. rewrite (all_bounds_constant _ _ _ _ _ Hs) in Hall.
  apply inr_eq_inv in Hall.
  eexists _, _. split; [exact Hconv|].
  intros s. pose proof (num_samples_ge p) as Hn.
  assert (clip (10 ^ 6) 0 (1 / 10) = 1 / 10) as Hclip.
  { unfold clip. rewrite Rmax_left by lra. apply Rmin_right. lra. }
  assert (forall (proj : R * R -> R) b,
            proj (10 ^ 6, 10 ^ 6) = 10 ^ 6 ->
            b ∈ (fun lr : R * R => clip (proj lr) 0 (1 / 10)) <$> lrs ->
            b = 1 / 10) as Hconst.
  { intros proj b Hproj Hb. apply list_elem_of_fmap in Hb as (lr & -> & Hin).
    rewrite <- Hall in Hin. apply elem_of_replicate in Hin as [-> _].
    rewrite Hproj. exact Hclip. }
  destruct (bound_func_defined
              ((fun lr : R * R => clip lr.1 0 (1 / 10)) <$> lrs) p
              (num_samples p) s Ht) as (wl & Hl & Hlin);
    [rewrite length_fmap; exact Hlen | lia |].
  destruct (bound_func_defined
              ((fun lr : R * R => clip lr.2 0 (1 / 10)) <$> lrs) p
              (num_samples p) s Ht) as (wr & Hr & Hrin);
    [rewrite length_fmap; exact Hlen | lia |].
  rewrite Hl, Hr.
  rewrite (Hconst fst wl eq_refl Hlin), (Hconst snd wr eq_refl Hrin).
  split; reflexivity.
Qed.

Lemma boundary_constraints_are_ignored_witness :
  exists p cfg l r,
    init fit square 0 1 = inr p
    /\ parse_constraints_from_json boundary_dict = Some cfg
    /\ convert_constraints_to_corridor_bounds (Some cfg) p (5 / 1000)
       = inr (Some (l, r))
    /\ forall s, l s = inr (1 / 10) /\ r s = inr (1 / 10).
Proof.
  destruct square_constructs as [p Hp].
  pose proof (square_total_length p Hp) as Hlen.
  destruct (parse_constraints_from_json boundary_dict) as [cfg|] eqn:Hparse;
    [|discriminate].
  destruct (boundary_constraints_are_ignored boundary_dict cfg p (5 / 1000)
              eq_refl Hparse ltac:(lra)) as (l & r & Hconv & Hconst).
  exists p, cfg, l, r.
  split; [exact Hp|]. split; [reflexivity|]. split; [exact Hconv | exact Hconst].
Defined.

(** X15.  A region of the dictionary's "regions" that comes without a
    "margin" is parsed to a region whose margin is None, and the conversion
    raises TypeError as soon as it reaches such a region: always for a line
    with a width, and for a circle or a rectangle when the start of the path
    lies inside it.  The default margin handed to the conversion is not used
    in its place. *)
Theorem region_without_margin_raises (constraints_dict : constraints_json)
    (cfg : ConstraintConfig) (p : ReferencePath) (dm : R)
    (region_dicts : list region_json) (region_dict : region_json)
    (region : ConstraintRegion) :
  parse_constraints_from_json constraints_dict = Some cfg ->
  regions_json constraints_dict = Some region_dicts ->
  region_dict ∈ region_dicts ->
  margin_json region_dict = None ->
  region ∈ parse_region region_dict ->
  reached (call p 0) region = true ->
  convert_constraints_to_corridor_bounds (Some cfg) p dm = inl TypeError.
Proof.
  intros Hparse Hrs Hin Hnone Hregion Hreached.
  assert (margin region = None) as Hm.
  { unfold parse_region in Hregion.
    destruct (negb _); [inversion Hregion|]. cbv zeta in Hregion.
    destruct (match geometry_dict region_dict with
              | JCircle _ _ => _ | _ => _ end);
      [|inversion Hregion].
    apply list_elem_of_singleton in Hregion. subst region. exact Hnone. }
  assert (region ∈ regions cfg) as Hmem.
  { unfold parse_constraints_from_json in Hparse. rewrite Hrs in Hparse.
    cbv zeta in Hparse.
    destruct (_ ++ (region_dicts ≫= parse_region)) as [|r0 rs] eqn:E;
      [discriminate|].
    injection Hparse as <-. cbn [regions]. rewrite <- E.
    apply elem_of_app. right. apply list_elem_of_bind.
    exists region_dict. split; assumption. }
  unfold convert_constraints_to_corridor_bounds, corridor_tables. cbv zeta.
  destruct (linspace_first 0 (total_length p) (num_samples p)) as [rest ->].
  { pose proof (num_samples_ge p). lia. }
  rewrite (all_bounds_first_raises _ _ _ _ _ TypeError); [reflexivity|].
  unfold sample_bounds. cbv zeta.
  apply (fold_regions_raises _ _ _ _ region); try assumption.
  intros e [=].
Qed.

Lemma region_without_margin_raises_witness :
  exists p cfg,
    init fit square 0 1 = inr p
    /\ parse_constraints_from_json line_dict = Some cfg
    /\ convert_constraints_to_corridor_bounds (Some cfg) p (5 / 1000)
       = inl TypeError.
Proof.
  destruct square_constructs as [p Hp].
  destruct (parse_constraints_from_json line_dict) as [cfg|] eqn:Hparse;
    [|discriminate].
  exists p, cfg. split; [exact Hp|]. split; [reflexivity|].
  apply (region_without_margin_raises line_dict cfg p (5 / 1000)
           [line_region_dict] line_region_dict
           {| constraint_type := KEEP_IN;
              geometry := PathConstraint [(0, 0); (1, 0)] (Some (1 / 20));
              margin := None |});
    try reflexivity; try exact Hparse.
  - apply list_elem_of_singleton. reflexivity.
  - apply list_elem_of_singleton. reflexivity.
Defined.

End ConstraintProperties.

(** ** Further facts: the simulator *)

Module SimulatorFacts.
Import Np RefPath RefPathFacts Scipy Mpcc Noise NoiseFacts Fitpack FitpackFacts
  Constraints Simulator.

Lemma estimate_tunnel_width_range (waypoints_norm : list point) :
  2 / 100 <= estimate_tunnel_width waypoints_norm <= 1 / 10.
Proof.
  unfold estimate_tunnel_width. cbv zeta.
  set (a := match norm <$> diff_points waypoints_norm with
            | [] => 1 / 10
            | _ => _
            end).
  split.
  - apply Rmin_glb; [lra | apply Rmax_l].
  - apply Rmin_l.
Qed.

Section Loop.

Variable degree_of : Spline -> nat.
Variable splprep : list point -> R -> nat -> option (Spline * list R).
Variable minimize : solver.
Variable mouse : MouseModule.
Variable limb : UpperLimbModule.
Variable standard_normal : Z -> nat -> R.
Variable self : CursorSimulator.

Variable waypoints_norm : list point.
Variable reference_path : ReferencePath.
Variable tunnel_width : option R.
Variable corridor_bounds :
  option ((R -> Constraints.error + R) * (R -> Constraints.error + R)).
Variables screen_width screen_height target_radius : R.
Variable return_timestamps : bool.

Local Abbreviation body :=
  (loop_body degree_of splprep minimize mouse limb standard_normal self
     waypoints_norm reference_path tunnel_width corridor_bounds
     screen_width screen_height target_radius return_timestamps).

Local Abbreviation loop :=
  (run_loop degree_of splprep minimize mouse limb standard_normal self
     waypoints_norm reference_path tunnel_width corridor_bounds
     screen_width screen_height target_radius return_timestamps).

(** The third component of the entry appended at time [t] *)
Local Abbreviation stamp t := (if return_timestamps then t else interval self).

(** The samples one pass draws *)
Local Abbreviation draws := (if add_noise self then 2%nat else 0%nat).

Lemma body_break st st' :
  body st = Break st' ->
  trajectory st' = trajectory st /\ current_time st' = current_time st
  /\ gen st' = gen st.
Proof.
  unfold loop_body. cbv zeta.
  destruct (_ && (_ <=? _)%nat).
  - intros [= <-]. cbn. auto.
  - cbn [cursor_pos cursor_vel hand_pos gen trajectory current_time].
    destruct (Model.model _ _ _ _) as [e|[ci dbg]]; [discriminate|].
    destruct (match corridor_bounds with Some _ => _ | None => _ end);
      [discriminate|].
    destruct (add_noise self).
    + destruct (single_step_motor_and_device_noise _ _ _ _ _ _ _ _ _ _ _)
        as [r g]. discriminate.
    + destruct (Model.c_pos_dx ci) as [|dx ?]; [discriminate|].
      destruct (Model.c_pos_dy ci) as [|dy ?]; discriminate.
Qed.

Lemma body_continue st st' :
  body st = Continue st' ->
  (exists x y, trajectory st'
               = trajectory st ++ [(x, y, stamp (current_time st))])
  /\ current_time st' = current_time st + interval self
  /\ seed (gen st') = seed (gen st)
  /\ position (gen st') = (position (gen st) + draws)%nat.
Proof.
  unfold loop_body. cbv zeta.
  destruct (_ && (_ <=? _)%nat); [discriminate|].
  cbn [cursor_pos cursor_vel hand_pos gen trajectory current_time].
  destruct (Model.model _ _ _ _) as [e|[ci dbg]]; [discriminate|].
  destruct (match corridor_bounds with Some _ => _ | None => _ end);
    [discriminate|].
  destruct (add_noise self).
  - pose proof (single_step_advances mouse limb standard_normal (gen st)
                  (nth (Nat.min 1 (length (Model.c_vel_x ci) - 1))
                       (Model.c_vel_x ci) 0)
                  (nth (Nat.min 1 (length (Model.c_vel_x ci) - 1))
                       (Model.c_vel_y ci) 0)
                  (hand_pos st).1 (hand_pos st).2 (nc self) (interval self)
                  (forearm self)) as Hadv.
    destruct (single_step_motor_and_device_noise _ _ _ _ _ _ _ _ _ _ _)
      as [r g]. cbn [snd] in Hadv. subst g.
    intros [= <-]. cbn [trajectory current_time gen seed position].
    split; [destruct return_timestamps; eauto|].
    split; [reflexivity|]. split; [reflexivity | lia].
  - destruct (Model.c_pos_dx ci) as [|dx ?]; [discriminate|].
    destruct (Model.c_pos_dy ci) as [|dy ?]; [discriminate|].
    intros [= <-]. cbn [trajectory current_time gen seed position].
    split; [destruct return_timestamps; eauto|].
    split; [reflexivity|]. split; [reflexivity | lia].
Qed.

(** The loop appends one entry per completed pass, stamped in sequence *)
Lemma loop_appends max_steps st st' :
  loop max_steps st = inr st' ->
  exists m new,
    (m <= max_steps)%nat /\ length new = m
    /\ trajectory st' = trajectory st ++ new
    /\ current_time st' = current_time st + INR m * interval self
    /\ seed (gen st') = seed (gen st)
    /\ position (gen st') = (position (gen st) + m * draws)%nat
    /\ forall i e, new !! i = Some e ->
         e.2 = stamp (current_time st + INR i * interval self).
Proof.
  revert st. induction max_steps as [|n IH]; intros st.
  - cbn. intros H. apply inr_eq_inv in H. subst st'.
    exists O, []. cbn [INR length]. rewrite app_nil_r.
    repeat (split; [first [lia | reflexivity | lra]|]).
    intros i e Hi. destruct i; discriminate.
  - cbn [run_loop].
    destruct (body st) as [st1|st1|e] eqn:Hb; [| |discriminate].
    + intros Hl. destruct (IH st1 Hl)
        as (m & new & Hm & Hlen & Htr & Ht & Hs & Hp & Hstamps).
      destruct (body_continue st st1 Hb)
        as ((x & y & Htr1) & Ht1 & Hs1 & Hp1).
      exists (S m), ((x, y, stamp (current_time st)) :: new).
      split; [lia|]. split; [cbn [length]; lia|].
      split; [rewrite Htr, Htr1, <- app_assoc; reflexivity|].
      split; [rewrite Ht, Ht1, S_INR; ring|].
      split; [congruence|]. split; [lia|].
      intros i e Hi. destruct i as [|i].
      * injection Hi as <-. cbn [snd INR].
        destruct return_timestamps; [ring | reflexivity].
      * cbn in Hi. rewrite (Hstamps i e Hi), Ht1, S_INR.
        destruct return_timestamps; [ring | reflexivity].
    + intros H. apply inr_eq_inv in H. subst st'.
      destruct (body_break st st1 Hb) as (Htr & Ht & Hg).
      exists O, []. cbn [INR length]. rewrite app_nil_r.
      split; [lia|]. split; [reflexivity|]. split; [exact Htr|].
      split; [rewrite Ht; ring|]. split; [congruence|].
      split; [rewrite Hg; lia|].
      intros i e Hi. destruct i; discriminate.
Qed.

(** On a path of degree below 2 no pass completes *)
Lemma body_low_degree st :
  (degree_of (tck reference_path) < 2)%nat ->
  (exists st', body st = Break st') \/ (exists e, body st = Raise e).
Proof.
  intros Hd. unfold body, loop_body. cbv zeta.
  destruct (_ && (_ <=? _)%nat); [left; eauto|]. right.
  unfold Model.model.
  cbn [Model.state_cog Model.reference_path Model.pred_horizon Model.interval].
  cbv zeta. rewrite find_closest_checked_raises by exact Hd. eauto.
Qed.

Lemma loop_low_degree max_steps st st' :
  (degree_of (tck reference_path) < 2)%nat ->
  loop max_steps st = inr st' ->
  trajectory st' = trajectory st /\ gen st' = gen st.
Proof.
  intros Hd. destruct max_steps as [|n].
  - cbn. intros H. apply inr_eq_inv in H. subst. auto.
  - cbn [run_loop].
    destruct (body_low_degree st Hd) as [[st1 Hb]|[e Hb]]; rewrite Hb.
    + intros H. apply inr_eq_inv in H. subst st'.
      destruct (body_break st st1 Hb) as (Htr & _ & Hg). auto.
    + discriminate.
Qed.

End Loop.

End SimulatorFacts.

(** ** Theorems: the simulator *)

Section SimulatorProperties.
Import Np RefPath RefPathFacts Scipy Corridor Mpcc PlannerFacts Noise NoiseFacts
  Fitpack FitpackFacts ModelFacts Constraints Simulator SimulatorFacts
  Samples SamplesFacts Scenarios ScenarioFacts.

(** X16.  In the simulator's call of generate_optimal_reference_path the
    tunnel width is estimated within [0.02, 0.1] and the margin is the
    configured 0.005, so the clamp of the half width at 1e-6 is never
    active: every lateral offset satisfies |d_k| <= tunnel_width / 2 -
    margin (at most 4.5 cm), and the first and last offsets are 0, for every
    solver that keeps its answer within its bounds. *)
Theorem simulator_offsets_bounded splprep minimize
    (waypoints_norm : list point) (d : vector) :
  respects_bounds minimize ->
  optimal_offsets splprep minimize
    ((fun q : point => (Finite q.1, Finite q.2)) <$> waypoints_norm)
    (estimate_tunnel_width waypoints_norm) (planner_margin (fst init)) None
    5 5 (1 / 100) (1 / 100) = inr d ->
  (forall k v, d !! k = Some v ->
     Rabs v <= estimate_tunnel_width waypoints_norm / 2
               - planner_margin (fst init)
     /\ Rabs v <= 45 / 1000)
  /\ d !! O = Some 0
  /\ d !! (length d - 1)%nat = Some 0.
Proof.
  intros Hsolver Hd.
  destruct (optimal_offsets_within _ _ _ _ _ _ _ _ _ _ _ Hsolver Hd)
    as (N & HN & Hwithin).
  pose proof (estimate_tunnel_width_range waypoints_norm) as [Hlo Hhi].
  set (tw := estimate_tunnel_width waypoints_norm) in *.
  change (planner_margin (fst init)) with (5 / 1000) in *.
  assert (half_width tw (5 / 1000) = tw / 2 - 5 / 1000) as Hh.
  { unfold half_width. rewrite Rmax_left; [lra|].
    assert (1 / 10 ^ 6 <= 5 / 1000) by lra. lra. }
  rewrite Hh in Hwithin.
  destruct (within_offset_bounds N (tw / 2 - 5 / 1000) d HN ltac:(lra) Hwithin)
    as (Hall & H0 & Hl).
  split; [|split; assumption].
  intros k v Hk. specialize (Hall k v Hk). split; lra.
Qed.

Lemma simulator_offsets_bounded_witness :
  exists d,
    optimal_offsets fit_degree_three lbfgsb_stationary
      ((fun q : point => (Finite q.1, Finite q.2)) <$> square_points)
      (estimate_tunnel_width square_points) (planner_margin (fst init)) None
      5 5 (1 / 100) (1 / 100) = inr d
    /\ (forall k v, d !! k = Some v ->
          Rabs v <= estimate_tunnel_width square_points / 2
                    - planner_margin (fst init)
          /\ Rabs v <= 45 / 1000)
    /\ d !! O = Some 0
    /\ d !! (length d - 1)%nat = Some 0.
Proof.
  assert (exists d,
            optimal_offsets fit_degree_three lbfgsb_stationary
              ((fun q : point => (Finite q.1, Finite q.2)) <$> square_points)
              (estimate_tunnel_width square_points)
              (planner_margin (fst init)) None 5 5 (1 / 100) (1 / 100)
            = inr d) as [d Hd].
  { destruct cubic_square_constructs as (p & Hp & _).
    unfold optimal_offsets.
    change ((fun q : point => (Finite q.1, Finite q.2)) <$> square_points)
      with square.
    rewrite Hp. eexists. reflexivity. }
  exists d. split; [exact Hd|].
  exact (simulator_offsets_bounded fit_degree_three lbfgsb_stationary
           square_points d stationary_respects_bounds Hd).
Defined.

(** A pass completes when the target is not reached, the path has degree
    at least 2, there are no corridor bounds and noise is on *)
Lemma body_completes degree_of splprep minimize mouse limb standard_normal self
    waypoints_norm reference_path tunnel_width screen_width screen_height
    target_radius return_timestamps st :
  (2 <= degree_of (tck reference_path))%nat ->
  add_noise self = true ->
  Rltb (norm (psub (cursor_pos st)
                   (at_ waypoints_norm (target_waypoint_idx st))))
       target_radius = false ->
  exists st',
    loop_body degree_of splprep minimize mouse limb standard_normal self
      waypoints_norm reference_path tunnel_width None screen_width
      screen_height target_radius return_timestamps st = Continue st'.
Proof.
  intros Hd Hnoise Hfar. unfold loop_body. cbv zeta. rewrite Hfar.
  replace (if (target_waypoint_idx st <? length waypoints_norm)%nat
           then false else false) with false
    by (destruct (_ <? _)%nat; reflexivity).
  cbn [andb cursor_pos cursor_vel hand_pos gen trajectory current_time].
  match goal with
  | |- context [Model.model degree_of splprep minimize ?mi] =>
      destruct (model_defined degree_of splprep minimize mi reference_path
                  eq_refl Hd) as (ci & dbg & ->)
  end.
  rewrite Hnoise.
  destruct (single_step_motor_and_device_noise _ _ _ _ _ _ _ _ _ _ _)
    as [r g].
  eexists. reflexivity.
Qed.

(** X17.  Every return of the simulation loop, from any state, has
    appended one entry per completed pass and at most max_steps entries;
    the third component of the i-th new entry is the step interval (or,
    with return_timestamps, the time current_time + i * interval), the clock
    has advanced by interval per entry, and the global generator has
    advanced by exactly two samples per entry when noise is on and not at
    all when it is off. *)
Theorem simulation_loop_timing degree_of splprep minimize mouse limb
    (standard_normal : Z -> nat -> R) self waypoints_norm reference_path
    tunnel_width corridor_bounds (screen_width screen_height target_radius : R)
    (return_timestamps : bool) (max_steps : nat) (st st' : sim_state) :
  run_loop degree_of splprep minimize mouse limb standard_normal self
    waypoints_norm reference_path tunnel_width corridor_bounds
    screen_width screen_height target_radius return_timestamps max_steps st
  = inr st' ->
  exists new,
    trajectory st' = trajectory st ++ new
    /\ (length new <= max_steps)%nat
    /\ current_time st' = current_time st + INR (length new) * interval self
    /\ (forall i e, new !! i = Some e ->
          e.2 = if return_timestamps
                then current_time st + INR i * interval self
                else interval self)
    /\ seed (gen st') = seed (gen st)
    /\ position (gen st')
       = (position (gen st)
          + length new * (if add_noise self then 2 else 0))%nat.
Proof.
  intros Hloop.
  destruct (loop_appends _ _ _ _ _ _ _ _ _ _ _ _ _ _ _ _ _ _ Hloop)
    as (m & new & Hm & Hlen & Htr & Ht & Hs & Hp & Hstamps).
  exists new. subst m.
  split; [exact Htr|]. split; [exact Hm|]. split; [exact Ht|].
  split; [exact Hstamps|]. split; [exact Hs | exact Hp].
Qed.

Lemma simulation_loop_timing_witness :
  exists p st' new,
    RefPath.init fit_degree_three square 0 3 = inr p
    /\ run_loop degree_three fit_degree_three lbfgsb_stationary unit_mouse
         still_limb alternating_stream (fst init) [(0, 0); (1, 0)] p None None
         1920 1080 (1 / 100) false 1
         {| cursor_pos := (0, 0); cursor_vel := (0, 0); hand_pos := (0, 0);
            target_waypoint_idx := 1; current_time := 0; trajectory := [];
            gen := np_random_seed 1000 |}
       = inr st'
    /\ trajectory st' = [] ++ new
    /\ length new = 1%nat
    /\ (forall i e, new !! i = Some e -> e.2 = interval (fst init))
    /\ position (gen st') = 2%nat.
Proof.
  destruct cubic_square_constructs as (p & Hp & _).
  set (st := {| cursor_pos := (0, 0); cursor_vel := (0, 0);
                hand_pos := (0, 0); target_waypoint_idx := 1;
                current_time := 0; trajectory := [];
                gen := np_random_seed 1000 |}).
  destruct (body_completes degree_three fit_degree_three lbfgsb_stationary
              unit_mouse still_limb alternating_stream (fst init)
              [(0, 0); (1, 0)] p None 1920 1080 (1 / 100) false st)
    as [st' Hbody].
  { unfold degree_three. lia. }
  { reflexivity. }
  { apply Rltb_false. cbn [cursor_pos target_waypoint_idx st at_ nth].
    pose proof (norm_ge_fst (psub (0, 0) (1, 0))) as Hn.
    unfold psub in Hn at 1. cbn [fst] in Hn.
    replace (0 - 1) with (- (1)) in Hn by ring.
    rewrite Rabs_Ropp, Rabs_R1 in Hn. lra. }
  assert (run_loop degree_three fit_degree_three lbfgsb_stationary unit_mouse
            still_limb alternating_stream (fst init) [(0, 0); (1, 0)] p None
            None 1920 1080 (1 / 100) false 1 st = inr st') as Hrun.
  { cbn [run_loop]. rewrite Hbody. reflexivity. }
  destruct (simulation_loop_timing _ _ _ _ _ _ _ _ _ _ _ _ _ _ _ _ _ _ Hrun)
    as (new & Htr & Hlen & Ht & Hstamps & Hs & Hpos).
  exists p, st', new.
  split; [exact Hp|]. split; [exact Hrun|]. split; [exact Htr|].
  assert (length new = 1%nat) as Hone.
  { destruct (body_continue _ _ _ _ _ _ _ _ _ _ _ _ _ _ _ _ _ Hbody)
      as ((x & y & Htr1) & _).
    rewrite Htr1 in Htr. apply (f_equal length) in Htr.
    rewrite !length_app in Htr. cbn [length] in Htr. lia. }
  split; [exact Hone|]. split; [exact Hstamps|].
  rewrite Hpos, Hone. reflexivity.
Defined.

(** X18.  With use_optimal_path=False the reference path is built with
    k = 1, so (for every fitter that returns splines of the degree it is
    asked for) the steering model raises in the first pass that reaches it:
    whenever generate_trajectory_with_waypoints returns, the trajectory is
    empty and no sample was drawn.  It returns only when max_steps is 0 or
    the start lies within target_radius of the last waypoint. *)
Theorem linear_reference_path_yields_no_point degree_of splprep minimize mouse
    limb (standard_normal : Z -> nat -> R) self (g : rng) waypoints
    constraints (screen_width screen_height : R) (max_steps : nat)
    (target_radius : R) (return_timestamps : bool) traj g' :
  fits_degree degree_of splprep ->
  generate_trajectory_with_waypoints degree_of splprep minimize mouse limb
    standard_normal self g waypoints constraints screen_width screen_height
    max_steps target_radius false return_timestamps = inr (traj, g') ->
  traj = [] /\ g' = g.
Proof.
  intros Hfit. unfold generate_trajectory_with_waypoints.
  destruct waypoints as [waypoints|]; [|discriminate].
  destruct (length waypoints <? 2)%nat; [discriminate|].
  destruct (Reqb screen_width 0); [discriminate|]. cbv zeta.
  destruct (Reqb screen_height 0); [discriminate|].
  unfold make_reference_path. cbv zeta. cbn [andb].
  destruct (RefPath.init splprep _ 0 1) as [e|p] eqn:Hinit; [discriminate|].
  destruct (convert_constraints_to_corridor_bounds _ p _) as [e|cb];
    [discriminate|].
  destruct (run_loop _ _ _ _ _ _ _ _ _ _ _ _ _ _ _ _ _) as [e|st'] eqn:Hloop;
    [discriminate|].
  intros H. apply inr_eq_inv in H. injection H as <- <-.
  pose proof (init_degree degree_of splprep _ _ _ p Hfit Hinit) as Hd.
  assert (degree_of (tck p) < 2)%nat as Hlow by lia.
  destruct (loop_low_degree _ _ _ _ _ _ _ _ _ _ _ _ _ _ _ _ _ _ Hlow Hloop)
    as [Htr Hg].
  cbn [trajectory gen] in Htr, Hg. split; assumption.
Qed.

Lemma linear_reference_path_yields_no_point_witness :
  exists traj g',
    generate_trajectory_with_waypoints degree_one fit lbfgsb_stationary
      unit_mouse still_limb alternating_stream (fst init)
      (np_random_seed 1000) (Some [(0, 0); (1, 0)]) None 1 1 0 (1 / 100)
      false false = inr (traj, g')
    /\ traj = [] /\ g' = np_random_seed 1000.
Proof.
  assert (exists traj g',
            generate_trajectory_with_waypoints degree_one fit
              lbfgsb_stationary unit_mouse still_limb alternating_stream
              (fst init) (np_random_seed 1000) (Some [(0, 0); (1, 0)]) None
              1 1 0 (1 / 100) false false = inr (traj, g'))
    as (traj & g' & Hrun).
  { unfold generate_trajectory_with_waypoints.
    cbn [length Nat.ltb Nat.leb].
    rewrite !Reqb_false by lra. cbv zeta.
    unfold make_reference_path. cbv zeta. cbn [andb].
    match goal with
    | |- context [RefPath.init fit ?wps 0 1] =>
        destruct (validate_far_pair_ok wps 0
                    (0 / 1 * screen_width_m, 0 / 1 * (1 / 1 * screen_width_m))
                    (1 / 1 * screen_width_m, 0 / 1 * (1 / 1 * screen_width_m))
                    eq_refl eq_refl) as [w Hw];
        [|destruct (fit_constructs wps w 0 1%nat Hw) as (p & -> & _)]
    end.
    - pose proof (norm_ge_fst
                    (psub (1 / 1 * screen_width_m,
                           0 / 1 * (1 / 1 * screen_width_m))
                          (0 / 1 * screen_width_m,
                           0 / 1 * (1 / 1 * screen_width_m)))) as Hn.
      unfold psub in Hn at 1. cbn [fst] in Hn. unfold screen_width_m in *.
      replace (1 / 1 * (46 / 100) - 0 / 1 * (46 / 100)) with (46 / 100) in Hn
        by field.
      rewrite Rabs_right in Hn by lra. unfold tol_dup. lra.
    - cbn [mbind option_bind convert_constraints_to_corridor_bounds run_loop
           trajectory gen].
      eexists _, _. reflexivity. }
  exists traj, g'. split; [exact Hrun|].
  exact (linear_reference_path_yields_no_point degree_one fit
           lbfgsb_stationary unit_mouse still_limb alternating_stream
           (fst init) (np_random_seed 1000) (Some [(0, 0); (1, 0)]) None 1 1
           0 (1 / 100) false traj g' fits_degree_one Hrun).
Defined.

End SimulatorProperties.

(** ** Further facts: the points of the optimised path *)

Module WaypointFacts.
Import Np NpFacts RefPath RefPathFacts TableFacts Scipy Corridor PlannerFacts
  LoopFacts ShapeFacts Waypoints.

Lemma keep_finite_finite (P : list point) :
  keep_finite ((fun q : point => (Finite q.1, Finite q.2)) <$> P) = P.
Proof.
  unfold keep_finite. induction P as [|[x y] P IH]; [reflexivity|].
  cbn [fmap list_fmap omap list_omap to_point fst snd]. 
  change (omap to_point (list_fmap _ _ (fun q : point => (Finite q.1, Finite q.2)) P))
    with (omap to_point ((fun q : point => (Finite q.1, Finite q.2)) <$> P)).
  rewrite IH. reflexivity.
Qed.

Lemma linspace_length a b n : length (linspace a b n) = n.
Proof. unfold linspace. rewrite length_fmap, length_seq. reflexivity. Qed.

Lemma linspace_last a b n :
  (2 <= n)%nat -> linspace a b n !! (n - 1)%nat = Some b.
Proof.
  intros Hn. rewrite linspace_lookup by lia. f_equal.
  assert (0 < INR (n - 1)) by (apply lt_0_INR; lia). field. lra.
Qed.

(** The offsets handed back by the optimiser: one per knot, 0 at both
    end knots *)
Lemma offsets_on_pinned minimize c N tw m al be la ga :
  respects_bounds minimize -> (2 <= N)%nat ->
  length (offsets_on minimize c N tw m al be la ga) = N
  /\ offsets_on minimize c N tw m al be la ga !! O = Some 0
  /\ offsets_on minimize c N tw m al be la ga !! (N - 1)%nat = Some 0.
Proof.
  intros Hsolver HN.
  pose proof (half_width_pos tw m) as Hh.
  assert (Forall2 within (offset_bounds N (half_width tw m))
            (offsets_on minimize c N tw m al be la ga)) as HF.
  { unfold offsets_on. cbv zeta.
    match goal with |- Forall2 _ _ (if res_success ?r then _ else _) =>
      set (res := r) end.
    destruct (res_success res).
    - apply Hsolver.
      + rewrite offset_bounds_length. unfold zeros. rewrite length_replicate.
        reflexivity.
      + apply offset_bounds_consistent. lra.
    - apply zeros_within_offset_bounds. lra. }
  pose proof (Forall2_length _ _ _ HF) as Hlen.
  rewrite offset_bounds_length in Hlen.
  destruct (within_offset_bounds N _ _ HN (Rlt_le _ _ Hh) HF) as (_ & H0 & H1).
  rewrite <- Hlen in H1. split; [symmetry; exact Hlen|]. split; assumption.
Qed.

End WaypointFacts.

(** ** Theorems: the points of the optimised path *)

Section WaypointProperties.
Import Np NpFacts RefPath RefPathFacts TableFacts Scipy Corridor PlannerFacts
  LoopFacts ShapeFacts Waypoints WaypointFacts Samples SamplesFacts Scenarios
  ScenarioFacts.

(** X19.  With a solver that keeps its answer within the bounds, the points
    through which generate_optimal_reference_path fits the path it returns
    start at the start of the centerline and end at its end: the offsets
    are pinned to 0 at both end knots (on the solver path and on the
    fallback), and loop removal keeps both end points.  There are at most
    as many points as knots, and whenever a path is returned it has at
    least four waypoints, the first of which is the start of the
    centerline. *)
Theorem optimal_path_pinned_to_centerline splprep minimize tunnel_path
    tunnel_width margin num_knots alpha beta lambda_length gamma_center
    centerline :
  respects_bounds minimize ->
  init splprep tunnel_path 0 3 = inr centerline ->
  (2 <= knot_count tunnel_path num_knots)%nat ->
  let P := optimal_points minimize centerline
             (knot_count tunnel_path num_knots) tunnel_width margin
             alpha beta lambda_length gamma_center in
  head P = Some (call centerline 0)
  /\ last P = Some (call centerline (total_length centerline))
  /\ (length P <= knot_count tunnel_path num_knots)%nat
  /\ generate_optimal_reference_path splprep minimize tunnel_path
       tunnel_width margin num_knots alpha beta lambda_length gamma_center
     = match init splprep ((fun q : point => (Finite q.1, Finite q.2)) <$> P)
                  0 3 with
       | inl e => inl (PathError e)
       | inr path => inr path
       end
  /\ forall path,
       generate_optimal_reference_path splprep minimize tunnel_path
         tunnel_width margin num_knots alpha beta lambda_length gamma_center
       = inr path ->
       head (waypoints path) = Some (call centerline 0)
       /\ (4 <= length (waypoints path))%nat.
Proof.
  intros Hsolver Hc HN. cbv zeta.
  set (N := knot_count tunnel_path num_knots) in *.
  destruct (offsets_on_pinned minimize centerline N tunnel_width margin
              alpha beta lambda_length gamma_center Hsolver HN)
    as (Hlen & Hd0 & Hd1).
  assert (generate_optimal_reference_path splprep minimize tunnel_path
       tunnel_width margin num_knots alpha beta lambda_length gamma_center
     = match init splprep ((fun q : point => (Finite q.1, Finite q.2)) <$>
                optimal_points minimize centerline N tunnel_width margin
                  alpha beta lambda_length gamma_center) 0 3 with
       | inl e => inl (PathError e)
       | inr path => inr path
       end) as Hgen.
  { unfold generate_optimal_reference_path. rewrite Hc. cbv zeta. fold N.
    destruct (Nat.ltb_spec N 2) as [|_]; [lia|]. reflexivity. }
  unfold optimal_points in *. cbv zeta in *.
  set (d := offsets_on minimize centerline N tunnel_width margin
              alpha beta lambda_length gamma_center) in *.
  set (sk := linspace 0 (total_length centerline) N) in *.
  set (Q := zip_with padd (call centerline <$> sk)
              (zip_with (fun d n => pscale n d) d
                 ((fun t : point => (t.2, - t.1)) <$> (tangent centerline <$> sk)))) in *.
  destruct (remove_loops_spec Q (1 / 10 ^ 6)) as (Hsub & Hh & Hl).
  assert (length sk = N) as Hsk by apply linspace_length.
  assert (length Q = N) as HQ.
  { unfold Q. rewrite !length_zip_with, !length_fmap, Hlen, Hsk. lia. }
  assert (forall i s, sk !! i = Some s -> d !! i = Some 0 ->
            Q !! i = Some (call centerline s)) as Hpin.
  { intros i s Hs Hd. unfold Q.
    rewrite lookup_zip_with, list_lookup_fmap, Hs. cbn [fmap option_fmap option_map mbind option_bind].
    rewrite lookup_zip_with, Hd. cbn [mbind option_bind].
    rewrite !list_lookup_fmap, Hs. cbn [fmap option_fmap option_map mbind option_bind].
    f_equal. unfold padd, pscale. cbn [fst snd].
    destruct (call centerline s) as [x y]. cbn [fst snd]. f_equal; ring. }
  assert (head Q = Some (call centerline 0)) as HhQ.
  { rewrite head_lookup. apply Hpin; [|exact Hd0].
    unfold sk. rewrite linspace_lookup by lia. f_equal. cbn [INR]. ring. }
  assert (last Q = Some (call centerline (total_length centerline))) as HlQ.
  { rewrite last_lookup, HQ.
    replace (Init.Nat.pred N) with (N - 1)%nat by lia.
    apply Hpin; [|exact Hd1]. unfold sk. apply linspace_last. exact HN. }
  split; [rewrite Hh; exact HhQ|].
  split; [rewrite Hl; exact HlQ|].
  split; [rewrite <- HQ; apply sublist_length; exact Hsub|].
  split; [exact Hgen|].
  intros path Hpath. rewrite Hgen in Hpath.
  match type of Hpath with
  | match ?f with _ => _ end = _ => destruct f as [e|path'] eqn:Hinit
  end; [discriminate|].
  apply inr_eq_inv in Hpath. subst path'.
  unfold init in Hinit.
  destruct (_validate_and_prepare_waypoints _) as [e|w] eqn:Hw; [discriminate|].
  destruct (validated_shape _ _ Hw) as (H4 & Hhw & _).
  rewrite keep_finite_finite, Hh, HhQ in Hhw.
  cbv zeta in Hinit.
  match type of Hinit with
  | match ?f with _ => _ end = _ => destruct f as [[t us]|]
  end; [|discriminate].
  apply inr_eq_inv in Hinit. rewrite <- Hinit. cbn [waypoints].
  split; assumption.
Qed.

Lemma optimal_path_pinned_to_centerline_witness :
  exists centerline,
    init fit_degree_three square 0 3 = inr centerline
    /\ (2 <= knot_count square None)%nat
    /\ head (optimal_points lbfgsb_stationary centerline
               (knot_count square None) (1 / 10) (5 / 1000) 5 5
               (1 / 100) (1 / 100))
       = Some (call centerline 0)
    /\ last (optimal_points lbfgsb_stationary centerline
               (knot_count square None) (1 / 10) (5 / 1000) 5 5
               (1 / 100) (1 / 100))
       = Some (call centerline (total_length centerline)).
Proof.
  destruct cubic_square_constructs as (c & Hc & _). exists c.
  assert (2 <= knot_count square None)%nat as HN
    by (unfold knot_count; lia).
  split; [exact Hc|]. split; [exact HN|].
  destruct (optimal_path_pinned_to_centerline fit_degree_three
              lbfgsb_stationary square (1 / 10) (5 / 1000) None 5 5
              (1 / 100) (1 / 100) c stationary_respects_bounds Hc HN)
    as (Hh & Hl & _).
  split; [exact Hh | exact Hl].
Defined.

End WaypointProperties.

(** ** Further facts: regions only narrow the corridor *)

Module NarrowingFacts.
Import Np RefPath RefPathFacts FrameFacts TableFacts Constraints Regions
  ConstraintFacts.

(** One region only lowers the two bounds *)
Lemma region_bounds_narrows pp n m lr region lr' :
  region_bounds pp n m lr region = inr lr' ->
  lr'.1 <= lr.1 /\ lr'.2 <= lr.2.
Proof.
  assert (forall d, (tighten_left lr d).1 <= lr.1
                    /\ (tighten_left lr d).2 <= lr.2) as HL
    by (intros d; unfold tighten_left; cbn [fst snd]; split;
        [apply Rmin_l | lra]).
  assert (forall d, (tighten_right lr d).1 <= lr.1
                    /\ (tighten_right lr d).2 <= lr.2) as HR
    by (intros d; unfold tighten_right; cbn [fst snd]; split;
        [lra | apply Rmin_l]).
  assert (forall d, (tighten_both lr d).1 <= lr.1
                    /\ (tighten_both lr d).2 <= lr.2) as HB
    by (intros d; unfold tighten_both; cbn [fst snd]; split; apply Rmin_l).
  assert (lr.1 <= lr.1 /\ lr.2 <= lr.2) as HI by lra.
  unfold region_bounds. cbv zeta.
  destruct (geometry region) as [path [w|]|vs|c rad|x y w h].
  - destruct (minus_margin _ _); [discriminate|].
    intros H. apply inr_eq_inv in H. subst. apply HB.
  - intros H. apply inr_eq_inv in H. subst. exact HI.
  - intros H. apply inr_eq_inv in H. subst. exact HI.
  - destruct (constraint_type region).
    + destruct (Rltb _ rad);
        [|intros H; apply inr_eq_inv in H; subst; exact HI].
      destruct (Rltb _ 0); (destruct (minus_margin _ _); [discriminate|]);
        intros H; apply inr_eq_inv in H; subst; [apply HL | apply HR].
    + destruct (Rltb _ rad);
        [|intros H; apply inr_eq_inv in H; subst; exact HI].
      destruct (minus_margin _ _); [discriminate|].
      intros H. apply inr_eq_inv in H. subst. apply HB.
  - destruct (_ && _);
      [|intros H; apply inr_eq_inv in H; subst; exact HI].
    destruct (constraint_type region);
      (destruct (minus_margin _ _); [discriminate|]).
    + destruct (Rltb _ _); intros H; apply inr_eq_inv in H; subst;
        [apply HL | apply HR].
    + intros H. apply inr_eq_inv in H. subst. apply HB.
Qed.

(** The loop over further regions, continued from the bounds [lr] *)
Lemma fold_regions_narrows pp n m more lr lr' :
  foldl (fun acc region =>
           match acc with
           | inl e => inl e
           | inr lr => region_bounds pp n m lr region
           end) (inr lr) more = inr lr' ->
  lr'.1 <= lr.1 /\ lr'.2 <= lr.2.
Proof.
  revert lr. induction more as [|r more IH]; intros lr; cbn [foldl].
  - intros H. apply inr_eq_inv in H. subst. lra.
  - destruct (region_bounds pp n m lr r) as [e|lr1] eqn:E.
    + rewrite fold_regions_error. discriminate.
    + intros H. apply IH in H. apply region_bounds_narrows in E. lra.
Qed.

Lemma sample_bounds_app regions more p m s lr' :
  sample_bounds (regions ++ more) p m s = inr lr' ->
  exists lr, sample_bounds regions p m s = inr lr
             /\ lr'.1 <= lr.1 /\ lr'.2 <= lr.2.
Proof.
  unfold sample_bounds. cbv zeta. rewrite foldl_app.
  destruct (foldl _ (inr (10 ^ 6, 10 ^ 6)) regions) as [e|lr].
  - rewrite fold_regions_error. discriminate.
  - intros H. exists lr. split; [reflexivity|].
    exact (fold_regions_narrows _ _ _ _ _ _ H).
Qed.

Lemma all_bounds_app regions more p m ss lrs' :
  all_bounds (regions ++ more) p m ss = inr lrs' ->
  exists lrs, all_bounds regions p m ss = inr lrs
    /\ Forall2 (fun lr lr' : R * R => lr'.1 <= lr.1 /\ lr'.2 <= lr.2) lrs lrs'.
Proof.
  revert lrs'. induction ss as [|s ss IH]; intros lrs'; cbn [all_bounds].
  - intros H. apply inr_eq_inv in H. subst. exists []. split; [reflexivity|].
    constructor.
  - destruct (sample_bounds (regions ++ more) p m s) as [e|lr'] eqn:Es;
      [discriminate|].
    destruct (all_bounds (regions ++ more) p m ss) as [e|l'] eqn:Ea;
      [discriminate|].
    intros H. apply inr_eq_inv in H. subst.
    destruct (sample_bounds_app _ _ _ _ _ _ Es) as (lr & -> & Hlr).
    destruct (IH l' eq_refl) as (l & -> & Hl).
    exists (lr :: l). split; [reflexivity|]. constructor; assumption.
Qed.

Lemma clip_monotone x y lo hi : x <= y -> clip x lo hi <= clip y lo hi.
Proof.
  intros H. unfold clip.
  apply Rle_min_compat_r. apply Rle_max_compat_r. exact H.
Qed.

(** Two tables that are ordered entry by entry are read at the same index *)
Lemma bound_func_ordered (b b' : vector) p n s w' :
  Forall2 (fun x x' => x' <= x) b b' ->
  bound_func b' p n s = inr w' ->
  exists w, bound_func b p n s = inr w /\ w' <= w.
Proof.
  intros HF. pose proof (Forall2_length _ _ _ HF) as Hlen.
  unfold bound_func. destruct (Reqb _ 0); [discriminate|]. cbv zeta.
  set (idx := Z.min _ _). unfold py_index. rewrite Hlen.
  destruct (idx <? 0)%Z.
  - destruct (- idx <=? Z.of_nat (length b'))%Z; [|discriminate].
    destruct (b' !! _) as [x'|] eqn:E'; [|discriminate].
    intros H. apply inr_eq_inv in H. subst.
    destruct (Forall2_lookup_r _ _ _ _ _ HF E') as (x & -> & Hx).
    exists x. split; [reflexivity | exact Hx].
  - destruct (b' !! _) as [x'|] eqn:E'; [|discriminate].
    intros H. apply inr_eq_inv in H. subst.
    destruct (Forall2_lookup_r _ _ _ _ _ HF E') as (x & -> & Hx).
    exists x. split; [reflexivity | exact Hx].
Qed.

End NarrowingFacts.

(** ** Theorems: regions only narrow the corridor *)

Section NarrowingProperties.
Import Np RefPath RefPathFacts FrameFacts TableFacts Constraints Regions
  ConstraintFacts NarrowingFacts Samples SamplesFacts Scenarios SquarePathFacts.

(** X20.  Further regions never widen the corridor: whenever the conversion
    returns for a configuration, it also returns for the configuration
    without its last regions, and wherever a bound function of the larger
    configuration returns a width, the bound function of the smaller one
    returns a width that is at least as large, on the left and on the
    right. *)
Theorem more_regions_never_widen (regions more : list ConstraintRegion)
    (dm : option R) (p : ReferencePath) (margin : R)
    (l' r' : R -> Constraints.error + R) :
  convert_constraints_to_corridor_bounds
    (Some {| regions := regions ++ more; default_margin := dm |}) p margin
  = inr (Some (l', r')) ->
  exists l r,
    convert_constraints_to_corridor_bounds
      (Some {| regions := regions; default_margin := dm |}) p margin
    = inr (Some (l, r))
    /\ forall s,
         (forall w', l' s = inr w' -> exists w, l s = inr w /\ w' <= w)
         /\ (forall w', r' s = inr w' -> exists w, r s = inr w /\ w' <= w).
Proof.
  unfold convert_constraints_to_corridor_bounds, corridor_tables.
  cbv zeta. cbn [Constraints.regions default_margin].
  destruct (all_bounds (regions ++ more) p _ _) as [e|lrs'] eqn:Ea;
    [discriminate|].
  destruct (all_bounds_app _ _ _ _ _ _ Ea) as (lrs & -> & HF).
  intros H. apply inr_eq_inv in H. injection H as <- <-.
  eexists _, _. split; [reflexivity|].
  intros s. split; intros w' Hw'.
  - refine (bound_func_ordered _ _ _ _ _ _ _ Hw').
    apply Forall2_fmap. eapply Forall2_impl; [exact HF|].
    intros a b [H1 _]. apply clip_monotone. exact H1.
  - refine (bound_func_ordered _ _ _ _ _ _ _ Hw').
    apply Forall2_fmap. eapply Forall2_impl; [exact HF|].
    intros a b [_ H2]. apply clip_monotone. exact H2.
Qed.

Lemma more_regions_never_widen_witness :
  exists p l' r' l r,
    init fit square 0 1 = inr p
    /\ convert_constraints_to_corridor_bounds
         (Some {| regions := regions disc_config ++ [strip_region];
                  default_margin := None |}) p (5 / 1000)
       = inr (Some (l', r'))
    /\ convert_constraints_to_corridor_bounds
         (Some {| regions := regions disc_config; default_margin := None |})
         p (5 / 1000)
       = inr (Some (l, r))
    /\ forall s,
         (forall w', l' s = inr w' -> exists w, l s = inr w /\ w' <= w)
         /\ (forall w', r' s = inr w' -> exists w, r s = inr w /\ w' <= w).
Proof.
  destruct square_constructs as [p Hp].
  destruct (convert_defined
              {| regions := regions disc_config ++ [strip_region];
                 default_margin := None |} p (5 / 1000))
    as (lrs & _ & Hconv & _).
  { intros s. unfold sample_bounds. cbv zeta. apply fold_regions_defined.
    repeat constructor; discriminate. }
  destruct (more_regions_never_widen (regions disc_config) [strip_region]
              None p (5 / 1000) _ _ Hconv) as (l & r & Hc & Hs).
  eexists p, _, _, l, r.
  split; [exact Hp|]. split; [exact Hconv|]. split; [exact Hc | exact Hs].
Defined.

End NarrowingProperties.

(** ** Further facts: np.interp on ordered tables *)

Module MonotoneFacts.
Import Np NpFacts RefPath RefPathFacts ClosestFacts TableFacts FrameFacts.

Lemma nondecreasing_nth (l : list R) i j :
  nondecreasing l -> (i <= j)%nat -> (j < length l)%nat ->
  nth i l 0 <= nth j l 0.
Proof.
  intros Hmono Hij Hj.
  apply (nondecreasing_le l i j _ _ Hmono Hij); apply lookup_nth_R; lia.
Qed.

(** np.interp inside the range of the table: the segment the search finds,
    and the value read from it *)
Lemma interp_inside (xp fp : list R) x :
  (0 < length xp)%nat ->
  nth 0 xp 0 <= x <= nth (length xp - 1) xp 0 ->
  exists j, (j < length xp)%nat
    /\ nth j xp 0 <= x
    /\ (forall i, (j < i < length xp)%nat -> x < nth i xp 0)
    /\ (((j + 1 = length xp)%nat \/ nth j xp 0 = x)
        /\ interp x xp fp = nth j fp 0
        \/ ((j + 1 < length xp)%nat /\ nth j xp 0 < x
            /\ interp x xp fp
               = (nth (j + 1) fp 0 - nth j fp 0)
                 / (nth (j + 1) xp 0 - nth j xp 0) * (x - nth j xp 0)
                 + nth j fp 0)).
Proof.
  intros Hpos [Hlo Hhi].
  unfold interp. cbv zeta.
  rewrite (Rltb_false _ x) by exact Hhi.
  rewrite (Rltb_false x) by exact Hlo.
  unfold last_le.
  destruct (last_le_from_last x xp 0 0)
    as [[_ Hall] | (k & y & -> & Hk & Hyx & Hafter)].
  - exfalso. specialize (Hall O (nth 0 xp 0)).
    rewrite lookup_nth_R in Hall by lia. specialize (Hall eq_refl). lra.
  - cbn [Nat.add].
    assert (k < length xp)%nat as Hklen by (apply lookup_lt_Some in Hk; exact Hk).
    pose proof (nth_lookup_R _ _ _ Hk) as Hnk.
    exists k. rewrite !Hnk. split; [exact Hklen|]. split; [exact Hyx|].
    split.
    { intros i Hi. apply (Hafter i); [apply lookup_nth_R; lia | lia]. }
    destruct (Nat.eqb_spec k (length xp - 1)) as [E|E];
      [left; split; [left; lia | reflexivity]|].
    unfold Reqb. destruct (Req_dec_T y x) as [Eq|Eq];
      [left; split; [right; exact Eq | reflexivity]|].
    right. split; [lia|]. split; [lra | reflexivity].
Qed.

(** np.interp is non-decreasing in its argument when both tables are *)
Lemma interp_monotone (xp fp : list R) x1 x2 :
  nondecreasing xp -> nondecreasing fp ->
  length fp = length xp -> (0 < length xp)%nat ->
  x1 <= x2 -> interp x1 xp fp <= interp x2 xp fp.
Proof.
  intros Hxp Hfp Hlen Hpos Hx.
  set (n := length xp) in *.
  assert (forall x, nth 0 fp 0 <= interp x xp fp <= nth (n - 1) fp 0) as Hrange.
  { intros x. apply interp_between; [exact Hlen | exact Hpos |].
    intros i y Hy.
    assert (i < length fp)%nat as Hi by (apply lookup_lt_Some in Hy; exact Hy).
    rewrite <- (nth_lookup_R _ _ _ Hy).
    split; apply nondecreasing_nth; try assumption; lia. }
  destruct (Rlt_dec (nth (n - 1) xp 0) x2) as [H2|H2].
  { replace (interp x2 xp fp) with (nth (n - 1) fp 0); [apply Hrange|].
    unfold interp. cbv zeta. fold n. rewrite Rltb_true by exact H2. reflexivity. }
  destruct (Rlt_dec x1 (nth 0 xp 0)) as [H1|H1].
  { replace (interp x1 xp fp) with (nth 0 fp 0); [apply Hrange|].
    unfold interp. cbv zeta. fold n.
    rewrite Rltb_false.
    - rewrite Rltb_true by exact H1. reflexivity.
    - pose proof (nondecreasing_nth xp 0 (n - 1) Hxp ltac:(lia) ltac:(lia)). lra. }
  destruct (interp_inside xp fp x1 Hpos ltac:(fold n; lra))
    as (j1 & Hj1 & Hle1 & Haft1 & Hv1).
  destruct (interp_inside xp fp x2 Hpos ltac:(fold n; lra))
    as (j2 & Hj2 & Hle2 & Haft2 & Hv2).
  fold n in Hj1, Hj2, Haft1, Haft2, Hv1, Hv2.
  assert (j1 <= j2)%nat as Hj.
  { destruct (le_lt_dec j1 j2) as [H|H]; [exact H|].
    specialize (Haft2 j1 ltac:(lia)). lra. }
  (* on a segment the value is the convex combination of its two ends *)
  assert (forall j x, (j + 1 < n)%nat -> nth j xp 0 < x ->
            x < nth (j + 1) xp 0 ->
            exists t, 0 <= t <= 1
              /\ t = (x - nth j xp 0) / (nth (j + 1) xp 0 - nth j xp 0)
              /\ (nth (j + 1) fp 0 - nth j fp 0)
                 / (nth (j + 1) xp 0 - nth j xp 0) * (x - nth j xp 0)
                 + nth j fp 0
                 = nth j fp 0 + t * (nth (j + 1) fp 0 - nth j fp 0)) as Hseg.
  { intros j x Hjn Ha Hb.
    set (a := nth j xp 0) in *. set (b := nth (j + 1) xp 0) in *.
    exists ((x - a) / (b - a)). split; [|split; [reflexivity | field; lra]].
    split.
    - apply Rmult_le_pos; [lra | left; apply Rinv_0_lt_compat; lra].
    - apply (Rmult_le_reg_r (b - a)); [lra|].
      unfold Rdiv. rewrite Rmult_assoc, Rinv_l by lra. lra. }
  assert (forall j, (j + 1 < n)%nat -> nth j fp 0 <= nth (j + 1) fp 0) as Hstep
    by (intros j Hjn; apply nondecreasing_nth; try assumption; lia).
  assert (nth j1 fp 0 <= interp x1 xp fp
          /\ ((j1 + 1 < n)%nat -> interp x1 xp fp <= nth (j1 + 1) fp 0))
    as [Hlo1 Hhi1].
  { destruct Hv1 as [[_ ->]|(Hjn & Ha & ->)].
    - split; [lra | apply Hstep].
    - destruct (Hseg j1 x1 Hjn Ha (Haft1 (j1 + 1)%nat ltac:(lia)))
        as (t & [Ht0 Ht1] & _ & ->).
      specialize (Hstep j1 Hjn). split; [nra | intros _; nra]. }
  assert (nth j2 fp 0 <= interp x2 xp fp) as Hlo2.
  { destruct Hv2 as [[_ ->]|(Hjn & Ha & ->)]; [lra|].
    destruct (Hseg j2 x2 Hjn Ha (Haft2 (j2 + 1)%nat ltac:(lia)))
      as (t & [Ht0 Ht1] & _ & ->).
    specialize (Hstep j2 Hjn). nra. }
  destruct (decide (j1 = j2)) as [E|Hne].
  - subst j2.
    destruct Hv1 as [[_ E1]|(Hjn1 & Ha1 & E1)]; [rewrite E1; exact Hlo2|].
    destruct Hv2 as [[[Hl|Hl] _]|(Hjn2 & Ha2 & E2)]; [lia | lra |].
    rewrite E1, E2.
    destruct (Hseg j1 x1 Hjn1 Ha1 (Haft1 (j1 + 1)%nat ltac:(lia)))
      as (t1 & _ & Et1 & ->).
    destruct (Hseg j1 x2 Hjn1 Ha2 (Haft2 (j1 + 1)%nat ltac:(lia)))
      as (t2 & _ & Et2 & ->).
    specialize (Hstep j1 Hjn1).
    assert (t1 <= t2) as Ht.
    { rewrite Et1, Et2. pose proof (Haft1 (j1 + 1)%nat ltac:(lia)) as Hb.
      apply Rmult_le_compat_r; [left; apply Rinv_0_lt_compat; lra | lra]. }
    nra.
  - assert (j1 + 1 < n)%nat as Hjn by lia.
    specialize (Hhi1 Hjn).
    pose proof (nondecreasing_nth fp (j1 + 1) j2 Hfp ltac:(lia) ltac:(lia)).
    lra.
Qed.

End MonotoneFacts.

(** ** Theorems: the lookups are monotone *)

Section MonotoneProperties.
Import Np NpFacts RefPath RefPathFacts ClosestFacts TableFacts FrameFacts
  MonotoneFacts NarrowingFacts Samples SamplesFacts.

(** X21.  On a constructed path both table lookups are non-decreasing for
    all real arguments: a larger arclength never maps to a smaller spline
    parameter, and a larger parameter never maps back to a smaller
    arclength (the lookup that ends find_closest_theta). *)
Theorem arclength_lookups_monotone splprep wps s k p (x1 x2 : R) :
  init splprep wps s k = inr p ->
  x1 <= x2 ->
  _theta_to_u p x1 <= _theta_to_u p x2
  /\ interp x1 (u_dense p) (arclengths p)
     <= interp x2 (u_dense p) (arclengths p).
Proof.
  intros Hinit Hx.
  destruct (table_lengths splprep wps s k p Hinit) as (_ & Hal & Hpos).
  pose proof (constructed_nondecreasing _ _ _ _ _ Hinit) as Harc.
  pose proof (increasing_nondecreasing _
                (u_dense_increasing splprep wps s k p Hinit)) as Hu.
  split.
  - unfold _theta_to_u. cbv zeta.
    apply interp_monotone; [exact Harc | exact Hu | lia | lia |].
    apply clip_monotone. exact Hx.
  - apply interp_monotone; [exact Hu | exact Harc | lia | lia | exact Hx].
Qed.

Lemma arclength_lookups_monotone_witness :
  exists p, init fit square 0 1 = inr p
    /\ _theta_to_u p 1 <= _theta_to_u p 2
    /\ interp (1 / 4) (u_dense p) (arclengths p)
       <= interp (1 / 2) (u_dense p) (arclengths p).
Proof.
  destruct square_constructs as [p Hp]. exists p. split; [exact Hp|].
  split.
  - exact (proj1 (arclength_lookups_monotone fit square 0 1 p 1 2 Hp
                    ltac:(lra))).
  - exact (proj2 (arclength_lookups_monotone fit square 0 1 p (1 / 4) (1 / 2)
                    Hp ltac:(lra))).
Defined.

End MonotoneProperties.

(** ** Further facts: the round trip through the tables *)

Module RoundTripFacts.
Import Np NpFacts RefPath RefPathFacts ClosestFacts TableFacts FrameFacts
  MonotoneFacts.

(** Looking a value up in a non-decreasing table and looking the answer up
    in the opposite direction returns the value, when the other table
    increases strictly *)
Lemma interp_round_trip (xp fp : list R) x :
  nondecreasing xp -> increasing fp ->
  length fp = length xp -> (0 < length xp)%nat ->
  nth 0 xp 0 <= x <= nth (length xp - 1) xp 0 ->
  interp (interp x xp fp) fp xp = x.
Proof.
  intros Hxp Hfp Hlen Hpos Hx.
  pose proof (increasing_nondecreasing _ Hfp) as Hfp'.
  assert (forall i j, (i < j)%nat -> (j < length fp)%nat ->
            nth i fp 0 < nth j fp 0) as Hlt.
  { intros i j Hij Hj. apply (Hfp i j); [apply lookup_nth_R; lia.. | exact Hij]. }
  destruct (interp_inside xp fp x Hpos Hx) as (j & Hj & Hle & Haft & Hv).
  destruct Hv as [[Hend ->]|(Hjn & Ha & ->)].
  - rewrite (interp_at_entry_increasing fp xp j (nth j fp 0) Hfp)
      by (apply lookup_nth_R; lia).
    destruct Hend as [Hend|Hend]; [|exact Hend].
    replace (length xp - 1)%nat with j in Hx by lia. lra.
  - pose proof (Haft (j + 1)%nat ltac:(lia)) as Hb.
    pose proof (Hlt j (j + 1)%nat ltac:(lia) ltac:(lia)) as Hf.
    set (a := nth j xp 0) in *. set (b := nth (j + 1) xp 0) in *.
    set (f0 := nth j fp 0) in *. set (f1 := nth (j + 1) fp 0) in *.
    set (u := (f1 - f0) / (b - a) * (x - a) + f0).
    assert (f0 < u < f1) as [Hu0 Hu1].
    { assert (0 < (x - a) / (b - a) < 1) as [Ht0 Ht1].
      { split.
        - apply Rdiv_lt_0_compat; lra.
        - apply (Rmult_lt_reg_r (b - a)); [lra|].
          unfold Rdiv. rewrite Rmult_assoc, Rinv_l by lra. lra. }
      replace u with (f0 + (x - a) / (b - a) * (f1 - f0))
        by (unfold u; field; lra).
      split; nra. }
    destruct (interp_inside fp xp u) as (j' & Hj' & Hle' & Haft' & Hv').
    { lia. }
    { split.
      - pose proof (nondecreasing_nth fp 0 j Hfp' ltac:(lia) ltac:(lia)).
        fold f0 in H. lra.
      - pose proof (nondecreasing_nth fp (j + 1) (length fp - 1) Hfp'
                      ltac:(lia) ltac:(lia)).
        fold f1 in H. lra. }
    assert (j' = j) as ->.
    { destruct (lt_eq_lt_dec j' j) as [[H|H]|H]; [|exact H|].
      - specialize (Haft' j ltac:(lia)). fold f0 in Haft'. lra.
      - pose proof (nondecreasing_nth fp (j + 1) j' Hfp' ltac:(lia) ltac:(lia)).
        fold f1 in H0. lra. }
    fold f0 f1 a b in Hv', Hle'.
    destruct Hv' as [[[Hend|Hend] _]|(_ & _ & ->)]; [lia | lra |].
    unfold u. field. lra.
Qed.

(** A Newton pass never leaves the parameter below its lower limit *)
Lemma newton_lower_limit (t : Spline) px py min_u iters u0 :
  min_u <= 1 -> min_u <= u0 -> min_u <= newton t px py min_u iters u0.
Proof.
  intros H1. revert u0. induction iters as [|n IH]; intros u0 Hu;
    [exact Hu|].
  cbn [newton]. cbv zeta.
  destruct (splev u0 t 1) as [c1x c1y]. destruct (splev u0 t 2) as [c2x c2y].
  destruct (Rltb _ tol_den); [exact Hu|].
  destruct (Rltb _ newton_tol); [exact Hu|].
  assert (forall v, min_u <= clip v min_u 1) as Hclip.
  { intros v. unfold clip. apply Rmin_glb; [apply Rmax_r | exact H1]. }
  destruct (Rltb _ newton_tol); [apply Hclip | apply IH, Hclip].
Qed.

Section Constructed.

Variable splprep : list point -> R -> nat -> option (Spline * list R).
Variables (wps : list raw_point) (s : R) (k : nat) (p : ReferencePath).
Hypothesis Hinit : init splprep wps s k = inr p.

Lemma arclengths_ends :
  nth 0 (arclengths p) 0 = 0
  /\ nth (length (arclengths p) - 1) (arclengths p) 0 = total_length p.
Proof.
  destruct (init_inr _ _ _ _ _ Hinit) as (_ & Ha & Ht).
  split; [rewrite Ha; reflexivity | symmetry; exact Ht].
Qed.

Lemma u_dense_ends :
  nth 0 (u_dense p) 0 = 0
  /\ nth (length (u_dense p) - 1) (u_dense p) 0 = 1.
Proof.
  destruct (init_inr _ _ _ _ _ Hinit) as (-> & _ & _).
  assert (length (linspace 0 1 num_dense) = num_dense) as ->
    by (unfold linspace; rewrite length_fmap, length_seq; reflexivity).
  split; apply nth_lookup_R; rewrite linspace_lookup
    by (unfold num_dense; lia); f_equal.
  - cbn [INR]. lra.
  - rewrite Rminus_0_r, Rplus_0_l. field.
    apply not_0_INR. unfold num_dense. lia.
Qed.

Lemma theta_round_trip theta :
  interp (_theta_to_u p theta) (u_dense p) (arclengths p)
  = clip theta 0 (total_length p).
Proof.
  destruct (table_lengths splprep wps s k p Hinit) as (_ & Hal & Hpos).
  destruct arclengths_ends as [H0 HL].
  pose proof (constructed_total_length_nonneg _ _ _ _ _ Hinit) as Hnn.
  unfold _theta_to_u. cbv zeta.
  apply interp_round_trip.
  - exact (constructed_nondecreasing _ _ _ _ _ Hinit).
  - exact (u_dense_increasing splprep wps s k p Hinit).
  - lia.
  - lia.
  - rewrite H0, HL. unfold clip. split.
    + apply Rmin_glb; [apply Rmax_r | exact Hnn].
    + apply Rmin_r.
Qed.

(** The lookup of a minimum arclength gives a parameter in [0, 1] *)
Lemma min_u_range m :
  0 <= interp m (arclengths p) (u_dense p) <= 1.
Proof.
  destruct (table_lengths splprep wps s k p Hinit) as (_ & Hal & Hpos).
  destruct (init_inr _ _ _ _ _ Hinit) as (Hu & _ & _).
  apply interp_between; [lia | lia |].
  intros i y Hy. rewrite Hu in Hy. exact (linspace_unit_range _ _ _ Hy).
Qed.

(** With a minimum arclength the projection is not behind it *)
Lemma find_closest_forward pos g m :
  Rmin m (total_length p) <= find_closest_theta p pos g (Some m).
Proof.
  destruct (table_lengths splprep wps s k p Hinit) as (_ & Hal & Hpos).
  pose proof (constructed_nondecreasing _ _ _ _ _ Hinit) as Harc.
  pose proof (increasing_nondecreasing _
                (u_dense_increasing splprep wps s k p Hinit)) as Hu.
  pose proof (constructed_total_length_nonneg _ _ _ _ _ Hinit) as Hnn.
  destruct arclengths_ends as [H0 HL].
  unfold find_closest_theta. destruct pos as [px py]. cbv zeta.
  set (min_u := interp m (arclengths p) (u_dense p)).
  set (u0 := Rmax _ min_u).
  pose proof (min_u_range m) as [_ Hm1]. fold min_u in Hm1.
  pose proof (newton_lower_limit (tck p) px py min_u newton_max_iter u0 Hm1
                (Rmax_r _ _)) as Hnewton.
  set (u1 := newton _ _ _ _ _ _) in *.
  assert (interp min_u (u_dense p) (arclengths p)
          <= interp u1 (u_dense p) (arclengths p)) as Hmono
    by (apply interp_monotone; [exact Hu | exact Harc | lia | lia | exact Hnewton]).
  assert (0 <= interp min_u (u_dense p) (arclengths p)) as Hlow.
  { apply (interp_between (u_dense p) (arclengths p) min_u 0 (total_length p));
      [lia | lia |].
    intros i y Hy. pose proof (lookup_lt_Some _ _ _ Hy) as Hi. split.
    - rewrite <- H0.
      apply (nondecreasing_le (arclengths p) O i _ y Harc);
        [lia | apply lookup_nth_R; lia | exact Hy].
    - rewrite <- HL.
      apply (nondecreasing_le (arclengths p) i (length (arclengths p) - 1) y _
               Harc); [lia | exact Hy | apply lookup_nth_R; lia]. }
  destruct (Rle_dec 0 m) as [Hm0|Hm0].
  - (* the minimum lies on the path or beyond its end *)
    assert (interp min_u (u_dense p) (arclengths p)
            = clip m 0 (total_length p)) as E.
    { destruct (Rle_dec m (total_length p)) as [HmL|HmL].
      - pose proof (theta_round_trip m) as Hrt. unfold _theta_to_u in Hrt.
        cbv zeta in Hrt.
        replace (clip m 0 (total_length p)) with m in Hrt at 1; [exact Hrt|].
        unfold clip. rewrite Rmax_left, Rmin_left by lra. reflexivity.
      - pose proof (theta_round_trip m) as Hrt. unfold _theta_to_u in Hrt.
        cbv zeta in Hrt. rewrite <- Hrt. f_equal. unfold min_u.
        unfold clip at 1. rewrite Rmax_left, Rmin_right by lra.
        (* beyond the end the lookup returns the last entry, as at the end *)
        unfold interp at 1. cbv zeta.
        rewrite HL, Rltb_true by lra.
        destruct (interp_at_entry (arclengths p) (u_dense p)
                    (length (arclengths p) - 1) (total_length p) Harc)
          as (j & Hj & Hjl & ->).
        { rewrite <- HL. apply lookup_nth_R. lia. }
        apply lookup_lt_Some in Hjl. f_equal. lia. }
    rewrite E in Hmono. unfold clip in Hmono.
    rewrite Rmax_left in Hmono by lra. exact Hmono.
  - pose proof (Rmin_l m (total_length p)). lra.
Qed.

End Constructed.

End RoundTripFacts.

(** ** Theorems: round trip and forward progress *)

Section RoundTripProperties.
Import Np NpFacts RefPath RefPathFacts ClosestFacts TableFacts FrameFacts
  MonotoneFacts RoundTripFacts Fitpack FitpackFacts Samples SamplesFacts
  SquareFacts Scenarios ScenarioFacts.

(** X22.  On a constructed path, mapping an arclength to the spline
    parameter and the parameter back to an arclength returns the arclength
    clipped to [0, total_length]; on [0, total_length] the round trip is
    the identity, so there a larger arclength maps to a strictly larger
    parameter, also where the arclength table has repeated entries. *)
Theorem arclength_round_trip splprep wps s k p :
  init splprep wps s k = inr p ->
  (forall theta,
     interp (_theta_to_u p theta) (u_dense p) (arclengths p)
     = clip theta 0 (total_length p))
  /\ (forall theta, 0 <= theta <= total_length p ->
        interp (_theta_to_u p theta) (u_dense p) (arclengths p) = theta)
  /\ (forall theta1 theta2,
        0 <= theta1 -> theta1 < theta2 -> theta2 <= total_length p ->
        _theta_to_u p theta1 < _theta_to_u p theta2).
Proof.
  intros Hinit.
  pose proof (theta_round_trip splprep wps s k p Hinit) as Hrt.
  assert (forall theta, 0 <= theta <= total_length p ->
            interp (_theta_to_u p theta) (u_dense p) (arclengths p) = theta)
    as Hin.
  { intros theta [H0 H1]. rewrite Hrt. unfold clip.
    rewrite Rmax_left, Rmin_left by lra. reflexivity. }
  split; [exact Hrt|]. split; [exact Hin|].
  intros t1 t2 H0 Hlt HL.
  destruct (table_lengths splprep wps s k p Hinit) as (_ & Hal & Hpos).
  assert (_theta_to_u p t1 <= _theta_to_u p t2) as [Hs|He].
  { unfold _theta_to_u. cbv zeta. apply interp_monotone.
    - exact (constructed_nondecreasing _ _ _ _ _ Hinit).
    - exact (increasing_nondecreasing _
               (u_dense_increasing splprep wps s k p Hinit)).
    - lia.
    - lia.
    - unfold clip. rewrite !Rmax_left, !Rmin_left by lra. lra. }
  - exact Hs.
  - exfalso. pose proof (Hin t1 ltac:(lra)) as E1.
    pose proof (Hin t2 ltac:(lra)) as E2. rewrite He in E1. lra.
Qed.

Lemma arclength_round_trip_witness :
  exists p, init fit square 0 1 = inr p
    /\ interp (_theta_to_u p 1) (u_dense p) (arclengths p)
       = clip 1 0 (total_length p).
Proof.
  destruct square_constructs as [p Hp]. exists p. split; [exact Hp|].
  exact (proj1 (arclength_round_trip fit square 0 1 p Hp) 1).
Defined.

(** X23.  On a constructed path of degree at least 2, find_closest_theta
    with a min_theta returns (it does not raise), for every position and
    initial guess, an arclength that is at least min(min_theta,
    total_length): a min_theta on the path is never undercut, whatever the
    Newton steps do. *)
Theorem min_theta_is_enforced (degree_of : Spline -> nat) splprep wps s k p
    (pos : point) (g : option R) (m : R) :
  init splprep wps s k = inr p ->
  (2 <= degree_of (tck p))%nat ->
  exists th,
    find_closest_theta_checked degree_of p pos g (Some m) = Some th
    /\ Rmin m (total_length p) <= th <= total_length p
    /\ (m <= total_length p -> m <= th).
Proof.
  intros Hinit Hd. exists (find_closest_theta p pos g (Some m)).
  pose proof (find_closest_forward splprep wps s k p Hinit pos g m) as Hf.
  pose proof (find_closest_in_range _ _ _ _ _ pos g (Some m) Hinit) as [_ Hr].
  split; [apply find_closest_checked_defined; exact Hd|].
  split; [split; assumption|].
  intros Hm. rewrite Rmin_left in Hf by exact Hm. exact Hf.
Qed.

Lemma min_theta_is_enforced_witness :
  exists p, init fit_degree_three square 0 3 = inr p
    /\ (2 <= degree_three (tck p))%nat
    /\ exists th,
         find_closest_theta_checked degree_three p (0, 0) None (Some 1)
         = Some th
         /\ Rmin 1 (total_length p) <= th <= total_length p
         /\ (1 <= total_length p -> 1 <= th).
Proof.
  destruct cubic_square_constructs as (p & Hp & _). exists p.
  split; [exact Hp|]. split; [unfold degree_three; lia|].
  apply (min_theta_is_enforced degree_three fit_degree_three square 0 3 p
           (0, 0) None 1 Hp).
  unfold degree_three. lia.
Defined.

End RoundTripProperties.

(** ** Further facts: the offset problem *)

Module DifferenceFacts.
Import Np NpFacts RefPath RefPathFacts Corridor OffsetProblem.

Lemma dot_zeros n (x : vector) : dot (replicate n 0) x = 0.
Proof.
  revert x. induction n as [|n IH]; intros [|a x]; cbn [replicate dot];
    try reflexivity.
  rewrite IH. lra.
Qed.

(** Assigning one entry of a row changes row @ x by the change of the
    entry times x[i] *)
Lemma dot_insert (row x : vector) i v :
  (i < length row)%nat -> (i < length x)%nat ->
  dot (<[i := v]> row) x = dot row x + (v - nth i row 0) * nth i x 0.
Proof.
  revert x i. induction row as [|a row IH]; intros [|b x] i Hr Hx;
    cbn [length] in *; try lia.
  destruct i as [|i].
  - cbn [insert list_insert dot nth]. ring.
  - change (<[S i := v]> (a :: row)) with (a :: <[i := v]> row).
    cbn [dot nth]. rewrite IH by lia. ring.
Qed.

Lemma nth_insert_ne (row : vector) i j v :
  i <> j -> nth j (<[i := v]> row) 0 = nth j row 0.
Proof.
  intros H. rewrite !nth_lookup, list_lookup_insert_ne by exact H.
  reflexivity.
Qed.

Lemma nth_replicate_zero n j : nth j (replicate n 0) 0 = 0.
Proof.
  rewrite nth_lookup. destruct (replicate n 0 !! j) as [y|] eqn:E;
    [|reflexivity].
  apply lookup_replicate in E as [-> _]. reflexivity.
Qed.

Lemma mset_lookup (A : matrix) k i v :
  mset A k i v !! k = (fun row => <[i := v]> row) <$> A !! k.
Proof. unfold mset. apply list_lookup_alter_eq. Qed.

Lemma mset_lookup_ne (A : matrix) k j i v :
  k <> j -> mset A k i v !! j = A !! j.
Proof. intros H. unfold mset. apply list_lookup_alter_ne. exact H. Qed.

(** The rows of D1 after the first [n] passes of its loop *)
Lemma D1_rows rows N n k :
  (n <= rows)%nat -> (k < rows)%nat ->
  foldl (fun D k => mset (mset D k k (-1)) k (k + 1) 1)
        (zeros2 rows N) (seq 0 n) !! k
  = Some (if decide (k < n)%nat
          then <[(k + 1)%nat := 1]> (<[k := -1]> (replicate N 0))
          else replicate N 0).
Proof.
  intros Hn Hk. induction n as [|n IH].
  - cbn [seq foldl]. unfold zeros2. rewrite lookup_replicate_2 by exact Hk.
    reflexivity.
  - rewrite seq_S, foldl_app. cbn [Nat.add foldl].
    destruct (decide (k = n)) as [->|Hne].
    + rewrite !mset_lookup, IH by lia.
      rewrite decide_False by lia. rewrite decide_True by lia. reflexivity.
    + rewrite !mset_lookup_ne by congruence. rewrite IH by lia.
      destruct (decide (k < n)%nat), (decide (k < S n)%nat); try lia;
        reflexivity.
Qed.

Lemma D2_rows rows N n k :
  (n <= rows)%nat -> (k < rows)%nat ->
  foldl (fun D k => mset (mset (mset D k k 1) k (k + 1) (-2)) k (k + 2) 1)
        (zeros2 rows N) (seq 0 n) !! k
  = Some (if decide (k < n)%nat
          then <[(k + 2)%nat := 1]>
                 (<[(k + 1)%nat := -2]> (<[k := 1]> (replicate N 0)))
          else replicate N 0).
Proof.
  intros Hn Hk. induction n as [|n IH].
  - cbn [seq foldl]. unfold zeros2. rewrite lookup_replicate_2 by exact Hk.
    reflexivity.
  - rewrite seq_S, foldl_app. cbn [Nat.add foldl].
    destruct (decide (k = n)) as [->|Hne].
    + rewrite !mset_lookup, IH by lia.
      rewrite decide_False by lia. rewrite decide_True by lia. reflexivity.
    + rewrite !mset_lookup_ne by congruence. rewrite IH by lia.
      destruct (decide (k < n)%nat), (decide (k < S n)%nat); try lia;
        reflexivity.
Qed.

Lemma foldl_rows_length {A : Type} (step : matrix -> A -> matrix)
    (D : matrix) (ks : list A) :
  (forall D k, length (step D k) = length D) ->
  length (foldl step D ks) = length D.
Proof.
  intros Hstep. revert D. induction ks as [|k ks IH]; intros D;
    [reflexivity|].
  cbn [foldl]. rewrite IH. apply Hstep.
Qed.

Lemma mset_length (A : matrix) k i v : length (mset A k i v) = length A.
Proof. unfold mset. apply length_alter. Qed.

Lemma D1_length N : length (D1 N) = (N - 1)%nat.
Proof.
  unfold D1. rewrite foldl_rows_length.
  - unfold zeros2. apply length_replicate.
  - intros D k. rewrite !mset_length. reflexivity.
Qed.

Lemma D2_length N : length (D2 N) = (N - 2)%nat.
Proof.
  unfold D2. rewrite foldl_rows_length.
  - unfold zeros2. apply length_replicate.
  - intros D k. rewrite !mset_length. reflexivity.
Qed.

Lemma diff_vec_length (d : vector) : length (diff_vec d) = (length d - 1)%nat.
Proof.
  induction d as [|a [|b t] IH]; try reflexivity.
  change (diff_vec (a :: b :: t)) with ((b - a) :: diff_vec (b :: t)).
  cbn [length] in *. lia.
Qed.

Lemma diff_vec_entry (d : vector) k :
  (k + 1 < length d)%nat ->
  diff_vec d !! k = Some (nth (k + 1) d 0 - nth k d 0).
Proof.
  revert k. induction d as [|a [|b t] IH]; intros k Hk; cbn [length] in Hk;
    try lia.
  change (diff_vec (a :: b :: t)) with ((b - a) :: diff_vec (b :: t)).
  destruct k as [|k]; [reflexivity|].
  cbn [lookup list_lookup]. change (list_lookup k (diff_vec (b :: t)))
    with (diff_vec (b :: t) !! k).
  rewrite IH by (cbn [length]; lia). reflexivity.
Qed.

(** *** The difference matrices applied to a vector *)

Lemma D1_matvec (d : vector) : matvec (D1 (length d)) d = diff_vec d.
Proof.
  apply list_eq; intros k; unfold matvec; rewrite list_lookup_fmap.
  destruct (decide (k < length d - 1)%nat) as [Hk|Hk].
  - unfold D1. rewrite D1_rows by lia. rewrite decide_True by exact Hk.
    rewrite diff_vec_entry by lia.
    cbn [fmap option_fmap option_map]. f_equal.
    rewrite dot_insert
      by (rewrite ?length_insert, ?length_replicate; lia).
    rewrite dot_insert by (rewrite ?length_replicate; lia).
    rewrite nth_insert_ne by lia. rewrite !nth_replicate_zero, dot_zeros.
    ring.
  - rewrite (lookup_ge_None_2 (D1 _)) by (rewrite D1_length; lia).
    rewrite lookup_ge_None_2 by (rewrite diff_vec_length; lia).
    reflexivity.
Qed.

Lemma D2_matvec (d : vector) :
  matvec (D2 (length d)) d = diff_vec (diff_vec d).
Proof.
  apply list_eq; intros k; unfold matvec; rewrite list_lookup_fmap.
  destruct (decide (k < length d - 2)%nat) as [Hk|Hk].
  - unfold D2. rewrite D2_rows by lia. rewrite decide_True by exact Hk.
    rewrite (diff_vec_entry (diff_vec d))
      by (rewrite diff_vec_length; lia).
    rewrite (nth_lookup_R _ _ _ (diff_vec_entry d k ltac:(lia))).
    rewrite (nth_lookup_R _ _ _ (diff_vec_entry d (k + 1) ltac:(lia))).
    cbn [fmap option_fmap option_map]. f_equal.
    rewrite !dot_insert
      by (rewrite ?length_insert, ?length_replicate; lia).
    rewrite !nth_insert_ne by lia. rewrite !nth_replicate_zero, dot_zeros.
    replace (k + 1 + 1)%nat with (k + 2)%nat by lia. ring.
  - rewrite (lookup_ge_None_2 (D2 _)) by (rewrite D2_length; lia).
    rewrite lookup_ge_None_2 by (rewrite !diff_vec_length; lia).
    reflexivity.
Qed.

Lemma D1_row_lengths N : Forall (fun r : vector => length r = N) (D1 N).
Proof.
  apply Forall_lookup. intros k r Hr.
  assert (k < N - 1)%nat as Hk
    by (apply lookup_lt_Some in Hr; rewrite D1_length in Hr; exact Hr).
  unfold D1 in Hr. rewrite D1_rows in Hr by lia.
  rewrite decide_True in Hr by exact Hk. injection Hr as <-.
  rewrite !length_insert. apply length_replicate.
Qed.

Lemma D2_row_lengths N : Forall (fun r : vector => length r = N) (D2 N).
Proof.
  apply Forall_lookup. intros k r Hr.
  assert (k < N - 2)%nat as Hk
    by (apply lookup_lt_Some in Hr; rewrite D2_length in Hr; exact Hr).
  unfold D2 in Hr. rewrite D2_rows in Hr by lia.
  rewrite decide_True in Hr by exact Hk. injection Hr as <-.
  rewrite !length_insert. apply length_replicate.
Qed.

(** *** Matrices as tables of their entries *)

Lemma gram_tabulate N (D : matrix) :
  matmul N (mtranspose N D) D
  = tabulate N (fun i j =>
      dot ((fun row : vector => nth i row 0) <$> D)
          ((fun row : vector => nth j row 0) <$> D)).
Proof.
  unfold matmul, mtranspose, tabulate.
  rewrite <- list_fmap_compose. apply list_fmap_ext. intros _ i _.
  cbn [compose]. rewrite <- list_fmap_compose. reflexivity.
Qed.

Lemma zip_with_same {A B : Type} (f : A -> A -> B) (l : list A) :
  zip_with f l l = (fun x => f x x) <$> l.
Proof.
  induction l as [|x l IH]; [reflexivity|]. cbn. rewrite IH. reflexivity.
Qed.

Lemma vadd_tabulated (f g : nat -> R) (l : list nat) :
  vadd (f <$> l) (g <$> l) = (fun j => f j + g j) <$> l.
Proof.
  unfold vadd. rewrite zip_with_fmap_l, zip_with_fmap_r, zip_with_same.
  reflexivity.
Qed.

Lemma madd_tabulate n f g :
  madd (tabulate n f) (tabulate n g) = tabulate n (fun i j => f i j + g i j).
Proof.
  unfold madd, tabulate.
  rewrite zip_with_fmap_l, zip_with_fmap_r, zip_with_same.
  apply list_fmap_ext. intros _ i _. apply vadd_tabulated.
Qed.

Lemma mscale_l_tabulate n c f :
  mscale_l c (tabulate n f) = tabulate n (fun i j => c * f i j).
Proof.
  unfold mscale_l, tabulate, smul. rewrite <- list_fmap_compose.
  apply list_fmap_ext. intros _ i _. cbn [compose].
  rewrite <- list_fmap_compose. reflexivity.
Qed.

Lemma eye_tabulate n :
  eye n = tabulate n (fun k i => if decide (i = k) then 1 else 0).
Proof. reflexivity. Qed.

Lemma nth_tabulated (f : nat -> R) n i :
  (i < n)%nat -> nth i (f <$> seq 0 n) 0 = f i.
Proof.
  intros Hi. apply nth_lookup_R.
  rewrite list_lookup_fmap, lookup_seq_lt by exact Hi. reflexivity.
Qed.

Lemma mtranspose_tabulate n f :
  mtranspose n (tabulate n f) = tabulate n (fun i j => f j i).
Proof.
  unfold mtranspose, tabulate. apply list_fmap_ext. intros i0 i Hi.
  apply lookup_seq in Hi as [-> Hi]. cbn [Nat.add].
  rewrite <- list_fmap_compose. apply list_fmap_ext. intros _ k _.
  cbn [compose]. apply nth_tabulated. exact Hi.
Qed.

Lemma dot_table (f : nat -> R) (d : vector) :
  dot (f <$> seq 0 (length d)) d
  = sumR (fun j => f j * nth j d 0) (length d).
Proof.
  rewrite (vector_as_table d) at 2. rewrite dot_tabulated. reflexivity.
Qed.

Lemma dot_self (d : vector) :
  dot d d = sumR (fun i => nth i d 0 * nth i d 0) (length d).
Proof. rewrite (vector_as_table d) at 1. apply dot_table. Qed.

Lemma dot_self_nonneg (v : vector) : 0 <= dot v v.
Proof.
  induction v as [|x v IH]; cbn [dot]; [lra|].
  pose proof (Rle_0_sqr x) as Hx. unfold Rsqr in Hx. lra.
Qed.

(** The quadratic form d @ H @ d of a tabulated matrix *)
Lemma quadratic_form_tabulate (h : nat -> nat -> R) (d : vector) :
  dot (matvec (mtranspose (length d) (tabulate (length d) h)) d) d
  = sumR (fun i => sumR (fun j => h j i * nth j d 0) (length d) * nth i d 0)
         (length d).
Proof.
  rewrite mtranspose_tabulate. unfold matvec, tabulate.
  rewrite <- list_fmap_compose. rewrite dot_table.
  apply sumR_ext. intros i _. cbn [compose]. rewrite dot_table. reflexivity.
Qed.

Lemma sumR_zero n : sumR (fun _ => 0) n = 0.
Proof. induction n as [|n IH]; simpl; [reflexivity | rewrite IH; lra]. Qed.

(** The quadratic form of D.T @ D is the squared length of D @ d *)
Lemma quadratic_form_gram (D : matrix) (d : vector) :
  Forall (fun r : vector => length r = length d) D ->
  sumR (fun i =>
          sumR (fun j =>
                  dot ((fun row : vector => nth j row 0) <$> D)
                      ((fun row : vector => nth i row 0) <$> D)
                  * nth j d 0) (length d) * nth i d 0) (length d)
  = dot (matvec D d) (matvec D d).
Proof.
  induction 1 as [|r D Hr HD IH].
  - cbn [fmap list_fmap dot matvec].
    rewrite <- (sumR_zero (length d)) at 1. apply sumR_ext. intros i _.
    rewrite (sumR_ext _ (fun _ => 0)) by (intros; lra).
    rewrite sumR_zero. lra.
  - unfold matvec in *. rewrite (fmap_cons _ r D). cbn [dot]. rewrite <- IH.
    clear IH.
    set (Sd := sumR (fun j => nth j r 0 * nth j d 0) (length d)).
    assert (dot r d = Sd) as ->.
    { rewrite (vector_as_table r) at 1. rewrite Hr. apply dot_table. }
    transitivity
      (sumR (fun i =>
               Sd * (nth i r 0 * nth i d 0)
               + sumR (fun j =>
                         dot ((fun row : vector => nth j row 0) <$> D)
                             ((fun row : vector => nth i row 0) <$> D)
                         * nth j d 0) (length d) * nth i d 0) (length d)).
    + apply sumR_ext. intros i _.
      rewrite (sumR_ext _
                 (fun j =>
                    nth i r 0 * (nth j r 0 * nth j d 0)
                    + dot ((fun row : vector => nth j row 0) <$> D)
                          ((fun row : vector => nth i row 0) <$> D)
                      * nth j d 0))
        by (intros j _; rewrite !fmap_cons; cbn [dot]; ring).
      rewrite sumR_plus, sumR_scal. fold Sd. ring.
    + rewrite sumR_plus, sumR_scal. fold Sd. reflexivity.
Qed.

(** d @ I @ d *)
Lemma quadratic_form_eye (d : vector) i :
  (i < length d)%nat ->
  sumR (fun j => (if decide (i = j) then 1 else 0) * nth j d 0) (length d)
  = nth i d 0.
Proof.
  intros Hi.
  rewrite (sumR_ext _ (fun j => nth j d 0 * (if decide (j = i) then 1 else 0))).
  - rewrite sumR_impulse. rewrite decide_True by exact Hi. reflexivity.
  - intros j _. destruct (decide (i = j)), (decide (j = i)); try congruence;
      ring.
Qed.

(** The objective of the offset problem in closed form *)
Lemma objective_closed_form (alpha beta gamma_center : R) (f d : vector) :
  objective (length d)
    (smoothing_matrix (length d) alpha beta gamma_center) f d
  = (1 / 2) * (alpha * dot (diff_vec d) (diff_vec d)
               + beta * dot (diff_vec (diff_vec d)) (diff_vec (diff_vec d))
               + gamma_center * dot d d)
    + dot f d.
Proof.
  unfold objective, smoothing_matrix.
  rewrite !gram_tabulate, eye_tabulate, !mscale_l_tabulate, !madd_tabulate.
  rewrite quadratic_form_tabulate.
  f_equal. f_equal.
  rewrite <- (D2_matvec d), <- (D1_matvec d).
  rewrite <- (quadratic_form_gram (D1 (length d)) d)
    by apply D1_row_lengths.
  rewrite <- (quadratic_form_gram (D2 (length d)) d)
    by apply D2_row_lengths.
  rewrite dot_self, <- !sumR_scal, <- !sumR_plus.
  apply sumR_ext. intros i Hi.
  rewrite (sumR_ext _
             (fun j =>
                alpha * (dot ((fun row : vector => nth j row 0) <$> D1 (length d))
                             ((fun row : vector => nth i row 0) <$> D1 (length d))
                         * nth j d 0)
                + beta * (dot ((fun row : vector => nth j row 0) <$> D2 (length d))
                              ((fun row : vector => nth i row 0) <$> D2 (length d))
                          * nth j d 0)
                + gamma_center * ((if decide (i = j) then 1 else 0) * nth j d 0)))
    by (intros; ring).
  rewrite !sumR_plus, !sumR_scal, quadratic_form_eye by exact Hi. ring.
Qed.

(** [offsets_on] hands the solver this objective, with the gradient
    H @ d + f *)
Lemma offsets_on_objective minimize (centerline : ReferencePath) N
    tunnel_width margin alpha beta lambda_length gamma_center :
  offsets_on minimize centerline N tunnel_width margin alpha beta
             lambda_length gamma_center
  = let s_knots := linspace 0 (total_length centerline) N in
    let f := smul lambda_length
               (zip_with Rmult (curvature centerline <$> s_knots)
                         (knot_spacing s_knots)) in
    let H := smoothing_matrix N alpha beta gamma_center in
    let res := minimize (objective N H f) (zeros N)
                 (Some (fun d : vector => vadd (matvec H d) f))
                 (offset_bounds N (half_width tunnel_width margin)) in
    if Scipy.res_success res then Scipy.res_x res else zeros N.
Proof. reflexivity. Qed.

End DifferenceFacts.

(** ** Theorems: the offset problem *)

Section DifferenceProperties.
Import Np NpFacts RefPath RefPathFacts Corridor OffsetProblem DifferenceFacts.

(** X24.  The two matrices built by the loops of
    generate_optimal_reference_path are the first and the second
    difference: D1 @ d is np.diff(d) and D2 @ d is np.diff(d, 2) for every
    vector d of N >= 2 entries (fewer knots make np.zeros raise).  So the
    objective handed to the solver is 0.5 * (alpha * |diff d|^2 + beta *
    |diff2 d|^2 + gamma_center * |d|^2) + f @ d, and for weights that are
    not negative it is never below its linear part. *)
Theorem offset_objective_closed_form (alpha beta gamma_center : R)
    (f d : vector) :
  (2 <= length d)%nat ->
  matvec (D1 (length d)) d = diff_vec d
  /\ matvec (D2 (length d)) d = diff_vec (diff_vec d)
  /\ objective (length d)
       (smoothing_matrix (length d) alpha beta gamma_center) f d
     = (1 / 2) * (alpha * dot (diff_vec d) (diff_vec d)
                  + beta * dot (diff_vec (diff_vec d))
                               (diff_vec (diff_vec d))
                  + gamma_center * dot d d)
       + dot f d
  /\ (0 <= alpha -> 0 <= beta -> 0 <= gamma_center ->
      dot f d
      <= objective (length d)
           (smoothing_matrix (length d) alpha beta gamma_center) f d).
Proof.
  intros _.
  split; [apply D1_matvec|]. split; [apply D2_matvec|].
  split; [apply objective_closed_form|].
  intros Ha Hb Hg. rewrite objective_closed_form.
  pose proof (dot_self_nonneg (diff_vec d)) as H1.
  pose proof (dot_self_nonneg (diff_vec (diff_vec d))) as H2.
  pose proof (dot_self_nonneg d) as H3.
  pose proof (Rmult_le_pos _ _ Ha H1).
  pose proof (Rmult_le_pos _ _ Hb H2).
  pose proof (Rmult_le_pos _ _ Hg H3).
  lra.
Qed.

Lemma offset_objective_closed_form_witness :
  matvec (D1 3) [1; 2; 4] = [1; 2]
  /\ matvec (D2 3) [1; 2; 4] = [1]
  /\ objective 3 (smoothing_matrix 3 5 5 (1 / 100)) [0; 1; 0] [1; 2; 4]
     = (1 / 2) * (5 * 5 + 5 * 1 + (1 / 100) * 21) + 2.
Proof.
  destruct (offset_objective_closed_form 5 5 (1 / 100) [0; 1; 0] [1; 2; 4])
    as (H1 & H2 & H3 & _); [cbn [length]; lia|].
  cbn [length] in H1, H2, H3.
  split; [rewrite H1; cbn [diff_vec]; repeat (f_equal; try lra)|].
  split; [rewrite H2; cbn [diff_vec]; repeat (f_equal; try lra)|].
  rewrite H3. cbn [diff_vec dot]. lra.
Defined.

End DifferenceProperties.

(** ** Further facts: what the noise model reads of the generator *)

Module StreamFacts.
Import Np RefPath RefPathFacts Noise NoiseFacts NoiseFormFacts.



End StreamFacts.

(** ** Theorems: the noise model and the generator *)

Section StreamClaims.
Import Np RefPath RefPathFacts Noise NoiseFacts NoiseFormFacts StreamFacts
  Samples Cubic.


End StreamClaims.

(** ** Further facts: a path that runs back over itself *)

Module OverlapFacts.
Import Np NpFacts RefPath RefPathFacts ClosestFacts TableFacts FrameFacts
  MonotoneFacts RoundTripFacts Fitpack FitpackFacts Samples SamplesFacts
  SquareFacts Scenarios Cubic CubicFacts.



Section Constructed.

Variable splprep : list point -> R -> nat -> option (Spline * list R).
Variables (wps : list raw_point) (s : R) (k : nat) (p : ReferencePath).
Hypothesis Hinit : init splprep wps s k = inr p.






End Constructed.



End OverlapFacts.

(** ** Further facts: the coarse scan and the Newton loop *)

Module LocalFacts.
Import Np NpFacts RefPath RefPathFacts ClosestFacts TableFacts FrameFacts
  MonotoneFacts RoundTripFacts Fitpack FitpackFacts Projection.









End LocalFacts.

(** ** Further facts: the staircase path around its midpoint *)

Module StaircaseFacts.
Import Np NpFacts RefPath RefPathFacts ClosestFacts TableFacts FrameFacts
  MonotoneFacts RoundTripFacts Fitpack FitpackFacts Samples SamplesFacts
  SquareFacts Scenarios Cubic CubicFacts OverlapFacts Projection LocalFacts.


Section Staircase.

Variable p : ReferencePath.
Hypothesis Hinit : init fit_cubic staircase 0 3 = inr p.







End Staircase.

End StaircaseFacts.

(** ** Theorems: the round trip through the projection *)

Section ProjectionClaims.
Import Np NpFacts RefPath RefPathFacts ClosestFacts TableFacts FrameFacts
  MonotoneFacts RoundTripFacts Fitpack FitpackFacts Samples SamplesFacts
  SquareFacts Scenarios Cubic CubicFacts OverlapFacts Projection LocalFacts
  StaircaseFacts.




End ProjectionClaims.

(** ** Theorems: queries outside the arclength range *)

Section QueryClaims.
Import Np RefPath RefPathFacts Fitpack FitpackFacts Samples SamplesFacts
  Scenarios ScenarioFacts.

(** C10.  On the square path built with k = 1 the curvature query raises
    for theta = -1 and for theta = total_length + 1 (splev refuses the
    second derivative of a spline of degree 1), while path(-1) = path(0)
    and the tangent at -1 is the tangent at 0.  On every constructed path,
    for every fitter that returns splines of the degree it is asked for:
    path, tangent and normal return for every theta, with their value at 0
    for theta < 0 and their value at total_length for theta >
    total_length; curvature does at theta what it does at the clamped
    arclength; and curvature raises exactly on the paths of degree 1, for
    every theta. *)
Theorem curvature_raises_on_linear_path :
  (exists p, init fit square 0 1 = inr p
     /\ degree_one (tck p) = 1%nat
     /\ call p (-1) = call p 0
     /\ tangent_checked degree_one p (-1) = Some (tangent p 0)
     /\ curvature_checked degree_one p (-1) = None
     /\ curvature_checked degree_one p (total_length p + 1) = None)
  /\ (forall (degree_of : Spline -> nat) splprep wps s k p theta,
        fits_degree degree_of splprep ->
        init splprep wps s k = inr p ->
        (theta < 0 ->
           call p theta = call p 0
           /\ tangent_checked degree_of p theta = Some (tangent p 0)
           /\ normal p theta = normal p 0
           /\ curvature_checked degree_of p theta
              = curvature_checked degree_of p 0)
        /\ (total_length p < theta ->
              call p theta = call p (total_length p)
              /\ tangent_checked degree_of p theta
                 = Some (tangent p (total_length p))
              /\ normal p theta = normal p (total_length p)
              /\ curvature_checked degree_of p theta
                 = curvature_checked degree_of p (total_length p))
        /\ (curvature_checked degree_of p theta = None
            <-> degree_of (tck p) = 1%nat)
        /\ ((2 <= degree_of (tck p))%nat ->
              curvature_checked degree_of p theta
              = Some (curvature p theta))).
Proof.
  assert (forall (degree_of : Spline -> nat) splprep wps s k p theta,
            fits_degree degree_of splprep ->
            init splprep wps s k = inr p ->
            (theta < 0 -> _theta_to_u p theta = _theta_to_u p 0)
            /\ (total_length p < theta ->
                  _theta_to_u p theta = _theta_to_u p (total_length p))
            /\ (1 <= degree_of (tck p))%nat) as Hclamp.
  { intros degree_of splprep wps s k p theta Hfit Hinit.
    pose proof (constructed_total_length_nonneg _ _ _ _ _ Hinit) as HL.
    pose proof (init_degree degree_of splprep wps s k p Hfit Hinit) as Hd.
    split; [|split; [|lia]]; intros Hth; unfold _theta_to_u.
    - rewrite (clip_below theta) by assumption. reflexivity.
    - rewrite (clip_above theta) by assumption. reflexivity. }
  split.
  - destruct square_constructs as [p Hp]. exists p. split; [exact Hp|].
    destruct (Hclamp degree_one fit square 0 1%nat p (-1) fits_degree_one Hp)
      as (Hlow & _ & _).
    split; [reflexivity|].
    split; [unfold call; rewrite Hlow by lra; reflexivity|].
    split.
    + rewrite tangent_checked_defined by (unfold degree_one; lia).
      unfold tangent. rewrite Hlow by lra. reflexivity.
    + split; apply curvature_checked_raises; unfold degree_one; lia.
  - intros degree_of splprep wps s k p theta Hfit Hinit.
    destruct (Hclamp degree_of splprep wps s k p theta Hfit Hinit)
      as (Hlow & Hhigh & Hd).
    split; [|split; [|split]].
    + intros Hth. specialize (Hlow Hth).
      rewrite tangent_checked_defined by exact Hd.
      unfold call, normal, tangent, curvature_checked. cbv zeta.
      rewrite Hlow. repeat split; reflexivity.
    + intros Hth. specialize (Hhigh Hth).
      rewrite tangent_checked_defined by exact Hd.
      unfold call, normal, tangent, curvature_checked. cbv zeta.
      rewrite Hhigh. repeat split; reflexivity.
    + split.
      * intros Hnone.
        destruct (le_lt_dec 2 (degree_of (tck p))) as [H2|H2]; [|lia].
        rewrite curvature_checked_defined in Hnone by exact H2.
        discriminate.
      * intros H1. apply curvature_checked_raises. lia.
    + intros H2. apply curvature_checked_defined. exact H2.
Qed.

End QueryClaims.
